(** * Tenable documentation bridge: keyword index, cache, page reading

  A shallow embedding of the TypeScript sources
  ([utils/indexer.ts], [utils/cache.ts], [tools/search.ts],
  [tools/read.ts], [utils/converter.ts], [utils/scraper.ts]) together
  with the properties stated about them.

  Conventions of the embedding.
  - A JavaScript string is a list of code units.  The model covers the
    strings whose code units are below 256 (Latin-1): a code unit is an
    [ascii].  [toLowerCase], [trim], [\s] and [\w] are written out for
    that range.
  - [Date.now()] is an explicit argument [now : Z] (milliseconds).
  - A thrown exception is the [Throw] branch of [result].
  - What the sources obtain from libraries (the WHATWG URL parser, the
    HTTP client, the HTML parser) is a field of an environment record. *)

From Stdlib Require Import ZArith Ascii String List Lia Bool.
From Stdlib Require Import Sorting.Sorted Sorting.Permutation.
From Stdlib Require Import Numbers.DecimalString Numbers.DecimalNat.
From stdpp Require Import gmap strings list fin_maps sorting.

Abbreviation jsstring := (list ascii).

(** String literals of the sources, as code-unit lists. *)
Definition str (s : string) : jsstring := list_ascii_of_string s.

(* ===================================================================== *)
(** ** JavaScript string primitives (Latin-1 range)                       *)
(* ===================================================================== *)

Module JS.

Definition code (c : ascii) : nat := nat_of_ascii c.

(** Line feed, tab, the double quote and the backtick. *)
Definition LF : ascii := "010"%char.
Definition TAB : ascii := "009"%char.
Definition quote : ascii := "034"%char.
Definition backtick : ascii := "096"%char.

(** [WhiteSpace] and [LineTerminator] code units below 256: TAB, LF, VT,
    FF, CR, SPACE and NBSP.  This is the class [\s] and what [trim]
    strips. *)
Definition isWhiteSpace (c : ascii) : bool :=
  let n := code c in
  ((9 <=? n) && (n <=? 13)) || (n =? 32) || (n =? 160).

(** [LineTerminator] below 256: LF and CR (what [$] with the [m] flag
    looks at). *)
Definition isLineTerminator (c : ascii) : bool :=
  let n := code c in (n =? 10) || (n =? 13).

(** [\w] is [[A-Za-z0-9_]]. *)
Definition isWordChar (c : ascii) : bool :=
  let n := code c in
  ((48 <=? n) && (n <=? 57)) || ((65 <=? n) && (n <=? 90))
  || ((97 <=? n) && (n <=? 122)) || (n =? 95).

Definition isDigit (c : ascii) : bool :=
  let n := code c in (48 <=? n) && (n <=? 57).

(** [toLowerCase] on one code unit: A-Z, and the Latin-1 capitals
    U+00C0..U+00DE except the multiplication sign U+00D7. *)
Definition toLowerCaseChar (c : ascii) : ascii :=
  let n := code c in
  if ((65 <=? n) && (n <=? 90))
     || ((192 <=? n) && (n <=? 222) && negb (n =? 215))
  then ascii_of_nat (n + 32) else c.

Definition toLowerCase (s : jsstring) : jsstring := map toLowerCaseChar s.

Fixpoint trimStart (s : jsstring) : jsstring :=
  match s with
  | c :: s' => if isWhiteSpace c then trimStart s' else s
  | [] => []
  end.

Definition trimEnd (s : jsstring) : jsstring := rev (trimStart (rev s)).

Definition trim (s : jsstring) : jsstring := trimEnd (trimStart s).

Definition eqb (a b : jsstring) : bool := bool_decide (a = b).

(** [s.startsWith(p)] *)
Fixpoint startsWith (p s : jsstring) : bool :=
  match p, s with
  | [], _ => true
  | a :: p', b :: s' => Ascii.eqb a b && startsWith p' s'
  | _ :: _, [] => false
  end.

(** [s.endsWith(p)] *)
Definition endsWith (p s : jsstring) : bool := startsWith (rev p) (rev s).

(** [s.includes(p)] *)
Fixpoint includes (p s : jsstring) : bool :=
  startsWith p s ||
  match s with
  | [] => false
  | _ :: s' => includes p s'
  end.

(** Adds a code unit to the piece under construction, the head of the
    list of pieces. *)
Definition consHead (c : ascii) (ps : list jsstring) : list jsstring :=
  match ps with
  | [] => [[c]]
  | p :: ps' => (c :: p) :: ps'
  end.

(** [s.split(sep)] for a one-unit separator: every separator ends a
    piece; the empty string gives one empty piece. *)
Fixpoint splitChar (sep : ascii) (s : jsstring) : list jsstring :=
  match s with
  | [] => [[]]
  | c :: s' =>
      if Ascii.eqb c sep then [] :: splitChar sep s'
      else consHead c (splitChar sep s')
  end.

(** [s.split(/\s+/)]: a maximal run of white space ends a piece.
    [inRun] tells that the previous unit was white space. *)
Fixpoint splitWsFrom (inRun : bool) (s : jsstring) : list jsstring :=
  match s with
  | [] => [[]]
  | c :: s' =>
      if isWhiteSpace c
      then (if inRun then splitWsFrom true s' else [] :: splitWsFrom true s')
      else consHead c (splitWsFrom false s')
  end.

Definition splitWs (s : jsstring) : list jsstring := splitWsFrom false s.

(** [s.replace(/X+/g, r)] for a class [X] of single units: each maximal
    run of units in [X] becomes one copy of [r]. *)
Fixpoint replaceRunsFrom (X : ascii -> bool) (r : jsstring) (inRun : bool)
    (s : jsstring) : jsstring :=
  match s with
  | [] => []
  | c :: s' =>
      if X c
      then (if inRun then replaceRunsFrom X r true s'
            else r ++ replaceRunsFrom X r true s')
      else c :: replaceRunsFrom X r false s'
  end.

Definition replaceRuns (X : ascii -> bool) (r s : jsstring) : jsstring :=
  replaceRunsFrom X r false s.

(** [l.join(sep)] *)
Fixpoint join (sep : jsstring) (l : list jsstring) : jsstring :=
  match l with
  | [] => []
  | [x] => x
  | x :: l' => x ++ sep ++ join sep l'
  end.

(** [String(n)] for a counter [n]: its decimal digits. *)
Definition natToString (n : nat) : jsstring :=
  list_ascii_of_string (NilEmpty.string_of_uint (Nat.to_uint n)).

(** [String(n)] for an integer [n]. *)
Definition numberToString (n : Z) : jsstring :=
  list_ascii_of_string (NilEmpty.string_of_int (Z.to_int n)).

(** [s.replace(/c/g, r)] for one unit [c] replaced by one unit [r]. *)
Definition replaceChar (c r : ascii) (s : jsstring) : jsstring :=
  map (fun x => if Ascii.eqb x c then r else x) s.

End JS.

(* ===================================================================== *)
(** ** utils/indexer.ts: keyword extraction, index, search                *)
(* ===================================================================== *)

(** The fields of a WHATWG [URL] object that the sources read. *)
Record URL := mkURL {
protocol : jsstring;
hostname : jsstring;
pathname : jsstring;
}.

(** [new URL(s)]: [None] stands for the [TypeError] of an unparsable
  string.  The parser is the platform's, so it is an argument of every
  function that calls it. *)
Abbreviation URLParser := (jsstring -> option URL).

Record IndexedDoc := mkDoc {
url : jsstring;
title : jsstring;
description : jsstring;
category : jsstring;
keywords : list jsstring;
}.

Record SearchIndex := mkSearchIndex {
entries : list IndexedDoc;
keywordMap : gmap jsstring (list nat);
categoryMap : gmap jsstring (list nat);
}.

Module Indexer.

Definition stopWords : list jsstring :=
  [str "and"; str "the"; str "for"; str "with"; str "api"].

(** [[^\w\s-]] is removed: a unit is kept when it is a word unit, white
    space or the hyphen. *)
Definition keptByStrip (c : ascii) : bool :=
  JS.isWordChar c || JS.isWhiteSpace c || Ascii.eqb c "-".

Definition keepWord (word : jsstring) : bool :=
  (2 <? length word) && negb (bool_decide (word ∈ stopWords)).

(** [extractKeywordsFromText] *)
Definition extractKeywordsFromText (text : jsstring) : list jsstring :=
  filter (fun word => keepWord word = true)
    (JS.splitWs (filter (fun c => keptByStrip c = true) (JS.toLowerCase text))).

(** The [path] of [extractKeywordsFromUrl]: runs of slashes, every
    hyphen and every underscore become a space, runs of white space one
    space, then [trim]. *)
Definition urlPathWords (pathname : jsstring) : jsstring :=
  JS.trim
    (JS.replaceRuns JS.isWhiteSpace (str " ")
       (JS.replaceChar "_" " "
          (JS.replaceChar "-" " "
             (JS.replaceRuns (fun c => Ascii.eqb c "/") (str " ") pathname)))).

(** [extractKeywordsFromUrl]: the [catch] gives the empty array. *)
Definition extractKeywordsFromUrl (parse : URLParser) (url : jsstring)
    : list jsstring :=
  match parse url with
  | None => []
  | Some urlObj =>
      let path := urlPathWords (pathname urlObj) in
      match path with
      | [] => []
      | _ :: _ =>
          filter (fun word => 2 < length word)
            (JS.splitChar " " (JS.toLowerCase path))
      end
  end.

(** [keywordMap.get(keyword)!.push(index)], after creating the empty
    posting list when the keyword is new. *)
Definition addPosting (index : nat) (m : gmap jsstring (list nat))
    (keyword : jsstring) : gmap jsstring (list nat) :=
  <[keyword := default [] (m !! keyword) ++ [index]]> m.

Fixpoint buildKeywordMapFrom (index : nat) (es : list IndexedDoc)
    (m : gmap jsstring (list nat)) : gmap jsstring (list nat) :=
  match es with
  | [] => m
  | entry :: es' =>
      buildKeywordMapFrom (S index) es'
        (fold_left (addPosting index) (keywords entry) m)
  end.

(** [buildKeywordMap] *)
Definition buildKeywordMap (es : list IndexedDoc) : gmap jsstring (list nat) :=
  buildKeywordMapFrom 0 es ∅.

Fixpoint buildCategoryMapFrom (index : nat) (es : list IndexedDoc)
    (m : gmap jsstring (list nat)) : gmap jsstring (list nat) :=
  match es with
  | [] => m
  | entry :: es' =>
      buildCategoryMapFrom (S index) es' (addPosting index m (category entry))
  end.

(** [buildCategoryMap] *)
Definition buildCategoryMap (es : list IndexedDoc) : gmap jsstring (list nat) :=
  buildCategoryMapFrom 0 es ∅.

(** The index record that [buildIndex] assembles from the deduplicated
    entries. *)
Definition indexOf (uniqueEntries : list IndexedDoc) : SearchIndex :=
  {| entries := uniqueEntries;
     keywordMap := buildKeywordMap uniqueEntries;
     categoryMap := buildCategoryMap uniqueEntries |}.

(** The [scores] map: a JavaScript [Map] iterates in insertion order and
    [set] on a present key keeps the key's place, so it is an association
    list.  [bump] is [scores.set(index, (scores.get(index) || 0) + 1)]. *)
Fixpoint bump (index : nat) (scores : list (nat * nat)) : list (nat * nat) :=
  match scores with
  | [] => [(index, 1)]
  | (i, s) :: rest =>
      if i =? index then (i, (if s =? 0 then 0 else s) + 1) :: rest
      else (i, s) :: bump index rest
  end.

(** The [keywords.forEach] loop. *)
Definition accumulate (km : gmap jsstring (list nat)) (kws : list jsstring)
    : list (nat * nat) :=
  fold_left
    (fun scores keyword =>
       match km !! keyword with
       | Some indices => fold_left (fun sc index => bump index sc) indices scores
       | None => scores
       end)
    kws [].

(** [Array.prototype.sort] with the comparator [(a, b) => b[1] - a[1]]:
    a stable sort by descending score.  An element is put before the
    first element whose score is not larger than its own. *)
Fixpoint insertByScore (x : nat * nat) (l : list (nat * nat)) : list (nat * nat) :=
  match l with
  | [] => [x]
  | y :: l' => if snd x <? snd y then y :: insertByScore x l' else x :: y :: l'
  end.

Definition sortByScore (l : list (nat * nat)) : list (nat * nat) :=
  foldr insertByScore [] l.

(** The [[index, score]] pairs of [searchIndexInternal] after [sort] and
    [slice(0, 10)]. *)
Definition rankedScores (ix : SearchIndex) (query : jsstring) : list (nat * nat) :=
  take 10 (sortByScore (accumulate (keywordMap ix) (extractKeywordsFromText query))).

(** [searchIndexInternal].  [_searchIndex] is the argument; [entries[index]]
    is [undefined], here [None], for an index out of range. *)
Definition searchIndexInternal (_searchIndex : option SearchIndex)
    (query : jsstring) : list (option IndexedDoc) :=
  match _searchIndex with
  | None => []
  | Some ix =>
      match extractKeywordsFromText query with
      | [] => []
      | _ :: _ => map (fun p => entries ix !! fst p) (rankedScores ix query)
      end
  end.

(** [search] *)
Definition search (_searchIndex : option SearchIndex) (query : jsstring)
    : list (option IndexedDoc) :=
  match _searchIndex with
  | None => []
  | Some _ => searchIndexInternal _searchIndex query
  end.

(** [getAllEntries] *)
Definition getAllEntries (_searchIndex : option SearchIndex) : list IndexedDoc :=
  match _searchIndex with
  | Some ix => entries ix
  | None => []
  end.

(** [getEntriesByCategory]; [entries[index]] is [None] for an index out
    of range. *)
Definition getEntriesByCategory (_searchIndex : option SearchIndex)
    (categoryName : jsstring) : list (option IndexedDoc) :=
  match _searchIndex with
  | None => []
  | Some ix =>
      match categoryMap ix !! categoryName with
      | None => []
      | Some indices => map (fun index => entries ix !! index) indices
      end
  end.

(** [Map.prototype.set] on a map kept as the list of its entries in
    insertion order: the value of a present key is replaced where the key
    is, a new key is added at the end. *)
Fixpoint mapSet {V : Type} (key : jsstring) (value : V) (m : list (jsstring * V))
    : list (jsstring * V) :=
  match m with
  | [] => [(key, value)]
  | (k, v) :: rest =>
      if decide (k = key) then (k, value) :: rest
      else (k, v) :: mapSet key value rest
  end.

(** The [uniqueEntries] of [buildIndex]:
    [Array.from(new Map(allEntries.map(entry => [entry.url, entry])).values())]. *)
Definition uniqueByUrl (allEntries : list IndexedDoc) : list IndexedDoc :=
  (fold_left (fun m entry => mapSet (url entry) entry m) allEntries []).*2.

(** [[...new Set(l)]]: an element is added when the set does not hold
    it. *)
Definition setOf (l : list jsstring) : list jsstring :=
  fold_left (fun acc x => if decide (x ∈ acc) then acc else acc ++ [x]) l [].

End Indexer.


(** *** Reference descriptions of keyword extraction and ranking

    The definitions of this module are not taken from the sources: they
    say, in closed form, what the statements about the sources compare the
    code with. *)
Module IndexerSpec.
Import Indexer.

(** A path separator, a hyphen or an underscore becomes a space. *)
Definition isPathSeparator (c : ascii) : bool :=
  Ascii.eqb c "/" || Ascii.eqb c "-" || Ascii.eqb c "_".

Definition separatorsToSpaces (pathname : jsstring) : jsstring :=
  map (fun c => if isPathSeparator c then " "%char else c) pathname.

(** The URL variant as the specification words it: separators become
    spaces, then the pipeline of the free-text extractor. *)
Definition statedKeywordsFromUrl (parse : URLParser) (url : jsstring)
    : list jsstring :=
  match parse url with
  | None => []
  | Some urlObj => extractKeywordsFromText (separatorsToSpaces (pathname urlObj))
  end.

(** The URL variant in closed form: separators become spaces, lowercase,
    split on white space, drop the tokens of length at most 2.  No unit
    is stripped and no stopword is dropped. *)
Definition pathKeywords (pathname : jsstring) : list jsstring :=
  filter (fun word => 2 < length word)
    (JS.splitWs (JS.toLowerCase (separatorsToSpaces pathname))).

(** The units a free-text keyword is made of: [a-z0-9_-]. *)
Definition isKeywordUnit (c : ascii) : bool :=
  let n := JS.code c in
  ((48 <=? n) && (n <=? 57)) || ((97 <=? n) && (n <=? 122))
  || (n =? 95) || (n =? 45).

(** The maximal runs of units that are not white space: [fst] is the run
    the string starts with (empty when it starts with white space), [snd]
    the runs after it. *)
Definition consWord (w : jsstring) (ws : list jsstring) : list jsstring :=
  match w with
  | [] => ws
  | _ :: _ => w :: ws
  end.

Fixpoint wordsAux (s : jsstring) : jsstring * list jsstring :=
  match s with
  | [] => ([], [])
  | c :: s' =>
      if JS.isWhiteSpace c then ([], consWord (fst (wordsAux s')) (snd (wordsAux s')))
      else (c :: fst (wordsAux s'), snd (wordsAux s'))
  end.

Definition words (s : jsstring) : list jsstring :=
  consWord (fst (wordsAux s)) (snd (wordsAux s)).

(** Number of pairs (occurrence of a query token, equal keyword of the
    entry).  When the entry's keywords are pairwise different this is the
    number of query-token occurrences that are keywords of the entry. *)
Definition termOverlap (kws : list jsstring) (e : IndexedDoc) : nat :=
  sum_list (map (fun t => length (filter (fun k => k = t) (keywords e))) kws).

(** Number of distinct query tokens that are keywords of the entry. *)
Definition distinctOverlap (kws : list jsstring) (e : IndexedDoc) : nat :=
  length (filter (fun t => t ∈ keywords e) (remove_dups kws)).

(** Positions of the entries that have keyword [t], in entry order, once
    per occurrence of [t] among the entry's keywords. *)
Definition postingsOf (es : list IndexedDoc) (t : jsstring) : list nat :=
  mjoin (imap (fun i e => map (fun _ => i) (filter (fun k => k = t) (keywords e))) es).

(** The entry positions in the order in which the query tokens hit them. *)
Definition hitSequence (es : list IndexedDoc) (kws : list jsstring) : list nat :=
  mjoin (map (postingsOf es) kws).

(** Each element once, at the place of its first occurrence. *)
Fixpoint firstOccurrences (l : list nat) : list nat :=
  match l with
  | [] => []
  | x :: l' => x :: filter (fun y => y ≠ x) (firstOccurrences l')
  end.

(** The order of a list sorted by descending score. *)
Definition descending (a b : nat * nat) : Prop := snd b <= snd a.

(** The ranking as the specification words it: the entries with at least
    one matching token, in entry order, scored by the number of distinct
    matching tokens, stably sorted by descending score, the first ten. *)
Definition statedRanking (es : list IndexedDoc) (query : jsstring) : list (nat * nat) :=
  let kws := extractKeywordsFromText query in
  take 10 (sortByScore
    (filter (fun p => 0 < snd p) (imap (fun i e => (i, distinctOverlap kws e)) es))).

(** The ranking in closed form: the entries in the order of their first
    hit, scored by [termOverlap], stably sorted by descending score, the
    first ten. *)
Definition firstHitRanking (es : list IndexedDoc) (query : jsstring) : list (nat * nat) :=
  let kws := extractKeywordsFromText query in
  take 10 (sortByScore
    (map (fun i => (i, from_option (termOverlap kws) 0 (es !! i)))
         (firstOccurrences (hitSequence es kws)))).

End IndexerSpec.

Module IndexerExamples.

Definition docA : IndexedDoc :=
  mkDoc (str "https://developer.tenable.com/reference/a") (str "A") []
    (str "API References") [str "scan"; str "asset"].
Definition docB : IndexedDoc :=
  mkDoc (str "https://developer.tenable.com/reference/b") (str "B") []
    (str "API References") [str "scan"].

(** Three entries with one keyword each. *)
Definition docAsset : IndexedDoc :=
  mkDoc (str "https://developer.tenable.com/reference/assets") (str "Assets")
    [] (str "API References") [str "asset"].
Definition docScan : IndexedDoc :=
  mkDoc (str "https://developer.tenable.com/reference/scans") (str "Scans")
    [] (str "API References") [str "scan"].
Definition docHost : IndexedDoc :=
  mkDoc (str "https://developer.tenable.com/reference/hosts") (str "Hosts")
    [] (str "API References") [str "host"].

(** A parser stub that knows one URL. *)
Definition parseReferenceApi : URLParser :=
  fun s =>
    if JS.eqb s (str "https://developer.tenable.com/reference/api")
    then Some (mkURL (str "https:") (str "developer.tenable.com") (str "/reference/api"))
    else None.

End IndexerExamples.

(* ===================================================================== *)
(** ** Errors, results and observable events                              *)
(* ===================================================================== *)

(** The error classes of [types.ts]; [OtherError] is any other thrown
    value (a [TypeError] of the platform, for example). *)
Inductive ErrorKind :=
| ValidationError | NetworkError | ScrapingError | ConversionError
| SearchError | OtherError.

Record Error := mkError { kind : ErrorKind; message : jsstring }.

Inductive result (A : Type) :=
| Ok (a : A)
| Throw (e : Error).
Arguments Ok {A} a.
Arguments Throw {A} e.

(** What a call does to its collaborators: a lookup in the search index,
    a request sent by [downloadHTML]. *)
Inductive Event :=
| IndexLookup (query : jsstring)
| Fetch (target : jsstring).

(** [a || b] on strings: the empty string and [null] are falsy. *)
Definition orString (a : option jsstring) (b : jsstring) : jsstring :=
  match a with
  | Some (c :: s) => c :: s
  | _ => b
  end.

(* ===================================================================== *)
(** ** utils/cache.ts: the LRU cache with expiry                          *)
(* ===================================================================== *)

Record CacheEntry (T : Type) := mkEntry {
  data : T;
  timestamp : Z;
  hits : Z;
}.
Arguments mkEntry {T} data timestamp hits.
Arguments data {T} c.
Arguments timestamp {T} c.
Arguments hits {T} c.

Record LRUCache (T : Type) := mkCache {
  cache : gmap jsstring (CacheEntry T);
  maxSize : Z;
  ttl : Z;
  accessOrder : list jsstring;
}.
Arguments mkCache {T} cache maxSize ttl accessOrder.
Arguments cache {T} l.
Arguments maxSize {T} l.
Arguments ttl {T} l.
Arguments accessOrder {T} l.

Module Cache.
Section Methods.
Context {T : Type}.

(** [options.x || d] on numbers: [undefined] and [0] give the default. *)
Definition orNumber (o : option Z) (d : Z) : Z :=
  match o with
  | Some v => if (v =? 0)%Z then d else v
  | None => d
  end.

(** The constructor. *)
Definition new (optMaxSize optTtl : option Z) : LRUCache T :=
  mkCache ∅ (orNumber optMaxSize 100) (orNumber optTtl (24 * 60 * 60 * 1000)) [].

(** [accessOrder.splice(accessOrder.indexOf(key), 1)] when the key is
    found: the first occurrence is removed. *)
Fixpoint removeFirst (key : jsstring) (order : list jsstring) : list jsstring :=
  match order with
  | [] => []
  | k :: rest => if decide (k = key) then rest else k :: removeFirst key rest
  end.

(** [delete]: the returned boolean is that of [Map.prototype.delete]. *)
Definition delete (c : LRUCache T) (key : jsstring) : bool * LRUCache T :=
  (bool_decide (is_Some (cache c !! key)),
   mkCache (base.delete key (cache c)) (maxSize c) (ttl c)
           (removeFirst key (accessOrder c))).

(** [updateAccessOrder]: a key found in the order moves to its end. *)
Definition updateAccessOrder (order : list jsstring) (key : jsstring)
    : list jsstring :=
  if decide (key ∈ order) then removeFirst key order ++ [key] else order.

(** [get] at the instant [now]. *)
Definition get (c : LRUCache T) (key : jsstring) (now : Z)
    : option T * LRUCache T :=
  match cache c !! key with
  | None => (None, c)
  | Some entry =>
      if (ttl c <? now - timestamp entry)%Z then (None, snd (delete c key))
      else
        (Some (data entry),
         mkCache
           (<[key := mkEntry (data entry) (timestamp entry) (hits entry + 1)]>
              (cache c))
           (maxSize c) (ttl c) (updateAccessOrder (accessOrder c) key))
  end.

(** [has] at the instant [now]. *)
Definition has (c : LRUCache T) (key : jsstring) (now : Z) : bool * LRUCache T :=
  match cache c !! key with
  | None => (false, c)
  | Some entry =>
      if (ttl c <? now - timestamp entry)%Z then (false, snd (delete c key))
      else (true, c)
  end.

(** The eviction step of [set]: [accessOrder.shift()] and, when the key it
    returns is truthy, [cache.delete(lruKey)].  The empty string is falsy. *)
Definition evict (c : LRUCache T) : LRUCache T :=
  match accessOrder c with
  | [] => c
  | lruKey :: rest =>
      mkCache
        (match lruKey with
         | [] => cache c
         | _ :: _ => base.delete lruKey (cache c)
         end)
        (maxSize c) (ttl c) rest
  end.

(** [set] at the instant [now]. *)
Definition set (c : LRUCache T) (key : jsstring) (value : T) (now : Z)
    : LRUCache T :=
  let c1 := if bool_decide (is_Some (cache c !! key)) then snd (delete c key) else c in
  let c2 := if (maxSize c1 <=? Z.of_nat (size (cache c1)))%Z then evict c1 else c1 in
  mkCache (<[key := mkEntry value now 0]> (cache c2)) (maxSize c2) (ttl c2)
          (accessOrder c2 ++ [key]).

(** A sequence of [set] calls with no other call in between; each element
    is a key, its value and the instant of the call. *)
Definition setAll (c : LRUCache T) (calls : list (jsstring * T * Z)) : LRUCache T :=
  fold_left (fun c' call => set c' call.1.1 call.1.2 call.2) calls c.

(** The key of a [set] call and the map entry the call makes. *)
Definition callKey (call : jsstring * T * Z) : jsstring := call.1.1.

Definition callEntry (call : jsstring * T * Z) : jsstring * CacheEntry T :=
  (call.1.1, mkEntry call.1.2 call.2 0).

(** The recency order and the map hold the same keys, each once. *)
Definition consistent (c : LRUCache T) : Prop :=
  NoDup (accessOrder c) /\ forall k, k ∈ accessOrder c <-> is_Some (cache c !! k).

(** [clear] *)
Definition clear (c : LRUCache T) : LRUCache T :=
  mkCache ∅ (maxSize c) (ttl c) [].

(** The [expiredKeys] of [cleanup]: the keys of the entries with
    [now - entry.timestamp > this.ttl], collected by a traversal of the
    map. *)
Definition expiredKeys (c : LRUCache T) (now : Z) : list jsstring :=
  (filter (fun kv : jsstring * CacheEntry T => (ttl c <? now - timestamp kv.2)%Z = true)
          (map_to_list (cache c))).*1.

(** [expiredKeys.forEach(key => this.delete(key))] *)
Definition deleteAll (c : LRUCache T) (keys : list jsstring) : LRUCache T :=
  fold_left (fun c' key => snd (delete c' key)) keys c.

(** [cleanup] at the instant [now]: the number of expired entries and
    the cache without them.  The map is traversed in the order of
    insertion, which the model of the map does not keep; the deletions
    are of pairwise different keys, and the cache they leave is the same
    in every order. *)
Definition cleanup (c : LRUCache T) (now : Z) : nat * LRUCache T :=
  (length (expiredKeys c now), deleteAll c (expiredKeys c now)).

End Methods.

(** [createCacheKey(url)] with the default, empty [params]. *)
Definition createCacheKey (url : jsstring) : jsstring := url.

(** The order of [Array.prototype.sort] without comparator on strings:
    by code units. *)
Fixpoint ltString (a b : jsstring) : bool :=
  match a, b with
  | _, [] => false
  | [], _ :: _ => true
  | x :: a', y :: b' =>
      (JS.code x <? JS.code y) || ((JS.code x =? JS.code y) && ltString a' b')
  end.

(** [sort] is stable: a key goes behind the keys that are not above
    it. *)
Fixpoint insertKey (key : jsstring) (sorted : list jsstring) : list jsstring :=
  match sorted with
  | [] => [key]
  | k :: rest => if ltString key k then key :: k :: rest else k :: insertKey key rest
  end.

Definition sortKeys (keys : list jsstring) : list jsstring :=
  fold_left (fun sorted key => insertKey key sorted) keys [].

(** [params[key]], for an object given by its properties in the order of
    [Object.keys], each with its value as a template literal writes it;
    a key that is no property gives [undefined]. *)
Fixpoint paramValue (key : jsstring) (params : list (jsstring * jsstring)) : jsstring :=
  match params with
  | [] => str "undefined"
  | (k, v) :: rest => if decide (k = key) then v else paramValue key rest
  end.

(** [createCacheKey(url, params)] *)
Definition createCacheKeyWith (url : jsstring) (params : list (jsstring * jsstring))
    : jsstring :=
  let paramStr :=
    JS.join (str "|")
      (map (fun key => key ++ str ":" ++ paramValue key params) (sortKeys (params.*1))) in
  match paramStr with
  | [] => url
  | _ :: _ => url ++ str ":" ++ paramStr
  end.

End Cache.

(** *** Sequences of calls on a cache *)
Module CacheSpec.
Section Calls.
Context {T : Type}.

(** A call of a method of the cache with its arguments and, where the
    method reads the clock, the instant of the call. *)
Inductive Call :=
| CallGet (key : jsstring) (now : Z)
| CallSet (key : jsstring) (value : T) (now : Z)
| CallHas (key : jsstring) (now : Z)
| CallDelete (key : jsstring)
| CallClear
| CallCleanup (now : Z).

(** The cache after a call. *)
Definition step (c : LRUCache T) (call : Call) : LRUCache T :=
  match call with
  | CallGet key now => snd (Cache.get c key now)
  | CallSet key value now => Cache.set c key value now
  | CallHas key now => snd (Cache.has c key now)
  | CallDelete key => snd (Cache.delete c key)
  | CallClear => Cache.clear c
  | CallCleanup now => snd (Cache.cleanup c now)
  end.

Definition run (c : LRUCache T) (calls : list Call) : LRUCache T :=
  fold_left step calls c.

(** The call is no [set] with the empty string as key. *)
Definition setsNoEmptyKey (call : Call) : Prop :=
  match call with
  | CallSet key _ _ => key <> []
  | _ => True
  end.

(** The map holds no entry for the empty string and not more entries
    than [maxSize], or one entry when [maxSize] is below 1. *)
Definition withinCapacity (c : LRUCache T) : Prop :=
  cache c !! ([] : jsstring) = None
  /\ (Z.of_nat (size (cache c)) <= Z.max 1 (maxSize c))%Z.

End Calls.
Arguments Call T : clear implicits.
End CacheSpec.

(* ===================================================================== *)
(** ** tools/search.ts                                                    *)
(* ===================================================================== *)

Record SearchResult := mkResult {
  res_url : jsstring;
  res_title : jsstring;
  res_description : jsstring;
}.

Module SearchTool.

(** [validateSearchQuery]: [None] when it returns, the thrown error
    otherwise.  [!query] holds for the empty string. *)
Definition validateSearchQuery (query : jsstring) : option Error :=
  match query with
  | [] => Some (mkError ValidationError (str "Search query must be a non-empty string"))
  | _ :: _ =>
      let trimmedQuery := JS.trim query in
      if length trimmedQuery =? 0
      then Some (mkError ValidationError (str "Search query cannot be empty"))
      else if length trimmedQuery <? 2
      then Some (mkError ValidationError
                   (str "Search query must be at least 2 characters long"))
      else if 200 <? length trimmedQuery
      then Some (mkError ValidationError
                   (str "Search query is too long (max 200 characters)"))
      else None
  end.

(** [getFallbackResults] *)
Definition getFallbackResults : list SearchResult :=
  [ mkResult (str "https://developer.tenable.com/reference")
      (str "Tenable API Documentation")
      (str "Browse all Tenable API documentation. Your search may be found in various API sections.");
    mkResult (str "https://developer.tenable.com/recipes")
      (str "Tenable Recipes")
      (str "Pre-built integration examples and automation scripts that may help with your query.");
    mkResult (str "https://developer.tenable.com/api-explorer")
      (str "API Explorer")
      (str "Interactive tool to explore Tenable APIs and test endpoints.") ].

(** The callback of [indexedResults.map]: reading a property of
    [undefined] throws. *)
Definition toSearchResult (entry : option IndexedDoc) : option SearchResult :=
  match entry with
  | Some e => Some (mkResult (url e) (title e) (description e))
  | None => None
  end.

(** [searchDocs]: the events and the outcome.  A [ValidationError] is
    thrown again as it is, anything else becomes a [SearchError]. *)
Definition searchDocs (_searchIndex : option SearchIndex) (query : jsstring)
    : list Event * result (list SearchResult) :=
  match validateSearchQuery query with
  | Some e => ([], Throw e)
  | None =>
      let indexedResults := Indexer.search _searchIndex query in
      match mapM toSearchResult indexedResults with
      | None =>
          ([IndexLookup query],
           Throw (mkError SearchError
                    (str "Failed to search documentation for query: "
                     ++ [JS.quote] ++ query ++ [JS.quote])))
      | Some results =>
          ([IndexLookup query],
           Ok (if length results =? 0 then getFallbackResults else results))
      end
  end.

(** The states of the global [_searchIndex]: not initialised, or the
    index that [buildIndex] made of some entries (none when
    [initializeIndex] fell back to the empty index). *)
Inductive indexState : option SearchIndex -> Prop :=
| notInitialised : indexState None
| initialised (es : list IndexedDoc) : indexState (Some (Indexer.indexOf es)).

End SearchTool.

(* ===================================================================== *)
(** ** utils/converter.ts: [cleanMarkdown]                                *)
(* ===================================================================== *)

Module Converter.

(** [replace(/\n{3,}/g, '\n\n')]: of a run of line feeds the first two
    are kept.  [run] is the number of line feeds just read. *)
Fixpoint collapseNewlinesFrom (run : nat) (s : jsstring) : jsstring :=
  match s with
  | [] => []
  | c :: s' =>
      if Ascii.eqb c JS.LF
      then (if run <? 2 then JS.LF :: collapseNewlinesFrom (S run) s'
            else collapseNewlinesFrom (S run) s')
      else c :: collapseNewlinesFrom 0 s'
  end.

Definition collapseNewlines (s : jsstring) : jsstring := collapseNewlinesFrom 0 s.

(** The class [[ \t]]. *)
Definition isBlank (c : ascii) : bool := Ascii.eqb c " " || Ascii.eqb c JS.TAB.

(** [$] with the [m] flag: the end of the input or the place before a
    line terminator. *)
Definition atLineEnd (s : jsstring) : bool :=
  match s with
  | [] => true
  | c :: _ => JS.isLineTerminator c
  end.

(** [replace(/[ \t]+$/gm, '')]: a run of blanks that reaches the end of
    its line is removed.  A blank is dropped when what remains after it,
    with its own trailing blanks removed, is at a line end. *)
Fixpoint stripTrailingBlanks (s : jsstring) : jsstring :=
  match s with
  | [] => []
  | c :: s' =>
      let r := stripTrailingBlanks s' in
      if isBlank c && atLineEnd r then r else c :: r
  end.

(** [replace(/^\n+|\n+$/g, '')]: the line feeds the string starts with
    and those it ends with. *)
Fixpoint dropLeadingNewlines (s : jsstring) : jsstring :=
  match s with
  | c :: s' => if Ascii.eqb c JS.LF then dropLeadingNewlines s' else s
  | [] => []
  end.

Definition dropTrailingNewlines (s : jsstring) : jsstring :=
  rev (dropLeadingNewlines (rev s)).

(** [cleanMarkdown] *)
Definition cleanMarkdown (markdown : jsstring) : jsstring :=
  JS.trim
    (dropTrailingNewlines
       (dropLeadingNewlines
          (stripTrailingBlanks (collapseNewlines markdown)))).

(** Three lines of which the second holds one space: [a], [ ], [ ], [b]
    separated by line feeds. *)
Definition blankLines : jsstring :=
  str "a" ++ [JS.LF] ++ str " " ++ [JS.LF] ++ str " " ++ [JS.LF] ++ str "b".

(** The clean-up at the end of [htmlToMarkdown]: the steps of
    [cleanMarkdown] without the one on the blanks at the line ends. *)
Definition tidy (markdown : jsstring) : jsstring :=
  JS.trim (dropTrailingNewlines (dropLeadingNewlines (collapseNewlines markdown))).

(** [htmlToMarkdown] with the default options.  [turndown] is the
    conversion of the library, set up by [createTurndownService]; what it
    throws becomes a [ConversionError]. *)
Definition htmlToMarkdown (turndown : jsstring -> result jsstring) (html : jsstring)
    : result jsstring :=
  match turndown html with
  | Throw _ => Throw (mkError ConversionError (str "Failed to convert HTML to Markdown"))
  | Ok markdown => Ok (tidy markdown)
  end.

(** [s.replace(re, ...)] with the flag [g], for a regular expression that
    matches no empty text.  [matchAt t] is the match that starts at the
    start of [t], as its length and the text that replaces it.  The
    search goes on after a match; [skip] is the number of units of the
    last match that are still to pass. *)
Fixpoint replaceMatches (matchAt : jsstring -> option (nat * jsstring)) (skip : nat)
    (s : jsstring) : jsstring :=
  match s with
  | [] => []
  | c :: s' =>
      match skip with
      | S k => replaceMatches matchAt k s'
      | 0 =>
          match matchAt s with
          | Some (n, replacement) => replacement ++ replaceMatches matchAt (n - 1) s'
          | None => c :: replaceMatches matchAt 0 s'
          end
      end
  end.

(** The units before the first [stop], and the rest from that [stop]
    on. *)
Fixpoint upTo (stop : ascii) (s : jsstring) : jsstring * jsstring :=
  match s with
  | [] => ([], [])
  | c :: s' =>
      if Ascii.eqb c stop then ([], s)
      else (c :: fst (upTo stop s'), snd (upTo stop s'))
  end.

(** The place of the first occurrence of [pattern] in [s]. *)
Fixpoint firstIndex (pattern s : jsstring) : option nat :=
  if JS.startsWith pattern s then Some 0
  else
    match s with
    | [] => None
    | _ :: s' => option_map S (firstIndex pattern s')
    end.

Definition fence : jsstring := [JS.backtick; JS.backtick; JS.backtick].

(** [/```[\s\S]*?```/]: a fence, the fewest units, a fence. *)
Definition matchFence (s : jsstring) : option (nat * jsstring) :=
  if JS.startsWith fence s then
    match firstIndex fence (drop 3 s) with
    | Some between => Some (3 + between + 3, [])
    | None => None
    end
  else None.

(** [/`[^`]+`/]: a backtick, one unit or more that are no backtick, a
    backtick. *)
Definition matchInlineCode (s : jsstring) : option (nat * jsstring) :=
  match s with
  | c :: rest =>
      if Ascii.eqb c JS.backtick then
        match upTo JS.backtick rest with
        | ((_ :: _) as code, _ :: _) => Some (1 + length code + 1, [])
        | _ => None
        end
      else None
  | [] => None
  end.

(** [\]\([^)]+\)], the end of a link or of an image, at the start of
    [s]: its length. *)
Definition matchTarget (s : jsstring) : option nat :=
  match s with
  | a :: b :: rest =>
      if Ascii.eqb a "]" && Ascii.eqb b "(" then
        match upTo ")" rest with
        | ((_ :: _) as target, _ :: _) => Some (2 + length target + 1)
        | _ => None
        end
      else None
  | _ => None
  end.

(** [/\[([^\]]+)\]\([^)]+\)/], replaced by [$1], the text between the
    square brackets. *)
Definition matchLink (s : jsstring) : option (nat * jsstring) :=
  match s with
  | c :: rest =>
      if Ascii.eqb c "[" then
        match upTo "]" rest with
        | ((_ :: _) as text, after) =>
            match matchTarget after with
            | Some n => Some (1 + length text + n, text)
            | None => None
            end
        | _ => None
        end
      else None
  | [] => None
  end.

(** [/!\[[^\]]*\]\([^)]+\)/] *)
Definition matchImage (s : jsstring) : option (nat * jsstring) :=
  match s with
  | a :: b :: rest =>
      if Ascii.eqb a "!" && Ascii.eqb b "[" then
        match matchTarget (snd (upTo "]" rest)) with
        | Some n => Some (2 + length (fst (upTo "]" rest)) + n, [])
        | None => None
        end
      else None
  | _ => None
  end.

(** [countWords] *)
Definition countWords (markdown : jsstring) : nat :=
  let withoutCodeBlocks := replaceMatches matchFence 0 markdown in
  let withoutInlineCode := replaceMatches matchInlineCode 0 withoutCodeBlocks in
  let withoutLinks := replaceMatches matchLink 0 withoutInlineCode in
  let withoutImages := replaceMatches matchImage 0 withoutLinks in
  length (filter (fun word => 0 < length (JS.trim word)) (JS.splitWs withoutImages)).

(** [htmlToMarkdownWithStats] with the default options. *)
Definition htmlToMarkdownWithStats (turndown : jsstring -> result jsstring)
    (html : jsstring) : result (jsstring * nat) :=
  match htmlToMarkdown turndown html with
  | Throw e => Throw e
  | Ok markdown => Ok (markdown, countWords markdown)
  end.

End Converter.

(** *** Reference descriptions for the Markdown post-processing *)
Module ConverterSpec.

(** No space or tab stands at the end of a line. *)
Fixpoint noTrailingBlanks (s : jsstring) : bool :=
  match s with
  | [] => true
  | c :: s' =>
      negb (Converter.isBlank c && Converter.atLineEnd s') && noTrailingBlanks s'
  end.

(** No more than two line feeds stand in a row; [run] line feeds were
    read just before [s]. *)
Fixpoint shortRunsFrom (run : nat) (s : jsstring) : bool :=
  match s with
  | [] => true
  | c :: s' =>
      if Ascii.eqb c JS.LF then (run <? 2) && shortRunsFrom (S run) s'
      else shortRunsFrom 0 s'
  end.

Definition shortRuns (s : jsstring) : bool := shortRunsFrom 0 s.

(** A unit that belongs to no code, link or image of Markdown: neither a
    backtick nor an opening square bracket. *)
Definition isPlainUnit (c : ascii) : bool :=
  negb (Ascii.eqb c JS.backtick) && negb (Ascii.eqb c "[").

End ConverterSpec.

(* ===================================================================== *)
(** ** tools/read.ts                                                      *)
(* ===================================================================== *)

Record HTMLContent := mkHTML {
  html : jsstring;
  responseUrl : jsstring;
  statusCode : Z;
}.

Record ReadPageOutput := mkPage {
  page_url : jsstring;
  page_title : jsstring;
  page_content : jsstring;
  page_wordCount : nat;
}.

(** What [readPage] takes from libraries and from the other modules.
    [downloadHTML n u] is the outcome of the request for [u] when [n]
    requests were made before it in the same call. *)
Record Env := mkEnv {
  parseURL : URLParser;
  downloadHTML : nat -> jsstring -> result HTMLContent;
  extractTitle : jsstring -> result (option jsstring);
  cleanHTMLPreservingCodeBlocks : jsstring -> result jsstring;
  htmlToMarkdownWithStats : jsstring -> result (jsstring * nat);
}.

Module ReadTool.

Definition ALLOWED_DOMAINS : list jsstring :=
  [str "developer.tenable.com"; str "tenable.com"].

(** The callback of [ALLOWED_DOMAINS.some]. *)
Definition matchesDomain (domain allowedDomain : jsstring) : bool :=
  JS.eqb domain allowedDomain || JS.endsWith (str "." ++ allowedDomain) domain.

Definition isAllowed (domain : jsstring) : bool :=
  existsb (matchesDomain domain) ALLOWED_DOMAINS.

(** [validateUrl]: [None] when it returns, the thrown error otherwise.
    Every error it throws is a [ValidationError]; the [TypeError] of the
    URL parser is replaced by one. *)
Definition validateUrl (parse : URLParser) (url : jsstring) : option Error :=
  match url with
  | [] => Some (mkError ValidationError (str "URL must be a non-empty string"))
  | _ :: _ =>
      let trimmedUrl := JS.trim url in
      if length trimmedUrl =? 0
      then Some (mkError ValidationError (str "URL cannot be empty"))
      else
        match parse trimmedUrl with
        | None => Some (mkError ValidationError (str "Invalid URL format"))
        | Some parsedUrl =>
            if negb (JS.eqb (protocol parsedUrl) (str "https:"))
               && negb (JS.eqb (protocol parsedUrl) (str "http:"))
            then Some (mkError ValidationError
                         (str "URL must use HTTP or HTTPS protocol"))
            else
              let domain := JS.toLowerCase (hostname parsedUrl) in
              if isAllowed domain then None
              else Some (mkError ValidationError
                     (str "URL domain " ++ [JS.quote] ++ domain ++ [JS.quote]
                      ++ str " is not allowed. Only Tenable documentation domains are permitted: "
                      ++ JS.join (str ", ") ALLOWED_DOMAINS))
        end
  end.

(** The [catch] of [readPage]: the four known classes pass, anything else
    becomes a [ScrapingError]. *)
Definition wrapReadError (inputUrl : jsstring) (e : Error) : Error :=
  match kind e with
  | ValidationError | NetworkError | ScrapingError | ConversionError => e
  | SearchError | OtherError =>
      mkError ScrapingError (str "Failed to read page at " ++ inputUrl)
  end.

Definition fallbackUrl : jsstring := str "https://developer.tenable.com/reference".

(** The note put before the reference page. *)
Definition notFoundNote (url : jsstring) : jsstring :=
  [JS.LF] ++ str "> **Note**: The requested page (" ++ url
  ++ str ") was not found. Below is the main API reference page. Please search for the specific endpoint or feature you're looking for."
  ++ [JS.LF].

(** The content of the static page. *)
Definition notFoundContent (url : jsstring) : jsstring :=
  JS.join [JS.LF]
    [ str "# Page Not Found"; [];
      str "The requested page could not be found: " ++ url; [];
      str "## Suggested Actions:"; [];
      str "1. **Browse the API Reference**: Visit [https://developer.tenable.com/reference](https://developer.tenable.com/reference) to find available endpoints";
      str "2. **Use the Search**: Use the " ++ [JS.backtick] ++ str "search_docs"
        ++ [JS.backtick] ++ str " tool to find relevant documentation";
      str "3. **Try API Explorer**: Visit [https://developer.tenable.com/api-explorer](https://developer.tenable.com/api-explorer) for interactive API exploration";
      str "4. **Check Recipes**: Visit [https://developer.tenable.com/recipes](https://developer.tenable.com/recipes) for integration examples";
      []; str "## Common Endpoints:"; [];
      str "- **Users**: " ++ [JS.backtick] ++ str "/users" ++ [JS.backtick]
        ++ str " - Manage user accounts";
      str "- **Scans**: " ++ [JS.backtick] ++ str "/scans" ++ [JS.backtick]
        ++ str " - Launch and manage vulnerability scans";
      str "- **Assets**: " ++ [JS.backtick] ++ str "/assets" ++ [JS.backtick]
        ++ str " - Manage asset data";
      str "- **Policies**: " ++ [JS.backtick] ++ str "/policies" ++ [JS.backtick]
        ++ str " - Configure scan policies";
      str "- **Targets**: " ++ [JS.backtick] ++ str "/target-groups" ++ [JS.backtick]
        ++ str " - Manage scan targets";
      []; str "If you believe this is an error, please contact Tenable support." ].

Definition notFoundPage (url : jsstring) : ReadPageOutput :=
  mkPage url (str "Page Not Found") (notFoundContent url) 0.

(** The pipeline from the downloaded markup to the page: title, cleaning,
    conversion, [cleanMarkdown].  [decorate] is put before the content. *)
Definition convertPage (env : Env) (htmlContent : HTMLContent)
    (pageUrl defaultTitle decorate : jsstring) : result ReadPageOutput :=
  match extractTitle env (html htmlContent) with
  | Throw e => Throw e
  | Ok found =>
      match cleanHTMLPreservingCodeBlocks env (html htmlContent) with
      | Throw e => Throw e
      | Ok cleanedHtml =>
          match htmlToMarkdownWithStats env cleanedHtml with
          | Throw e => Throw e
          | Ok (markdown, wordCount) =>
              Ok (mkPage pageUrl (orString found defaultTitle)
                         (decorate ++ Converter.cleanMarkdown markdown) wordCount)
          end
      end
  end.

(** The inner [try] of [handle404Fallback], entered when the first
    segment of the path is [reference]: the page made of the root
    reference page, or [None] when the request or the pipeline throws or
    the status is not 200. *)
Definition referenceFallback (env : Env) (url : jsstring) : option ReadPageOutput :=
  match downloadHTML env 1 fallbackUrl with
  | Throw _ => None
  | Ok htmlContent =>
      if (statusCode htmlContent =? 200)%Z
      then match convertPage env htmlContent fallbackUrl
                   (str "Tenable API Reference") (notFoundNote url) with
           | Ok page => Some page
           | Throw _ => None
           end
      else None
  end.

(** [pathParts[0] === 'reference'] *)
Definition underReference (urlObj : URL) : bool :=
  match filter (fun part => part ≠ []) (JS.splitChar "/" (pathname urlObj)) with
  | first :: _ => JS.eqb first (str "reference")
  | [] => false
  end.

(** [handle404Fallback]: the page, or [None] for [null], and the requests
    made. *)
Definition handle404Fallback (env : Env) (url : jsstring)
    : option ReadPageOutput * list Event :=
  match parseURL env url with
  | None => (None, [])
  | Some urlObj =>
      if underReference urlObj
      then (Some (default (notFoundPage url) (referenceFallback env url)),
            [Fetch fallbackUrl])
      else (Some (notFoundPage url), [])
  end.

(** [readPage]: the outcome, the page cache after the call and the
    requests made.  [nowGet] and [nowSet] are the instants of the cache
    lookup and of the cache update. *)
Definition readPage (env : Env) (pageCache : LRUCache ReadPageOutput)
    (nowGet nowSet : Z) (inputUrl : jsstring)
    : result ReadPageOutput * LRUCache ReadPageOutput * list Event :=
  match validateUrl (parseURL env) inputUrl with
  | Some e => (Throw (wrapReadError inputUrl e), pageCache, [])
  | None =>
      let url := JS.trim inputUrl in
      let cacheKey := Cache.createCacheKey url in
      let looked := Cache.get pageCache cacheKey nowGet in
      match fst looked with
      | Some cachedResult => (Ok cachedResult, snd looked, [])
      | None =>
          match downloadHTML env 0 url with
          | Throw e => (Throw (wrapReadError inputUrl e), snd looked, [Fetch url])
          | Ok htmlContent =>
              if (statusCode htmlContent =? 404)%Z then
                let fb := handle404Fallback env url in
                match fst fb with
                | Some fallback =>
                    (Ok fallback, Cache.set (snd looked) cacheKey fallback nowSet,
                     Fetch url :: snd fb)
                | None =>
                    (Throw (mkError NetworkError (str "Failed to download page: HTTP 404")),
                     snd looked, Fetch url :: snd fb)
                end
              else if (400 <=? statusCode htmlContent)%Z then
                (Throw (mkError NetworkError
                          (str "Failed to download page: HTTP "
                           ++ JS.numberToString (statusCode htmlContent))),
                 snd looked, [Fetch url])
              else
                match convertPage env htmlContent (responseUrl htmlContent)
                        (str "Untitled Document") [] with
                | Throw e => (Throw (wrapReadError inputUrl e), snd looked, [Fetch url])
                | Ok result =>
                    (Ok result, Cache.set (snd looked) cacheKey result nowSet,
                     [Fetch url])
                end
          end
      end
  end.

(** [readPageWithOptions]: the outcome and the requests made.  The
    option [timeout] goes to [downloadHTML], whose outcome is that of the
    environment; [maxContentLength] is [None] when the option is not
    given, and the value 0 is falsy.  The page cache is not used and a
    status of 404 has no fallback. *)
Definition readPageWithOptions (env : Env) (maxContentLength : option Z)
    (inputUrl : jsstring) : result ReadPageOutput * list Event :=
  match validateUrl (parseURL env) inputUrl with
  | Some e => (Throw (wrapReadError inputUrl e), [])
  | None =>
      let url := JS.trim inputUrl in
      match downloadHTML env 0 url with
      | Throw e => (Throw (wrapReadError inputUrl e), [Fetch url])
      | Ok htmlContent =>
          if (400 <=? statusCode htmlContent)%Z then
            (Throw (mkError NetworkError
                      (str "Failed to download page: HTTP "
                       ++ JS.numberToString (statusCode htmlContent))),
             [Fetch url])
          else
            let tooLong :=
              match maxContentLength with
              | None => false
              | Some limit =>
                  negb (limit =? 0)%Z && (limit <? Z.of_nat (length (html htmlContent)))%Z
              end in
            if tooLong then
              (Throw (mkError ScrapingError
                        (str "Page content exceeds maximum length of "
                         ++ JS.numberToString (default 0%Z maxContentLength)
                         ++ str " characters")),
               [Fetch url])
            else
              match convertPage env htmlContent (responseUrl htmlContent)
                      (str "Untitled Document") [] with
              | Throw e => (Throw (wrapReadError inputUrl e), [Fetch url])
              | Ok result => (Ok result, [Fetch url])
              end
      end
  end.

End ReadTool.

(* ===================================================================== *)
(** ** utils/indexer.ts: the index built from the documentation pages     *)
(* ===================================================================== *)

(** What [extractDocLinks] reads of one element of the selection
    [a[href]]: the attribute [href] (present, by the selector), the text
    of the link, the text of the closest heading around it, the text of
    the [p] that follows it when there is one, and the text of its
    parent. *)
Record Anchor := mkAnchor {
  href : jsstring;
  linkText : jsstring;
  headingText : jsstring;
  nextParagraph : option jsstring;
  parentText : jsstring;
}.

(** What the indexer takes from outside: the request of a page, the
    selection [a[href]] of the parsed markup (or the error of the
    parser), the URL parser.  [extractTitleFromUrl] is an argument too:
    the statements hold with any function in its place. *)
Record IndexEnv := mkIndexEnv {
  fetchPage : jsstring -> result HTMLContent;
  anchorsOf : jsstring -> result (list Anchor);
  parseLink : URLParser;
  extractTitleFromUrl : jsstring -> jsstring;
}.

Module IndexBuilder.
Import Indexer.

Definition MAIN_PAGES : list (jsstring * jsstring) :=
  [ (str "https://developer.tenable.com/reference", str "API References");
    (str "https://developer.tenable.com/recipes", str "Recipes") ].

Definition baseUrl : jsstring := str "https://developer.tenable.com".

(** The [fullUrl] of a link, or [None] for a relative link that does not
    start with a slash. *)
Definition fullUrlOf (href : jsstring) : option jsstring :=
  if JS.startsWith (str "http") href then Some href
  else if JS.startsWith (str "/") href then Some (baseUrl ++ href)
  else None.

(** The [description] of a link before its default is put in. *)
Definition describe (a : Anchor) : jsstring :=
  match nextParagraph a with
  | Some text => take 200 (JS.trim text)
  | None =>
      if 100 <? length (parentText a) then take 200 (JS.trim (parentText a))
      else []
  end.

(** The body of the [each] loop of [extractDocLinks]: the entry pushed
    for a link, or [None] when the loop body returns before. *)
Definition linkEntry (env : IndexEnv) (categoryName : jsstring) (a : Anchor)
    : option IndexedDoc :=
  let text := JS.trim (linkText a) in
  match href a, text with
  | [], _ => None
  | _, [] => None
  | _ :: _, _ :: _ =>
      match fullUrlOf (href a) with
      | None => None
      | Some fullUrl =>
          if negb (JS.includes (str "developer.tenable.com") fullUrl) then None
          else
            let title := orString (Some text) (JS.trim (headingText a)) in
            let urlKeywords := extractKeywordsFromUrl (parseLink env) fullUrl in
            let titleKeywords := extractKeywordsFromText title in
            Some (mkDoc fullUrl
                    (orString (Some title) (extractTitleFromUrl env fullUrl))
                    (orString (Some (describe a)) (str "Tenable documentation page"))
                    categoryName
                    (setOf (urlKeywords ++ titleKeywords)))
      end
  end.

(** [extractDocLinks]; an error of the parser is thrown on. *)
Definition extractDocLinks (env : IndexEnv) (html : jsstring) (categoryName : jsstring)
    : result (list IndexedDoc) :=
  match anchorsOf env html with
  | Throw e => Throw e
  | Ok anchors => Ok (omap (linkEntry env categoryName) anchors)
  end.

(** One turn of the loop of [buildIndex]: the entries that a page adds to
    [allEntries].  A request that fails, a status of 400 or more and an
    error in [extractDocLinks] add nothing. *)
Definition pageEntries (env : IndexEnv) (page : jsstring * jsstring) : list IndexedDoc :=
  match fetchPage env page.1 with
  | Throw _ => []
  | Ok htmlContent =>
      if (400 <=? statusCode htmlContent)%Z then []
      else
        match extractDocLinks env (html htmlContent) page.2 with
        | Throw _ => []
        | Ok found => found
        end
  end.

(** [buildIndex]: the index, and the requests made. *)
Definition buildIndex (env : IndexEnv) : SearchIndex * list Event :=
  (indexOf (uniqueByUrl (flat_map (pageEntries env) MAIN_PAGES)),
   map (fun page : jsstring * jsstring => Fetch page.1) MAIN_PAGES).

(** [initializeIndex]: the global [_searchIndex] after the call and the
    requests made.  [buildIndex] throws nothing, so the empty index of
    the [catch] is never used. *)
Definition initializeIndex (env : IndexEnv) (_searchIndex : option SearchIndex)
    : option SearchIndex * list Event :=
  match _searchIndex with
  | Some ix => (Some ix, [])
  | None => (Some (fst (buildIndex env)), snd (buildIndex env))
  end.

End IndexBuilder.

Module IndexBuilderExamples.

Definition referencePage : jsstring := str "https://developer.tenable.com/reference".
Definition scansUrl : jsstring := str "https://developer.tenable.com/reference/scans".

(** A link to a page of the site with a paragraph after it, a link
    inside the page and a link to another site. *)
Definition scansLink : Anchor :=
  mkAnchor (str "/reference/scans") (str " List Scans ") []
    (Some (str " Returns the scans. ")) (str "List Scans Returns the scans.").
Definition topLink : Anchor := mkAnchor (str "#top") (str "Top") [] None [].
Definition outsideLink : Anchor :=
  mkAnchor (str "https://example.com/docs") (str "Elsewhere") [] None [].

Definition parseScans : URLParser :=
  fun s =>
    if JS.eqb s scansUrl
    then Some (mkURL (str "https:") (str "developer.tenable.com") (str "/reference/scans"))
    else None.

(** A site whose reference page holds the three links and whose recipes
    page does not answer. *)
Definition referenceOnly : IndexEnv :=
  mkIndexEnv
    (fun u => if JS.eqb u referencePage then Ok (mkHTML (str "<a>") u 200)
              else Throw (mkError NetworkError (str "timeout")))
    (fun _ => Ok [scansLink; topLink; outsideLink])
    parseScans
    (fun _ => []).

(** A site that does not answer. *)
Definition unreachable : IndexEnv :=
  mkIndexEnv (fun _ => Throw (mkError NetworkError (str "timeout")))
    (fun _ => Ok []) (fun _ => None) (fun _ => []).

End IndexBuilderExamples.

(** *** Reference descriptions for the read tool *)
Module ReadSpec.

(** The host equals an allowed domain or is a subdomain of one. *)
Definition hostAllowed (host : jsstring) : Prop :=
  exists allowed, allowed ∈ ReadTool.ALLOWED_DOMAINS
    /\ (host = allowed \/ exists sub, host = sub ++ str "." ++ allowed).

(** The requests of a call that tried the root reference page right after
    the requested page. *)
Definition triesReferenceFirst (url : jsstring) (events : list Event) : Prop :=
  exists more, events = Fetch url :: Fetch ReadTool.fallbackUrl :: more.

(** The request for the root reference page, the second of the call,
    answers with the status 200, and the pipeline makes of its markup
    the title [found], if any, the Markdown [markdown] and the count
    [wordCount]. *)
Definition referenceConverts (env : Env) (found : option jsstring)
    (markdown : jsstring) (wordCount : nat) : Prop :=
  exists htmlContent cleanedHtml,
    downloadHTML env 1 ReadTool.fallbackUrl = Ok htmlContent
    /\ statusCode htmlContent = 200%Z
    /\ extractTitle env (html htmlContent) = Ok found
    /\ cleanHTMLPreservingCodeBlocks env (html htmlContent) = Ok cleanedHtml
    /\ htmlToMarkdownWithStats env cleanedHtml = Ok (markdown, wordCount).

(** The page that [handle404Fallback] makes of the root reference page
    for the requested [url]. *)
Definition referencePage (url : jsstring) (found : option jsstring)
    (markdown : jsstring) (wordCount : nat) : ReadPageOutput :=
  mkPage ReadTool.fallbackUrl (orString found (str "Tenable API Reference"))
         (ReadTool.notFoundNote url ++ Converter.cleanMarkdown markdown) wordCount.

End ReadSpec.

Module ReadExamples.

Definition recipePage : jsstring := str "https://developer.tenable.com/recipes/missing".
Definition scansPage : jsstring := str "https://developer.tenable.com/reference/scans-x".
Definition evilPage : jsstring := str "https://eviltenable.com/reference".

(** A parser stub for the URLs of the examples. *)
Definition parseExamples : URLParser :=
  fun s =>
    if JS.eqb s recipePage
    then Some (mkURL (str "https:") (str "developer.tenable.com") (str "/recipes/missing"))
    else if JS.eqb s scansPage
    then Some (mkURL (str "https:") (str "developer.tenable.com") (str "/reference/scans-x"))
    else if JS.eqb s evilPage
    then Some (mkURL (str "https:") (str "eviltenable.com") (str "/reference"))
    else None.

(** A site on which the root reference page exists and every other page
    is missing; the pipeline returns the markup as Markdown. *)
Definition missingPages : Env :=
  mkEnv parseExamples
    (fun _ u =>
       if JS.eqb u ReadTool.fallbackUrl
       then Ok (mkHTML (str "<h1>API</h1>") ReadTool.fallbackUrl 200)
       else Ok (mkHTML (str "not found") u 404))
    (fun _ => Ok (Some (str "API")))
    (fun h => Ok h)
    (fun h => Ok (h, 1)).

Definition emptyPageCache : LRUCache ReadPageOutput :=
  Cache.new (Some 100%Z) (Some (24 * 60 * 60 * 1000)%Z).

End ReadExamples.

(* ===================================================================== *)
(** ** utils/scraper.ts: code blocks kept through the cleaning            *)
(* ===================================================================== *)

(** A node of the document that the HTML parser builds.  A node that is
    no element (text, comment, doctype) is known by its serialization. *)
#[warnings="-register-all"]
Inductive Node :=
| Leaf (serialized : jsstring)
| Element (tag : jsstring) (attribs : list (jsstring * jsstring))
          (children : list Node).

(** What [scraper.ts] takes from the [cheerio] library: the parser
    ([load] gives the children of the document root), the markup of the
    start and end of an element in the serializer, and, built on its
    selector engine, [cleanHTML]. *)
Record Cheerio := mkCheerio {
  load : jsstring -> list Node;
  openTag : jsstring -> list (jsstring * jsstring) -> jsstring;
  closeTag : jsstring -> jsstring;
  cleanHTML : jsstring -> jsstring;
}.

Module Scraper.

(** [$.html(element)]: the markup of a node with its subtree. *)
Fixpoint outerHTML (ch : Cheerio) (n : Node) : jsstring :=
  match n with
  | Leaf s => s
  | Element tag attribs children =>
      openTag ch tag attribs ++ concat (map (outerHTML ch) children)
      ++ closeTag ch tag
  end.

(** [$.html()]: the markup of the document. *)
Definition serialize (ch : Cheerio) (doc : list Node) : jsstring :=
  concat (map (outerHTML ch) doc).

(** The first value of an attribute. *)
Fixpoint attr (name : jsstring) (attribs : list (jsstring * jsstring))
    : option jsstring :=
  match attribs with
  | [] => None
  | (k, v) :: rest => if JS.eqb k name then Some v else attr name rest
  end.

(** [[class*="marker"]] *)
Definition classContains (marker : jsstring) (attribs : list (jsstring * jsstring))
    : bool :=
  match attr (str "class") attribs with
  | Some v => JS.includes marker v
  | None => false
  end.

(** The selector [pre, code[class*="language-"], code[class*="hljs"]]. *)
Definition isCodeElement (tag : jsstring) (attribs : list (jsstring * jsstring))
    : bool :=
  JS.eqb tag (str "pre")
  || (JS.eqb tag (str "code")
      && (classContains (str "language-") attribs
          || classContains (str "hljs") attribs)).

(** The selection [codeElements] in a subtree, by the markup of each
    selected element: document order, an element inside a selected
    element included. *)
Fixpoint selected (ch : Cheerio) (n : Node) : list jsstring :=
  match n with
  | Leaf _ => []
  | Element tag attribs children =>
      (if isCodeElement tag attribs then [outerHTML ch n] else [])
      ++ concat (map (selected ch) children)
  end.

Definition selectedIn (ch : Cheerio) (doc : list Node) : list jsstring :=
  concat (map (selected ch) doc).

(** [`__CODE_BLOCK_${placeholderIndex}__`] *)
Definition placeholder (placeholderIndex : nat) : jsstring :=
  str "__CODE_BLOCK_" ++ JS.natToString placeholderIndex ++ str "__".

(** The document after the [each] loop.  The loop visits the selected
    elements in document order and replaces each by the text of its
    placeholder.  An element inside a selected element is visited after
    it, when it is no more part of the document: its replacement changes
    the detached subtree only.  So a selected element becomes the text of
    the placeholder whose index is the number of selected elements before
    it, and nothing is changed below it.  [index] is the index of the
    next placeholder. *)
Fixpoint replaceIn (ch : Cheerio) (index : nat) (n : Node) : Node :=
  match n with
  | Leaf s => Leaf s
  | Element tag attribs children =>
      if isCodeElement tag attribs then Leaf (placeholder index)
      else
        Element tag attribs
          ((fix replaceAll (index : nat) (ns : list Node) : list Node :=
              match ns with
              | [] => []
              | m :: ns' =>
                  replaceIn ch index m
                  :: replaceAll (index + length (selected ch m)) ns'
              end) index children)
  end.

Fixpoint replaceAll (ch : Cheerio) (index : nat) (ns : list Node) : list Node :=
  match ns with
  | [] => []
  | m :: ns' =>
      replaceIn ch index m :: replaceAll ch (index + length (selected ch m)) ns'
  end.

(** The [codeBlocks] map: a [Map] iterates in insertion order, so it is
    the list of its entries; the keys are pairwise different. *)
Definition codeBlocksOf (originals : list jsstring) : list (jsstring * jsstring) :=
  imap (fun i originalHtml => (placeholder i, originalHtml)) originals.

(** [preserveCodeBlocks]: [cleanedHtml] and [codeBlocks]. *)
Definition preserveCodeBlocks (ch : Cheerio) (html : jsstring)
    : jsstring * list (jsstring * jsstring) :=
  let doc := load ch html in
  (serialize ch (replaceAll ch 0 doc), codeBlocksOf (selectedIn ch doc)).

(** The first occurrence of [pattern] in [s]: what is before it and what
    is after it. *)
Fixpoint splitAtFirst (pattern s : jsstring) : option (jsstring * jsstring) :=
  if JS.startsWith pattern s then Some ([], drop (length pattern) s)
  else
    match s with
    | [] => None
    | c :: s' =>
        match splitAtFirst pattern s' with
        | Some (before, after) => Some (c :: before, after)
        | None => None
        end
    end.

(** The replacement text of [String.prototype.replace] with a string
    pattern (no capture): [$$] is a dollar, [$&] the match, [$`] the text
    before the match, [$'] the text after it; any other dollar stands for
    itself. *)
Fixpoint substitution (matched before after replacement : jsstring) : jsstring :=
  match replacement with
  | [] => []
  | c :: r =>
      if Ascii.eqb c "$" then
        match r with
        | [] => ["$"%char]
        | d :: r' =>
            if Ascii.eqb d "$" then "$"%char :: substitution matched before after r'
            else if Ascii.eqb d "&" then matched ++ substitution matched before after r'
            else if Ascii.eqb d JS.backtick
            then before ++ substitution matched before after r'
            else if Ascii.eqb d "'" then after ++ substitution matched before after r'
            else "$"%char :: substitution matched before after r
        end
      else c :: substitution matched before after r
  end.

(** [s.replace(pattern, replacement)] with two strings: the first
    occurrence only. *)
Definition replaceFirst (s pattern replacement : jsstring) : jsstring :=
  match splitAtFirst pattern s with
  | None => s
  | Some (before, after) =>
      before ++ substitution pattern before after replacement ++ after
  end.

(** [restoreCodeBlocks] *)
Definition restoreCodeBlocks (html : jsstring) (codeBlocks : list (jsstring * jsstring))
    : jsstring :=
  fold_left (fun restoredHtml entry => replaceFirst restoredHtml entry.1 entry.2)
            codeBlocks html.

(** [cleanHTMLPreservingCodeBlocks] with the default options. *)
Definition cleanHTMLPreservingCodeBlocks (ch : Cheerio) (html : jsstring) : jsstring :=
  let preserved := preserveCodeBlocks ch html in
  restoreCodeBlocks (cleanHTML ch (fst preserved)) (snd preserved).

End Scraper.

(** *** Reference descriptions for the code blocks *)
Module ScraperSpec.

(** A text with placeholders: [Plain s] is the text [s], [Hole s i rest]
    the text [s], the placeholder of index [i] and then [rest]. *)
Inductive Marked :=
| Plain (s : jsstring)
| Hole (s : jsstring) (i : nat) (rest : Marked).

(** The text with its placeholders. *)
Fixpoint withPlaceholders (m : Marked) : jsstring :=
  match m with
  | Plain s => s
  | Hole s i rest => s ++ Scraper.placeholder i ++ withPlaceholders rest
  end.

(** The text with the markup [original i] at the place of the
    placeholder of index [i]. *)
Fixpoint withOriginals (original : nat -> jsstring) (m : Marked) : jsstring :=
  match m with
  | Plain s => s
  | Hole s i rest => s ++ original i ++ withOriginals original rest
  end.

Fixpoint holes (m : Marked) : list nat :=
  match m with
  | Plain _ => []
  | Hole _ i rest => i :: holes rest
  end.

Definition prepend (s : jsstring) (m : Marked) : Marked :=
  match m with
  | Plain t => Plain (s ++ t)
  | Hole t i rest => Hole (s ++ t) i rest
  end.

(** The first placeholder of index [i] replaced by the text [o]. *)
Fixpoint fill (i : nat) (o : jsstring) (m : Marked) : Marked :=
  match m with
  | Plain s => Plain s
  | Hole s j rest =>
      if decide (j = i) then prepend (s ++ o) rest else Hole s j (fill i o rest)
  end.

(** What the first occurrence of the placeholder of index [i] splits the
    text into. *)
Fixpoint findHole (i : nat) (m : Marked) : option (jsstring * jsstring) :=
  match m with
  | Plain _ => None
  | Hole s j rest =>
      if decide (j = i) then Some (s, withPlaceholders rest)
      else
        match findHole i rest with
        | Some (before, after) => Some (s ++ Scraper.placeholder j ++ before, after)
        | None => None
        end
  end.

(** A text with placeholders followed by another. *)
Fixpoint append (m k : Marked) : Marked :=
  match m with
  | Plain s => prepend s k
  | Hole s i rest => Hole s i (append rest k)
  end.

(** The document after the [each] loop, as a text with placeholders. *)
Fixpoint markedNode (ch : Cheerio) (index : nat) (n : Node) : Marked :=
  match n with
  | Leaf s => Plain s
  | Element tag attribs children =>
      if Scraper.isCodeElement tag attribs then Hole [] index (Plain [])
      else
        prepend (openTag ch tag attribs)
          (append
             ((fix markedAll (index : nat) (ns : list Node) : Marked :=
                 match ns with
                 | [] => Plain []
                 | m :: ns' =>
                     append (markedNode ch index m)
                       (markedAll (index + length (Scraper.selected ch m)) ns')
                 end) index children)
             (Plain (closeTag ch tag)))
  end.

Fixpoint markedAll (ch : Cheerio) (index : nat) (ns : list Node) : Marked :=
  match ns with
  | [] => Plain []
  | m :: ns' =>
      append (markedNode ch index m)
        (markedAll ch (index + length (Scraper.selected ch m)) ns')
  end.

(** The markup recorded for the placeholder of index [i]. *)
Definition originalOf (originals : list jsstring) (i : nat) : jsstring :=
  default [] (originals !! i).

Fixpoint segments (m : Marked) : list jsstring :=
  match m with
  | Plain s => [s]
  | Hole s _ rest => s :: segments rest
  end.

(** [pattern] matches at none of the places of [pre] in [pre ++ post]. *)
Definition noMatch (pattern pre post : jsstring) : Prop :=
  forall k, k < length pre -> JS.startsWith pattern (drop k pre ++ post) = false.

(** A text is empty or starts with [start]. *)
Definition emptyOrStarts (start t : jsstring) : Prop :=
  t = [] \/ exists rest, t = start ++ rest.

(** The indices of the placeholders of a text are pairwise different and
    lie in the [len] indices from [k] on. *)
Definition holesWithin (k len : nat) (m : Marked) : Prop :=
  NoDup (holes m) /\ Forall (fun h => k <= h < k + len) (holes m).

(** The second unit of the patterns that [replace] reads in a
    replacement text when the pattern is a string: [$$], [$&], a dollar
    with a backtick and a dollar with a quote. *)
Definition isPatternUnit (d : ascii) : bool :=
  Ascii.eqb d "$" || Ascii.eqb d "&" || Ascii.eqb d JS.backtick || Ascii.eqb d "'".

(** A markup in which no dollar is followed by such a unit.  Any other
    dollar is allowed: before a letter, a digit or a brace, or at the
    end. *)
Fixpoint literalReplacement (o : jsstring) : bool :=
  match o with
  | [] => true
  | c :: r =>
      negb (Ascii.eqb c "$"
            && match r with
               | d :: _ => isPatternUnit d
               | [] => false
               end)
      && literalReplacement r
  end.

(** The text that every placeholder starts with, and its part without
    the underscores in front. *)
Definition placeholderStart : jsstring := str "__CODE_BLOCK_".
Definition placeholderCore : jsstring := str "CODE_BLOCK_".

End ScraperSpec.

Module ScraperExamples.

(** The serializer of elements that are not void: [<tag k="v">], [</tag>]. *)
Definition renderAttr (a : jsstring * jsstring) : jsstring :=
  str " " ++ a.1 ++ str "=" ++ [JS.quote] ++ a.2 ++ [JS.quote].

Definition simpleOpen (tag : jsstring) (attribs : list (jsstring * jsstring)) : jsstring :=
  str "<" ++ tag ++ concat (map renderAttr attribs) ++ str ">".

Definition simpleClose (tag : jsstring) : jsstring := str "</" ++ tag ++ str ">".

Definition inDocument (body : list Node) : list Node :=
  [Element (str "html") [] [Element (str "head") [] []; Element (str "body") [] body]].

Definition paragraph : jsstring := str "<p>hi</p>".
Definition shellDocument : jsstring :=
  str "<html><head></head><body><pre>echo $$</pre></body></html>".
Definition codeDocument : jsstring :=
  str "<html><head></head><body><p>x</p><pre><code class=" ++ [JS.quote]
  ++ str "language-js" ++ [JS.quote] ++ str ">a_b</code></pre><pre>c</pre></body></html>".

(** A document whose text holds the end of a placeholder. *)
Definition collisionDocument : jsstring :=
  str "<html><head></head><body><pre><code class=" ++ [JS.quote]
  ++ str "hljs" ++ [JS.quote]
  ++ str ">a</code></pre><pre>b</pre>CODE_BLOCK_1__</body></html>".

(** A parser stub for the inputs of the examples: a fragment is put in
    the body of a document. *)
Definition parseExamples (html : jsstring) : list Node :=
  if JS.eqb html paragraph
  then inDocument [Element (str "p") [] [Leaf (str "hi")]]
  else if JS.eqb html collisionDocument
  then inDocument
         [Element (str "pre") []
            [Element (str "code") [(str "class", str "hljs")] [Leaf (str "a")]];
          Element (str "pre") [] [Leaf (str "b")];
          Leaf (str "CODE_BLOCK_1__")]
  else if JS.eqb html shellDocument
  then inDocument [Element (str "pre") [] [Leaf (str "echo $$")]]
  else if JS.eqb html codeDocument
  then inDocument
         [Element (str "p") [] [Leaf (str "x")];
          Element (str "pre") []
            [Element (str "code") [(str "class", str "language-js")] [Leaf (str "a_b")]];
          Element (str "pre") [] [Leaf (str "c")]]
  else [].

(** The library with a cleaner that changes nothing. *)
Definition plainCheerio : Cheerio :=
  mkCheerio parseExamples simpleOpen simpleClose (fun markup => markup).

(** A shell example with dollars that are no pattern of [replace]: a
    variable, a positional parameter, a brace and a dollar at the end. *)
Definition variablesDocument : jsstring :=
  str "<html><head></head><body><pre>curl -H $KEYS $1 ${a} costs 5$</pre></body></html>".

Definition parseVariables (html : jsstring) : list Node :=
  if JS.eqb html variablesDocument
  then inDocument [Element (str "pre") [] [Leaf (str "curl -H $KEYS $1 ${a} costs 5$")]]
  else parseExamples html.

Definition variablesCheerio : Cheerio :=
  mkCheerio parseVariables simpleOpen simpleClose (fun markup => markup).

End ScraperExamples.

Module CacheExamples.

(** A cache for one entry, filled at the instants 0 and 1 with the empty
    key first. *)
Definition oneSlot : LRUCache nat :=
  Cache.setAll (Cache.new (Some 1%Z) None) [([], 7, 0%Z); (str "a", 8, 1%Z)].

(** A cache for two entries and an hour of life, filled with three keys. *)
Definition twoSlots : LRUCache nat :=
  Cache.setAll (Cache.new (Some 2%Z) (Some 3600000%Z))
    [(str "k1", 1, 0%Z); (str "k2", 2, 10%Z); (str "k3", 3, 20%Z)].

End CacheExamples.

(* ===================================================================== *)
(** * Properties                                                          *)
(* ===================================================================== *)

(** ** Code units and string primitives *)

Module JSFacts.
Import JS.

(** A statement about every code unit of the model is checked on the 256
    of them. *)
Ltac each_unit c := destruct c as [[] [] [] [] [] [] [] []]; vm_compute.

Lemma str_space : str " " = [" "%char].
Proof. reflexivity. Qed.

Lemma lower_keeps_space_class c : isWhiteSpace (toLowerCaseChar c) = isWhiteSpace c.
Proof. each_unit c; reflexivity. Qed.

Lemma lower_fixes_space c : isWhiteSpace c = true -> toLowerCaseChar c = c.
Proof. each_unit c; intros H; first [reflexivity | discriminate H]. Qed.

Lemma lower_idempotent c : toLowerCaseChar (toLowerCaseChar c) = toLowerCaseChar c.
Proof. each_unit c; reflexivity. Qed.

Lemma space_is_white c : Ascii.eqb c " " = true -> isWhiteSpace c = true.
Proof. intros H. apply Ascii.eqb_eq in H. subst c. reflexivity. Qed.

Lemma startsWith_app p s : startsWith p (p ++ s) = true.
Proof.
  induction p as [|a p IH]; simpl; [reflexivity|].
  rewrite Ascii.eqb_refl. exact IH.
Qed.

Lemma startsWith_spec p s : startsWith p s = true <-> exists t, s = p ++ t.
Proof.
  revert s. induction p as [|a p IH]; intros s; simpl.
  - split; [intros _; exists s; reflexivity | reflexivity].
  - destruct s as [|b s]; simpl.
    + split; [discriminate | intros [t Ht]; discriminate Ht].
    + rewrite andb_true_iff, Ascii.eqb_eq, IH. split.
      * intros [-> [t ->]]. exists t. reflexivity.
      * intros [t Ht]. injection Ht as -> ->. split; [reflexivity | exists t; reflexivity].
Qed.

Lemma includes_spec p s : includes p s = true <-> exists a b, s = a ++ p ++ b.
Proof.
  induction s as [|c s IH]; simpl.
  - rewrite orb_false_r, startsWith_spec. split.
    + intros [t Ht]. exists [], t. exact Ht.
    + intros [a [b H]]. destruct a; [exists b; exact H | discriminate H].
  - rewrite orb_true_iff, startsWith_spec, IH. split.
    + intros [[t Ht] | [a [b Hab]]].
      * exists [], t. exact Ht.
      * exists (c :: a), b. rewrite Hab. reflexivity.
    + intros [a [b H]]. destruct a as [|c' a].
      * left. exists b. exact H.
      * right. injection H as -> ->. exists a, b. reflexivity.
Qed.

(** [trimStart] removes a prefix of white space. *)
Lemma trimStart_split s :
  exists u, s = u ++ trimStart s /\ Forall (fun c => isWhiteSpace c = true) u.
Proof.
  induction s as [|c s [u [Hs Hu]]]; simpl.
  - exists []. split; [reflexivity | constructor].
  - destruct (isWhiteSpace c) eqn:Hc.
    + exists (c :: u). split; [simpl; congruence | constructor; assumption].
    + exists []. split; [reflexivity | constructor].
Qed.

(** [trimEnd] removes a suffix of white space. *)
Lemma trimEnd_split s :
  exists u, s = trimEnd s ++ u /\ Forall (fun c => isWhiteSpace c = true) u.
Proof.
  unfold trimEnd. destruct (trimStart_split (rev s)) as [u [Hs Hu]].
  exists (rev u). split.
  - rewrite <- rev_app_distr, <- Hs, rev_involutive. reflexivity.
  - apply Forall_rev. exact Hu.
Qed.

Lemma trim_Forall (P : ascii -> Prop) s : Forall P s -> Forall P (trim s).
Proof.
  intros H. unfold trim.
  destruct (trimStart_split s) as [u [Hs _]].
  destruct (trimEnd_split (trimStart s)) as [v [Ht _]].
  rewrite Hs, Ht in H.
  apply Forall_app in H as [_ H]. apply Forall_app in H as [H _]. exact H.
Qed.

Lemma trimStart_first s c s' :
  trimStart s = c :: s' -> isWhiteSpace c = false.
Proof.
  induction s as [|a s IH]; simpl; [discriminate|].
  destruct (isWhiteSpace a) eqn:Ha; [exact IH|].
  intros H. injection H as -> _. exact Ha.
Qed.

End JSFacts.

(** ** Keyword extraction *)

Module KeywordFacts.
Import JS JSFacts Indexer IndexerSpec.

Abbreviation nonEmpty := (fun w : jsstring => w ≠ []).

Lemma consWord_filter w (l : list jsstring) :
  filter nonEmpty (w :: l) = consWord w (filter nonEmpty l).
Proof.
  destruct w as [|c w]; simpl.
  - rewrite filter_cons_False; [reflexivity | intros H; apply H; reflexivity].
  - rewrite filter_cons_True; [reflexivity | discriminate].
Qed.

Lemma words_cons_white c s : isWhiteSpace c = true -> words (c :: s) = words s.
Proof. intros Hc. unfold words. simpl. rewrite Hc. reflexivity. Qed.

Lemma words_cons_black c s :
  isWhiteSpace c = false ->
  words (c :: s) = (c :: fst (wordsAux s)) :: snd (wordsAux s).
Proof. intros Hc. unfold words. simpl. rewrite Hc. reflexivity. Qed.

(** [split(/\s+/)] yields the words, an empty first piece when the string
    starts with white space and an empty last piece when it ends with it. *)
Lemma splitWsFrom_words s :
  filter nonEmpty (splitWsFrom true s) = words s /\
  exists t, splitWsFrom false s = fst (wordsAux s) :: t
            /\ filter nonEmpty t = snd (wordsAux s).
Proof.
  induction s as [|c s [IH1 [t [IH2 IH3]]]].
  - split; [reflexivity | exists []; split; reflexivity].
  - destruct (isWhiteSpace c) eqn:Hc.
    + split.
      * simpl. rewrite Hc, (words_cons_white _ _ Hc). exact IH1.
      * exists (splitWsFrom true s). simpl. rewrite Hc. simpl.
        split; [reflexivity | exact IH1].
    + split.
      * simpl. rewrite Hc, IH2. simpl. rewrite (words_cons_black _ _ Hc).
        rewrite filter_cons_True by discriminate. rewrite IH3. reflexivity.
      * exists t. simpl. rewrite Hc, IH2. simpl. split; [reflexivity | exact IH3].
Qed.

Lemma splitWs_words s : filter nonEmpty (splitWs s) = words s.
Proof.
  destruct (splitWsFrom_words s) as [_ [t [H1 H2]]].
  unfold splitWs, words. rewrite H1, consWord_filter, H2. reflexivity.
Qed.

(** [split(' ')] yields the words and empty pieces when the space is the
    only white space of the string. *)
Lemma splitChar_wordsAux s :
  Forall (fun c => isWhiteSpace c = true -> c = " "%char) s ->
  exists t, splitChar " " s = fst (wordsAux s) :: t
            /\ filter nonEmpty t = snd (wordsAux s).
Proof.
  induction s as [|c s IH]; intros H.
  - exists []. split; reflexivity.
  - apply Forall_cons in H as [Hc Hs].
    destruct (IH Hs) as [t [IH1 IH2]]. simpl.
    destruct (Ascii.eqb c " ") eqn:Hsp.
    + rewrite (space_is_white _ Hsp). simpl.
      exists (fst (wordsAux s) :: t). split; [congruence|].
      rewrite consWord_filter, IH2. reflexivity.
    + assert (isWhiteSpace c = false) as Hw.
      { destruct (isWhiteSpace c); [|reflexivity].
        rewrite (Hc eq_refl) in Hsp. discriminate Hsp. }
      rewrite Hw, IH1. simpl. exists t. split; [reflexivity | exact IH2].
Qed.

Lemma splitChar_words s :
  Forall (fun c => isWhiteSpace c = true -> c = " "%char) s ->
  filter nonEmpty (splitChar " " s) = words s.
Proof.
  intros H. destruct (splitChar_wordsAux s H) as [t [H1 H2]].
  unfold words. rewrite H1, consWord_filter, H2. reflexivity.
Qed.

Lemma wordsAux_white s :
  Forall (fun c => isWhiteSpace c = true) s -> wordsAux s = ([], []).
Proof.
  induction 1 as [|c s Hc _ IH]; simpl; [reflexivity|].
  rewrite Hc, IH. reflexivity.
Qed.

Lemma wordsAux_app_white s u :
  Forall (fun c => isWhiteSpace c = true) u -> wordsAux (s ++ u) = wordsAux s.
Proof.
  intros Hu. induction s as [|c s IH]; simpl.
  - exact (wordsAux_white u Hu).
  - rewrite IH. reflexivity.
Qed.

Lemma words_white_app u s :
  Forall (fun c => isWhiteSpace c = true) u -> words (u ++ s) = words s.
Proof.
  induction 1 as [|c u Hc _ IH]; simpl; [reflexivity|].
  rewrite (words_cons_white _ _ Hc). exact IH.
Qed.

Lemma words_trim s : words (trim s) = words s.
Proof.
  unfold trim.
  destruct (trimStart_split s) as [u [Hs Hu]].
  destruct (trimEnd_split (trimStart s)) as [v [Ht Hv]].
  rewrite Hs at 2. rewrite (words_white_app _ _ Hu).
  rewrite Ht at 2. unfold words. rewrite (wordsAux_app_white _ _ Hv). reflexivity.
Qed.

(** A map that respects the white-space class maps the words. *)
Lemma wordsAux_map (g : ascii -> ascii) s :
  (forall c, isWhiteSpace (g c) = isWhiteSpace c) ->
  wordsAux (map g s) = (map g (fst (wordsAux s)), map (map g) (snd (wordsAux s))).
Proof.
  intros Hg. induction s as [|c s IH]; simpl; [reflexivity|].
  rewrite Hg, IH. simpl. destruct (isWhiteSpace c); [|reflexivity].
  destruct (fst (wordsAux s)); reflexivity.
Qed.

Lemma words_map (g : ascii -> ascii) s :
  (forall c, isWhiteSpace (g c) = isWhiteSpace c) ->
  words (map g s) = map (map g) (words s).
Proof.
  intros Hg. unfold words. rewrite (wordsAux_map g s Hg). simpl.
  destruct (fst (wordsAux s)); reflexivity.
Qed.

(** A map that only changes white space into white space keeps the words. *)
Lemma wordsAux_map_white (g : ascii -> ascii) s :
  (forall c, isWhiteSpace c = true -> isWhiteSpace (g c) = true) ->
  (forall c, isWhiteSpace c = false -> g c = c) ->
  wordsAux (map g s) = wordsAux s.
Proof.
  intros H1 H2. induction s as [|c s IH]; simpl; [reflexivity|].
  destruct (isWhiteSpace c) eqn:Hc.
  - rewrite (H1 c Hc), IH. reflexivity.
  - rewrite (H2 c Hc), Hc, IH. reflexivity.
Qed.

(** Replacing each run of a class by one space gives the words of the
    string in which each unit of the class is a space. *)
Lemma replaceRunsFrom_words (X : ascii -> bool) s :
  let f := fun c => if X c then " "%char else c in
  wordsAux (replaceRunsFrom X [" "%char] false s) = wordsAux (map f s) /\
  words (replaceRunsFrom X [" "%char] true s) = words (map f s).
Proof.
  intros f. induction s as [|c s [IH1 IH2]]; [split; reflexivity|].
  assert (forall t, wordsAux (" "%char :: t) = ([], words t)) as Hsp by reflexivity.
  cbn [replaceRunsFrom map app]. destruct (X c) eqn:Hc.
  - assert (f c = " "%char) as -> by (unfold f; rewrite Hc; reflexivity).
    rewrite !Hsp, IH2. split; [reflexivity|].
    rewrite words_cons_white by reflexivity. reflexivity.
  - assert (f c = c) as -> by (unfold f; rewrite Hc; reflexivity).
    split.
    + simpl. rewrite IH1. reflexivity.
    + unfold words. simpl. rewrite IH1. reflexivity.
Qed.

Lemma replaceRuns_words (X : ascii -> bool) s :
  words (replaceRuns X (str " ") s)
  = words (map (fun c => if X c then " "%char else c) s).
Proof.
  unfold replaceRuns, words. rewrite str_space.
  destruct (replaceRunsFrom_words X s) as [H _]. rewrite H. reflexivity.
Qed.

Lemma replaceRunsFrom_map (X : ascii -> bool) (g : ascii -> ascii) r b s :
  (forall c, X (g c) = X c) ->
  map g (replaceRunsFrom X r b s) = replaceRunsFrom X (map g r) b (map g s).
Proof.
  intros Hg. revert b. induction s as [|c s IH]; intros b; simpl; [reflexivity|].
  rewrite Hg. destruct (X c).
  - destruct b; [apply IH|]. rewrite map_app, IH. reflexivity.
  - simpl. rewrite IH. reflexivity.
Qed.

Lemma replaceRunsFrom_only_space b s :
  Forall (fun c => isWhiteSpace c = true -> c = " "%char)
         (replaceRunsFrom isWhiteSpace (str " ") b s).
Proof.
  rewrite str_space.
  revert b. induction s as [|c s IH]; intros b; simpl; [constructor|].
  destruct (isWhiteSpace c) eqn:Hc.
  - destruct b; [apply IH|].
    constructor; [reflexivity | apply IH].
  - constructor; [congruence | apply IH].
Qed.

(** The words of the [path] of [extractKeywordsFromUrl]. *)
Lemma urlPathWords_words p : words (urlPathWords p) = words (separatorsToSpaces p).
Proof.
  unfold urlPathWords. rewrite words_trim, replaceRuns_words.
  unfold words at 1. rewrite wordsAux_map_white; cycle 1.
  { intros c Hc. rewrite Hc. reflexivity. }
  { intros c Hc. rewrite Hc. reflexivity. }
  fold (words (replaceChar "_" " " (replaceChar "-" " "
          (replaceRuns (fun c => Ascii.eqb c "/") (str " ") p)))).
  unfold replaceChar, replaceRuns.
  rewrite !replaceRunsFrom_map; cycle 1.
  { intros c. each_unit c; reflexivity. }
  { intros c. each_unit c; reflexivity. }
  change (map _ (map _ (str " "))) with (str " ").
  pose proof (replaceRuns_words (fun c => Ascii.eqb c "/")) as H.
  unfold replaceRuns in H. rewrite H. rewrite !map_map.
  unfold separatorsToSpaces. f_equal. apply map_ext.
  intros c. each_unit c; reflexivity.
Qed.

Lemma urlPathWords_only_space p :
  Forall (fun c => isWhiteSpace c = true -> c = " "%char)
         (toLowerCase (urlPathWords p)).
Proof.
  unfold toLowerCase. apply Forall_map.
  unfold urlPathWords. apply trim_Forall.
  eapply Forall_impl; [apply replaceRunsFrom_only_space|].
  intros c Hc Hl. simpl in Hl. rewrite lower_keeps_space_class in Hl.
  rewrite (Hc Hl). reflexivity.
Qed.

Lemma filter_long_nonEmpty (l : list jsstring) :
  filter (fun word => 2 < length word) (filter nonEmpty l)
  = filter (fun word => 2 < length word) l.
Proof.
  rewrite list_filter_filter. apply list_filter_iff.
  intros w. split; [tauto|]. intros H. split; [exact H|].
  destruct w; [simpl in H; lia | discriminate].
Qed.

(** The URL variant in closed form. *)
Lemma extractKeywordsFromUrl_closed parse u :
  extractKeywordsFromUrl parse u
  = match parse u with
    | None => []
    | Some urlObj => pathKeywords (pathname urlObj)
    end.
Proof.
  unfold extractKeywordsFromUrl, pathKeywords.
  destruct (parse u) as [urlObj|]; [|reflexivity].
  set (p := pathname urlObj).
  rewrite <- (filter_long_nonEmpty (splitWs _)), splitWs_words.
  unfold toLowerCase at 1. rewrite (words_map _ _ lower_keeps_space_class).
  rewrite <- urlPathWords_words.
  rewrite <- (words_map _ _ lower_keeps_space_class).
  fold (toLowerCase (urlPathWords p)).
  rewrite <- (splitChar_words _ (urlPathWords_only_space p)).
  rewrite filter_long_nonEmpty.
  destruct (urlPathWords p); reflexivity.
Qed.

(** The pieces of [split(/\s+/)] are made of the units of the string that
    are not white space. *)
Lemma splitWsFrom_units (P : ascii -> Prop) b s :
  Forall P s ->
  Forall (Forall (fun c => P c /\ isWhiteSpace c = false)) (splitWsFrom b s).
Proof.
  intros H. revert b. induction H as [|c s Hc _ IH]; intros b; simpl.
  - repeat constructor.
  - destruct (isWhiteSpace c) eqn:Hw.
    + destruct b; [apply IH|]. constructor; [constructor | apply IH].
    + specialize (IH false). destruct (splitWsFrom false s) as [|w t]; simpl.
      * repeat constructor; assumption.
      * apply Forall_cons in IH as [Hw' Ht].
        constructor; [|exact Ht]. constructor; [split; assumption | exact Hw'].
Qed.

Lemma keyword_unit c :
  keptByStrip (toLowerCaseChar c) = true ->
  isWhiteSpace (toLowerCaseChar c) = false ->
  isKeywordUnit (toLowerCaseChar c) = true.
Proof. each_unit c; intros H1 H2; first [reflexivity | discriminate]. Qed.

Lemma keepWord_spec w : keepWord w = true <-> 2 < length w /\ w ∉ stopWords.
Proof.
  unfold keepWord. rewrite andb_true_iff, Nat.ltb_lt, negb_true_iff.
  rewrite bool_decide_eq_false. reflexivity.
Qed.

Lemma extractKeywordsFromText_sound text w :
  w ∈ extractKeywordsFromText text ->
  2 < length w /\ (w ∉ stopWords) /\ Forall (fun c => isKeywordUnit c = true) w.
Proof.
  unfold extractKeywordsFromText. intros H.
  apply list_elem_of_filter in H as [Hk Hw].
  apply keepWord_spec in Hk as [Hlen Hstop].
  split; [exact Hlen|]. split; [exact Hstop|].
  assert (Forall (fun c => keptByStrip c = true /\ exists c', c = toLowerCaseChar c')
            (filter (fun c => keptByStrip c = true) (toLowerCase text))) as HF.
  { apply Forall_forall. intros c Hc. apply list_elem_of_filter in Hc as [Hc1 Hc2].
    split; [exact Hc1|]. unfold toLowerCase in Hc2.
    apply list_elem_of_fmap in Hc2 as [c' [-> _]]. exists c'. reflexivity. }
  apply (splitWsFrom_units _ false) in HF.
  rewrite Forall_forall in HF. specialize (HF w Hw).
  eapply Forall_impl; [exact HF|].
  intros c [[Hc1 [c' ->]] Hc2]. apply keyword_unit; assumption.
Qed.

Lemma extractKeywordsFromText_closed text :
  extractKeywordsFromText text
  = filter (fun w => 2 < length w /\ w ∉ stopWords)
      (words (filter (fun c => keptByStrip c = true) (toLowerCase text))).
Proof.
  unfold extractKeywordsFromText.
  rewrite <- splitWs_words, list_filter_filter.
  apply list_filter_iff. intros w. rewrite keepWord_spec.
  split; [|tauto]. intros [H1 H2]. split; [tauto|].
  destruct w; [simpl in H1; lia | discriminate].
Qed.

End KeywordFacts.

(** ** The inverted index and the ranking *)

Module SearchFacts.
Import JS Indexer IndexerSpec.

(** Number of occurrences of a position in a hit sequence. *)
Abbreviation hitsOf i H := (length (filter (fun j : nat => j = i) H)).

Lemma bump_score s : (if s =? 0 then 0 else s) + 1 = s + 1.
Proof. destruct (Nat.eqb_spec s 0); lia. Qed.

(** *** Posting lists *)

Lemma addPosting_fold_lookup (i : nat) (kws : list jsstring) (m : gmap jsstring (list nat)) (t : jsstring) :
  default [] (fold_left (addPosting i) kws m !! t)
  = default [] (m !! t) ++ map (fun _ => i) (filter (fun k => k = t) kws).
Proof.
  revert m. induction kws as [|k kws IH]; intros m; simpl.
  - rewrite app_nil_r. reflexivity.
  - rewrite IH. unfold addPosting.
    destruct (decide (k = t)) as [->|Hne].
    + rewrite lookup_insert_eq, filter_cons_True by reflexivity.
      simpl. rewrite <- app_assoc. reflexivity.
    + rewrite lookup_insert_ne, filter_cons_False by assumption. reflexivity.
Qed.

Lemma buildKeywordMapFrom_lookup (off : nat) (es : list IndexedDoc) (m : gmap jsstring (list nat)) (t : jsstring) :
  default [] (buildKeywordMapFrom off es m !! t)
  = default [] (m !! t)
    ++ mjoin (imap (fun i e => map (fun _ => off + i)
                                 (filter (fun k => k = t) (keywords e))) es).
Proof.
  revert off m. induction es as [|e es IH]; intros off m; simpl.
  - rewrite app_nil_r. reflexivity.
  - rewrite IH, addPosting_fold_lookup, <- app_assoc, Nat.add_0_r.
    do 3 f_equal. apply imap_ext. intros i e' _. simpl.
    apply map_ext. intros _. lia.
Qed.

Lemma buildKeywordMap_lookup (es : list IndexedDoc) (t : jsstring) :
  default [] (buildKeywordMap es !! t) = postingsOf es t.
Proof.
  unfold buildKeywordMap. rewrite buildKeywordMapFrom_lookup, lookup_empty.
  reflexivity.
Qed.

(** *** The score accumulator *)

Lemma accumulate_fold (km : gmap jsstring (list nat)) (kws : list jsstring) :
  accumulate km kws
  = fold_left (fun sc index => bump index sc)
      (mjoin (map (fun t => default [] (km !! t)) kws)) [].
Proof.
  unfold accumulate. generalize (@nil (nat * nat)) as sc.
  induction kws as [|t kws IH]; intros sc; simpl; [reflexivity|].
  rewrite fold_left_app, IH. destruct (km !! t); reflexivity.
Qed.

Lemma firstOccurrences_elem (x : nat) (l : list nat) : x ∈ firstOccurrences l <-> x ∈ l.
Proof.
  induction l as [|a l IH]; simpl; [reflexivity|].
  rewrite !elem_of_cons, list_elem_of_filter, IH.
  destruct (decide (x = a)); tauto.
Qed.

Lemma firstOccurrences_NoDup (l : list nat) : NoDup (firstOccurrences l).
Proof.
  induction l as [|a l IH]; simpl; [constructor|].
  constructor.
  - rewrite list_elem_of_filter. intros [H _]. apply H. reflexivity.
  - apply NoDup_filter. exact IH.
Qed.

Lemma firstOccurrences_snoc (l : list nat) (x : nat) :
  firstOccurrences (l ++ [x])
  = if decide (x ∈ l) then firstOccurrences l else firstOccurrences l ++ [x].
Proof.
  induction l as [|a l IH]; simpl.
  - destruct (decide (x ∈ [])) as [H|_]; [inversion H | reflexivity].
  - rewrite IH.
    destruct (decide (x ∈ a :: l)) as [H1|H1], (decide (x ∈ l)) as [H2|H2].
    + reflexivity.
    + apply elem_of_cons in H1 as [->|H1]; [|contradiction].
      rewrite filter_app, filter_cons_False, filter_nil, app_nil_r; [reflexivity|].
      intros H. apply H. reflexivity.
    + exfalso. apply H1. right. exact H2.
    + rewrite filter_app, filter_cons_True, filter_nil; [reflexivity|].
      intros ->. apply H1. left.
Qed.

Lemma bump_map (x : nat) (g : nat -> nat) (K : list nat) :
  NoDup K ->
  bump x (map (fun i => (i, g i)) K)
  = if decide (x ∈ K)
    then map (fun i => (i, if decide (i = x) then g i + 1 else g i)) K
    else map (fun i => (i, g i)) K ++ [(x, 1)].
Proof.
  induction 1 as [|k K Hk HK IH]; simpl.
  - destruct (decide (x ∈ [])) as [H|_]; [inversion H | reflexivity].
  - rewrite bump_score, IH.
    destruct (Nat.eqb_spec k x) as [->|Hne].
    + destruct (decide (x ∈ x :: K)) as [_|H1]; [|exfalso; apply H1; left].
      destruct (decide (x = x)) as [_|H2]; [|exfalso; apply H2; reflexivity].
      f_equal. apply map_ext_in. intros i Hi.
      destruct (decide (i = x)) as [->|_]; [|reflexivity].
      exfalso. apply Hk. apply list_elem_of_In. exact Hi.
    + destruct (decide (k = x)) as [H2|_]; [contradiction|].
      destruct (decide (x ∈ k :: K)) as [H1|H1], (decide (x ∈ K)) as [H3|H3].
      * reflexivity.
      * apply elem_of_cons in H1 as [->|H1]; [exfalso; apply Hne; reflexivity | contradiction].
      * exfalso. apply H1. right. exact H3.
      * reflexivity.
Qed.

Lemma hitsOf_snoc (i : nat) (H : list nat) (x : nat) :
  hitsOf i (H ++ [x]) = if decide (x = i) then hitsOf i H + 1 else hitsOf i H.
Proof.
  rewrite filter_app, length_app.
  destruct (decide (x = i)) as [Hx|Hx].
  - rewrite filter_cons_True by exact Hx. reflexivity.
  - rewrite filter_cons_False by exact Hx. simpl. lia.
Qed.

Lemma hitsOf_absent (i : nat) (H : list nat) : i ∉ H -> hitsOf i H = 0.
Proof.
  intros Hi. induction H as [|a H IH]; [reflexivity|].
  rewrite not_elem_of_cons in Hi. destruct Hi as [Hne Hi].
  rewrite filter_cons_False by (intros ->; apply Hne; reflexivity).
  exact (IH Hi).
Qed.

Lemma hitsOf_present (i : nat) (H : list nat) : i ∈ H -> 0 < hitsOf i H.
Proof.
  induction H as [|a H IH]; intros Hi; [inversion Hi|].
  destruct (decide (a = i)) as [Ha|Ha].
  - rewrite filter_cons_True by exact Ha. simpl. lia.
  - rewrite filter_cons_False by exact Ha. apply IH.
    apply elem_of_cons in Hi as [->|Hi]; [exfalso; apply Ha; reflexivity | exact Hi].
Qed.

(** The accumulator lists the positions in the order of their first hit,
    each with its number of hits. *)
Lemma tally (H : list nat) :
  fold_left (fun sc index => bump index sc) H []
  = map (fun i => (i, hitsOf i H)) (firstOccurrences H).
Proof.
  induction H as [|x H IH] using rev_ind; [reflexivity|].
  rewrite fold_left_app. simpl. rewrite IH.
  rewrite (bump_map _ _ _ (firstOccurrences_NoDup H)), firstOccurrences_snoc.
  destruct (decide (x ∈ H)) as [Hin|Hnin].
  - rewrite decide_True by (apply firstOccurrences_elem; exact Hin).
    apply map_ext. intros i. rewrite hitsOf_snoc.
    destruct (decide (i = x)) as [->|Hne].
    + rewrite decide_True by reflexivity. reflexivity.
    + rewrite decide_False by (intros ->; apply Hne; reflexivity). reflexivity.
  - rewrite decide_False by (rewrite firstOccurrences_elem; exact Hnin).
    rewrite map_app. simpl. rewrite hitsOf_snoc, decide_True by reflexivity.
    rewrite (hitsOf_absent _ _ Hnin). f_equal.
    apply map_ext_in. intros i Hi. rewrite hitsOf_snoc, decide_False; [reflexivity|].
    intros ->. apply Hnin. apply firstOccurrences_elem, list_elem_of_In. exact Hi.
Qed.

(** *** Hits and keywords *)

Lemma hitsOf_join (i : nat) (Hs : list (list nat)) :
  hitsOf i (mjoin Hs) = sum_list (map (fun H => hitsOf i H) Hs).
Proof.
  induction Hs as [|H Hs IH]; simpl; [reflexivity|].
  rewrite filter_app, length_app, IH. reflexivity.
Qed.

Lemma hitsOf_constant (i j : nat) (l : list jsstring) :
  hitsOf i (map (fun _ => j) l) = if decide (j = i) then length l else 0.
Proof.
  induction l as [|a l IH]; simpl; [destruct (decide (j = i)); reflexivity|].
  destruct (decide (j = i)) as [Hj|Hj].
  - rewrite filter_cons_True by exact Hj. simpl. rewrite IH. reflexivity.
  - rewrite filter_cons_False by exact Hj. exact IH.
Qed.

Lemma hitsOf_postingsFrom (off : nat) (es : list IndexedDoc) (t : jsstring) (i : nat) :
  hitsOf i (mjoin (imap (fun j e => map (fun _ => off + j)
                                      (filter (fun k => k = t) (keywords e))) es))
  = if decide (off <= i)
    then from_option (fun e => length (filter (fun k => k = t) (keywords e))) 0
                     (es !! (i - off))
    else 0.
Proof.
  revert off. induction es as [|e es IH]; intros off; simpl.
  - destruct (decide (off <= i)); reflexivity.
  - rewrite filter_app, length_app, hitsOf_constant.
    rewrite (imap_ext _ (fun j e' => map (fun _ => S off + j)
                           (filter (fun k => k = t) (keywords e')))); cycle 1.
    { intros j e' _. simpl. apply map_ext. intros _. lia. }
    rewrite IH.
    destruct (decide (off + 0 = i)) as [Hi|Hi], (decide (S off <= i)) as [H1|H1],
      (decide (off <= i)) as [H2|H2]; try lia.
    + replace (i - off) with 0 by lia. simpl. lia.
    + replace (i - off) with (S (i - S off)) by lia. reflexivity.
Qed.

Lemma hitsOf_postings (es : list IndexedDoc) (t : jsstring) (i : nat) :
  hitsOf i (postingsOf es t)
  = from_option (fun e => length (filter (fun k => k = t) (keywords e))) 0 (es !! i).
Proof.
  unfold postingsOf.
  pose proof (hitsOf_postingsFrom 0 es t i) as H.
  destruct (decide (0 <= i)) as [_|Hi]; [|lia].
  rewrite Nat.sub_0_r in H. exact H.
Qed.

Lemma hitsOf_hitSequence (es : list IndexedDoc) (kws : list jsstring) (i : nat) :
  hitsOf i (hitSequence es kws) = from_option (termOverlap kws) 0 (es !! i).
Proof.
  unfold hitSequence. rewrite hitsOf_join, map_map.
  unfold termOverlap. destruct (es !! i) as [e|] eqn:He; simpl.
  - f_equal. apply map_ext. intros t. rewrite hitsOf_postings, He. reflexivity.
  - induction kws as [|t kws IH]; simpl; [reflexivity|].
    rewrite hitsOf_postings, He, IH. reflexivity.
Qed.

Lemma accumulate_closed (es : list IndexedDoc) (kws : list jsstring) :
  accumulate (buildKeywordMap es) kws
  = map (fun i => (i, from_option (termOverlap kws) 0 (es !! i)))
        (firstOccurrences (hitSequence es kws)).
Proof.
  rewrite accumulate_fold.
  rewrite (map_ext _ (postingsOf es)) by (intros t; apply buildKeywordMap_lookup).
  fold (hitSequence es kws). rewrite tally.
  apply map_ext. intros i. rewrite hitsOf_hitSequence. reflexivity.
Qed.

(** *** The stable sort *)

Lemma insertByScore_perm (x : nat * nat) (l : list (nat * nat)) : Permutation (x :: l) (insertByScore x l).
Proof.
  induction l as [|y l IH]; simpl; [reflexivity|].
  destruct (snd x <? snd y); [|reflexivity].
  rewrite perm_swap. apply perm_skip. exact IH.
Qed.

Lemma sortByScore_perm (l : list (nat * nat)) : Permutation l (sortByScore l).
Proof.
  induction l as [|x l IH]; simpl; [reflexivity|].
  rewrite <- insertByScore_perm. apply perm_skip. exact IH.
Qed.

Lemma insertByScore_sorted (x : nat * nat) (l : list (nat * nat)) :
  StronglySorted descending l -> StronglySorted descending (insertByScore x l).
Proof.
  induction 1 as [|y l Hl IH Hy]; simpl.
  - repeat constructor.
  - destruct (Nat.ltb_spec (snd x) (snd y)) as [Hlt|Hge].
    + constructor; [exact IH|].
      rewrite <- (insertByScore_perm x l). constructor; [|exact Hy].
      unfold descending. lia.
    + constructor; [constructor; assumption|].
      constructor; [exact Hge|].
      eapply Forall_impl; [exact Hy|]. unfold descending. intros z Hz. lia.
Qed.

Lemma sortByScore_sorted (l : list (nat * nat)) : StronglySorted descending (sortByScore l).
Proof.
  induction l as [|x l IH]; simpl; [constructor|].
  apply insertByScore_sorted. exact IH.
Qed.

Lemma insertByScore_stable (v : nat) (x : nat * nat) (l : list (nat * nat)) :
  filter (fun p : nat * nat => snd p = v) (insertByScore x l)
  = filter (fun p : nat * nat => snd p = v) (x :: l).
Proof.
  induction l as [|y l IH]; simpl; [reflexivity|].
  destruct (Nat.ltb_spec (snd x) (snd y)) as [Hlt|Hge]; [|reflexivity].
  rewrite (filter_cons _ y), IH, !(filter_cons _ x), (filter_cons _ y).
  destruct (decide (snd y = v)), (decide (snd x = v)); try reflexivity. lia.
Qed.

(** Entries of equal score keep their relative order. *)
Lemma sortByScore_stable (v : nat) (l : list (nat * nat)) :
  filter (fun p : nat * nat => snd p = v) (sortByScore l)
  = filter (fun p : nat * nat => snd p = v) l.
Proof.
  induction l as [|x l IH]; simpl; [reflexivity|].
  rewrite insertByScore_stable, !(filter_cons _ x), IH. reflexivity.
Qed.

Lemma rankedScores_closed (es : list IndexedDoc) (query : jsstring) :
  rankedScores (indexOf es) query = firstHitRanking es query.
Proof.
  unfold rankedScores, firstHitRanking. simpl.
  rewrite accumulate_closed. reflexivity.
Qed.

Lemma rankedScores_entries (es : list IndexedDoc) (query : jsstring) (p : nat * nat) :
  p ∈ rankedScores (indexOf es) query ->
  exists e, es !! fst p = Some e
            /\ snd p = termOverlap (extractKeywordsFromText query) e
            /\ 0 < snd p.
Proof.
  rewrite rankedScores_closed. unfold firstHitRanking.
  set (kws := extractKeywordsFromText query).
  intros Hp. apply (subseteq_take 10) in Hp.
  rewrite <- (sortByScore_perm _) in Hp.
  apply list_elem_of_fmap in Hp as [i [-> Hi]]. simpl.
  apply (proj1 (firstOccurrences_elem _ _)), hitsOf_present in Hi.
  rewrite hitsOf_hitSequence in Hi.
  destruct (es !! i) as [e|]; simpl in *; [|lia].
  exists e. split; [reflexivity|]. split; [reflexivity | exact Hi].
Qed.

End SearchFacts.

(** ** Statements about the keyword extractors and the search engine *)

Module IndexerClaims.
Import JS Indexer IndexerSpec IndexerExamples KeywordFacts SearchFacts.

Example splitWs_leading :
  splitWs (str " a  b ") = [[]; str "a"; str "b"; []].
Proof. reflexivity. Qed.

Example splitChar_double : splitChar " " (str "a  b") = [str "a"; []; str "b"].
Proof. reflexivity. Qed.

Example keywords_text_example :
  extractKeywordsFromText (str "Scan the  API for Asset-IDs, now!")
  = [str "scan"; str "asset-ids"; str "now"].
Proof. vm_compute. reflexivity. Qed.

Example keywords_url_example :
  extractKeywordsFromUrl parseReferenceApi
    (str "https://developer.tenable.com/reference/api")
  = [str "reference"; str "api"].
Proof. vm_compute. reflexivity. Qed.

(** Claim C8, as stated, fails: for the path [/reference/api] the URL
    variant keeps the stopword [api], which the pipeline of the free-text
    extractor drops. *)
Lemma url_keywords_keep_stopwords :
  extractKeywordsFromUrl parseReferenceApi
    (str "https://developer.tenable.com/reference/api")
  <> statedKeywordsFromUrl parseReferenceApi
    (str "https://developer.tenable.com/reference/api").
Proof. vm_compute. discriminate. Qed.

(** Claim C8, amended.  The free-text extractor lowercases, strips the
    units that are neither word units, white space nor hyphens, splits on
    white space and drops the tokens of length at most 2 and the five
    stopwords, so that every keyword is longer than 2, is no stopword and
    is made of [a-z0-9_-].  The URL variant turns path separators, hyphens
    and underscores into spaces, lowercases, splits on white space and
    drops only the tokens of length at most 2: it strips nothing else and
    drops no stopword.  Both are total; an empty text gives no keyword and
    so does a URL that does not parse. *)
Theorem keyword_extraction :
  (forall text : jsstring,
      extractKeywordsFromText text
      = filter (fun w => 2 < length w /\ w ∉ stopWords)
          (words (filter (fun c => keptByStrip c = true) (toLowerCase text))))
  /\ (forall (text w : jsstring),
         w ∈ extractKeywordsFromText text ->
         2 < length w /\ (w ∉ stopWords)
         /\ Forall (fun c => isKeywordUnit c = true) w)
  /\ extractKeywordsFromText [] = []
  /\ (forall (parse : URLParser) (u : jsstring),
         extractKeywordsFromUrl parse u
         = match parse u with
           | None => []
           | Some urlObj =>
               filter (fun word => 2 < length word)
                 (splitWs (toLowerCase (separatorsToSpaces (pathname urlObj))))
           end).
Proof.
  split; [exact extractKeywordsFromText_closed|].
  split; [exact extractKeywordsFromText_sound|].
  split; [reflexivity|].
  exact extractKeywordsFromUrl_closed.
Qed.

(** The keyword [scan] of the text [Scan the API]. *)
Lemma keyword_extraction_witness :
  str "scan" ∈ extractKeywordsFromText (str "Scan the API")
  /\ 2 < length (str "scan") /\ (str "scan" ∉ stopWords)
  /\ Forall (fun c => isKeywordUnit c = true) (str "scan").
Proof.
  assert (str "scan" ∈ extractKeywordsFromText (str "Scan the API")) as H
    by (vm_compute; left).
  split; [exact H|].
  destruct keyword_extraction as [_ [Hsound _]]. exact (Hsound _ _ H).
Defined.

Example ranking_example_code :
  rankedScores (indexOf [docAsset; docScan; docHost]) (str "scan asset host host")
  = [(2, 2); (1, 1); (0, 1)].
Proof. vm_compute. reflexivity. Qed.

Example ranking_example_stated :
  statedRanking [docAsset; docScan; docHost] (str "scan asset host host")
  = [(0, 1); (1, 1); (2, 1)].
Proof. vm_compute. reflexivity. Qed.

(** Claim C2, as stated, fails.  Entries 0, 1, 2 have the keywords
    [asset], [scan] and [host].  For the query [scan asset host host] the
    code gives entry 2 the score 2 although one distinct token matches it,
    and it lists entry 1 before entry 0 although both have score 1. *)
Lemma ranking_differs_from_stated :
  rankedScores (indexOf [docAsset; docScan; docHost]) (str "scan asset host host")
  <> statedRanking [docAsset; docScan; docHost] (str "scan asset host host").
Proof. vm_compute. discriminate. Qed.

(** Claim C2, amended.  For every query against an index built from the
    entries [es]: the score of a returned entry is the number of
    occurrences of query tokens among its keywords (a token that occurs
    twice in the query counts twice); the results are sorted by descending
    score, entries of equal score being in the order in which the query
    tokens first hit them (the order of the tokens, and for one token the
    entry order), and truncated to the first ten; and with A having the
    keywords scan and asset and B the keyword scan, the query [scan asset]
    ranks A before B in either entry order. *)
Theorem search_ranking :
  (forall (es : list IndexedDoc) (query : jsstring),
      let kws := extractKeywordsFromText query in
      let ranked := rankedScores (indexOf es) query in
      let scoreOf := fun i => from_option (termOverlap kws) 0 (es !! i) in
      let all := sortByScore (map (fun i => (i, scoreOf i))
                                (firstOccurrences (hitSequence es kws))) in
      searchIndexInternal (Some (indexOf es)) query
      = map (fun p => es !! fst p) ranked
      /\ ranked = take 10 all
      /\ length ranked <= 10
      /\ Forall (fun p => exists e, es !! fst p = Some e
                                    /\ snd p = termOverlap kws e /\ 0 < snd p) ranked
      /\ StronglySorted descending all
      /\ Permutation (map (fun i => (i, scoreOf i))
                          (firstOccurrences (hitSequence es kws))) all
      /\ (forall v, map fst (filter (fun p => snd p = v) all)
                    = filter (fun i => scoreOf i = v)
                        (firstOccurrences (hitSequence es kws))))
  /\ (forall uA tA dA cA uB tB dB cB : jsstring,
         let A := mkDoc uA tA dA cA [str "scan"; str "asset"] in
         let B := mkDoc uB tB dB cB [str "scan"] in
         searchIndexInternal (Some (indexOf [A; B])) (str "scan asset")
         = [Some A; Some B]
         /\ searchIndexInternal (Some (indexOf [B; A])) (str "scan asset")
            = [Some A; Some B]).
Proof.
  split.
  - intros es query kws ranked scoreOf all.
    assert (ranked = take 10 all) as Hr by apply rankedScores_closed.
    split.
    { unfold searchIndexInternal. fold kws. fold ranked.
      destruct kws eqn:Hk; [|reflexivity].
      rewrite Hr. unfold all. unfold hitSequence. simpl. reflexivity. }
    split; [exact Hr|].
    split; [rewrite Hr, length_take; lia|].
    split.
    { apply Forall_forall. intros p Hp. apply rankedScores_entries. exact Hp. }
    split; [apply sortByScore_sorted|].
    split; [apply sortByScore_perm|].
    intros v. unfold all. rewrite sortByScore_stable.
    generalize (firstOccurrences (hitSequence es kws)) as l.
    induction l as [|i l IH]; [reflexivity|]. simpl.
    rewrite (filter_cons _ (i, scoreOf i)), (filter_cons _ i). simpl.
    destruct (decide (scoreOf i = v)); simpl; rewrite IH; reflexivity.
  - intros. split; vm_compute; reflexivity.
Qed.

End IndexerClaims.

(** ** The LRU cache *)

Module CacheFacts.
Import Cache CacheExamples.

Section WithValues.
Context {T : Type}.
Implicit Types (c : LRUCache T) (k key : jsstring) (now : Z).

Lemma removeFirst_absent key (order : list jsstring) :
  key ∉ order -> removeFirst key order = order.
Proof.
  induction order as [|k order IH]; intros H; simpl; [reflexivity|].
  apply not_elem_of_cons in H as [Hne Hin].
  destruct (decide (k = key)) as [->|_]; [exfalso; apply Hne; reflexivity|].
  rewrite (IH Hin). reflexivity.
Qed.

Lemma removeFirst_elem key k (order : list jsstring) :
  NoDup order -> k ∈ removeFirst key order <-> k ∈ order /\ k <> key.
Proof.
  induction 1 as [|a order Ha Hnd IH]; simpl.
  - split; [intros H; inversion H | intros [H _]; inversion H].
  - destruct (decide (a = key)) as [->|Hne].
    + rewrite elem_of_cons. split.
      * intros Hk. split; [right; exact Hk|]. intros ->. contradiction.
      * intros [[->|Hk] Hne]; [exfalso; apply Hne; reflexivity | exact Hk].
    + rewrite !elem_of_cons, IH. split.
      * intros [->|[Hk Hkey]]; [split; [left; reflexivity | exact Hne] | tauto].
      * intros [[->|Hk] Hkey]; [left; reflexivity | right; tauto].
Qed.

Lemma removeFirst_NoDup key (order : list jsstring) :
  NoDup order -> NoDup (removeFirst key order).
Proof.
  induction 1 as [|a order Ha Hnd IH]; simpl; [constructor|].
  destruct (decide (a = key)); [exact Hnd|].
  constructor; [|exact IH].
  rewrite (removeFirst_elem _ _ _ Hnd). tauto.
Qed.

(** [delete] keeps the order and the map consistent. *)
Lemma delete_consistent c key : consistent c -> consistent (snd (delete c key)).
Proof.
  intros [Hnd Hdom]. split; simpl.
  - apply removeFirst_NoDup. exact Hnd.
  - intros k. rewrite (removeFirst_elem _ _ _ Hnd), Hdom.
    destruct (decide (k = key)) as [->|Hne].
    + rewrite lookup_delete_eq. split; [tauto|]. intros [x Hx]. discriminate Hx.
    + rewrite lookup_delete_ne by congruence. tauto.
Qed.

(** After [set] the key holds the new value with the instant of the call
    and no hit, and it is the last, most recently used, key of the order.
    In a consistent cache it occurs nowhere else in the order: the
    previous entry of the key was removed first. *)
Lemma set_lands_most_recent c key (value : T) now :
  cache (set c key value now) !! key = Some (mkEntry value now 0)
  /\ exists older, accessOrder (set c key value now) = older ++ [key]
                   /\ (consistent c -> key ∉ older).
Proof.
  split; [unfold set; simpl; apply lookup_insert_eq|].
  unfold set. simpl.
  set (c1 := if bool_decide (is_Some (cache c !! key))
             then snd (delete c key) else c).
  set (c2 := if (maxSize c1 <=? Z.of_nat (size (cache c1)))%Z
             then evict c1 else c1).
  exists (accessOrder c2). split; [reflexivity|].
  intros Hc.
  assert (key ∉ accessOrder c1) as H1.
  { unfold c1. destruct (bool_decide_reflect (is_Some (cache c !! key))) as [Hs|Hs].
    - simpl. destruct Hc as [Hnd _]. rewrite (removeFirst_elem _ _ _ Hnd). tauto.
    - destruct Hc as [_ Hdom]. rewrite Hdom. exact Hs. }
  unfold c2. destruct (maxSize c1 <=? Z.of_nat (size (cache c1)))%Z; [|exact H1].
  unfold evict. destruct (accessOrder c1) as [|lru rest] eqn:Ho.
  - rewrite Ho. exact H1.
  - simpl. apply not_elem_of_cons in H1 as [_ H1]. exact H1.
Qed.

(** One [set] with a new key on a cache that holds the calls [old], in
    that order: when the cache is full the oldest call is dropped. *)
Lemma set_after_calls (M ttl0 : Z) (old : list (jsstring * T * Z))
    (x : jsstring * T * Z) :
  (1 <= M)%Z ->
  NoDup (callKey <$> old) ->
  callKey x ∉ callKey <$> old ->
  Forall (fun call => callKey call <> []) old ->
  let kept := if (M <=? Z.of_nat (length old))%Z then drop 1 old else old in
  set (mkCache (list_to_map (callEntry <$> old)) M ttl0 (callKey <$> old))
      (callKey x) x.1.2 x.2
  = mkCache (list_to_map (callEntry <$> kept ++ [x])) M ttl0
            (callKey <$> kept ++ [x]).
Proof.
  intros HM Hnd Hfresh Hne kept.
  assert (forall l : list (jsstring * T * Z), (callEntry <$> l).*1 = callKey <$> l)
    as Hkeys by (intros l; rewrite <- list_fmap_compose; reflexivity).
  assert (forall l : list (jsstring * T * Z),
             callKey x ∉ callKey <$> l ->
             <[callKey x := mkEntry x.1.2 x.2 0]> (list_to_map (callEntry <$> l))
             = (list_to_map (callEntry <$> l ++ [x]) : gmap jsstring (CacheEntry T)))
    as Hsnoc.
  { intros l Hl. rewrite fmap_app. symmetry.
    apply (list_to_map_snoc (callEntry <$> l) (callKey x) (mkEntry x.1.2 x.2 0)).
    rewrite Hkeys. exact Hl. }
  unfold set. cbn [cache maxSize ttl accessOrder].
  rewrite (not_elem_of_list_to_map_1 (callEntry <$> old) (callKey x))
    by (rewrite Hkeys; exact Hfresh).
  rewrite bool_decide_eq_false_2 by (intros [? H]; discriminate H).
  cbn [cache maxSize ttl accessOrder].
  rewrite map_size_list_to_map by (rewrite Hkeys; exact Hnd).
  rewrite length_fmap. unfold kept.
  destruct (Z.leb_spec M (Z.of_nat (length old))) as [Hfull|Hroom].
  - destruct old as [|y rest]; [simpl in Hfull; lia|].
    unfold evict. cbn [cache maxSize ttl accessOrder fmap list_fmap drop].
    apply Forall_cons in Hne as [Hy _].
    destruct (callKey y) as [|a ky] eqn:Hky; [contradiction|].
    change (callKey y :: (callKey <$> rest)) with (callKey <$> y :: rest) in Hfresh, Hnd.
    rewrite fmap_cons in Hfresh, Hnd.
    apply not_elem_of_cons in Hfresh as [_ Hfresh].
    apply NoDup_cons in Hnd as [Hynot _].
    change (callEntry y) with (callKey y, mkEntry y.1.2 y.2 0).
    rewrite list_to_map_cons, Hky, delete_insert_id; cycle 1.
    { apply not_elem_of_list_to_map_1. rewrite Hkeys, <- Hky. exact Hynot. }
    rewrite (Hsnoc rest Hfresh), ?drop_0, !fmap_app. reflexivity.
  - cbn [cache maxSize ttl accessOrder].
    rewrite (Hsnoc old Hfresh), !fmap_app. reflexivity.
Qed.

(** The state after a sequence of [set] calls on an empty cache, when the
    keys are pairwise different and none is the empty string: the cache
    holds the last [maxSize] calls, in the order of the calls. *)
Lemma setAll_empty (M ttl0 : Z) (calls : list (jsstring * T * Z)) :
  (1 <= M)%Z ->
  NoDup (callKey <$> calls) ->
  Forall (fun call => callKey call <> []) calls ->
  let kept := drop (length calls - Z.to_nat M) calls in
  setAll (mkCache ∅ M ttl0 []) calls
  = mkCache (list_to_map (callEntry <$> kept)) M ttl0 (callKey <$> kept).
Proof.
  intros HM. induction calls as [|x calls IH] using rev_ind; intros Hnd Hne kept.
  - reflexivity.
  - unfold setAll in *. rewrite fold_left_app. cbn [fold_left].
    rewrite fmap_app in Hnd. apply NoDup_app in Hnd as [Hnd [Hx _]].
    apply Forall_app in Hne as [Hne Hxne].
    rewrite (IH Hnd Hne). clear IH.
    set (n := length calls). set (m := Z.to_nat M).
    set (old := drop (n - m) calls).
    assert (callKey x ∉ callKey <$> calls) as Hfresh.
    { intros Hin. apply (Hx _ Hin). simpl. left. }
    assert (NoDup (callKey <$> old)) as Hndold.
    { unfold old. rewrite fmap_drop.
      eapply sublist_NoDup; [exact Hnd | apply sublist_drop]. }
    assert (callKey x ∉ callKey <$> old) as Hfreshold.
    { intros Hin. apply Hfresh. unfold old in Hin. rewrite fmap_drop in Hin.
      exact (subseteq_drop _ _ _ Hin). }
    assert (Forall (fun call => callKey call <> []) old) as Hneold.
    { unfold old. apply Forall_drop. exact Hne. }
    pose proof (set_after_calls M ttl0 old x HM Hndold Hfreshold Hneold) as Hset.
    cbv zeta in Hset. fold (callKey x). rewrite Hset. clear Hset.
    assert (length old = n - (n - m)) as Hlen by (unfold old; apply length_drop).
    assert (kept = (if (M <=? Z.of_nat (length old))%Z then drop 1 old else old) ++ [x])
      as ->; [|reflexivity].
    unfold kept. rewrite length_app. simpl. fold n. fold m.
    destruct (Z.leb_spec M (Z.of_nat (length old))) as [Hfull|Hroom].
    + replace (n + 1 - m) with (S (n - m)) by lia.
      rewrite (drop_app_le calls [x]) by (fold n; lia).
      unfold old. rewrite drop_drop. f_equal. f_equal. lia.
    + replace (n + 1 - m) with 0 by lia.
      unfold old. replace (n - m) with 0 by lia. reflexivity.
Qed.

(** With keys that are not the empty string the cache evicts as stated:
    after [maxSize + 1] calls of [set] with pairwise different keys on a
    new cache, the first key is absent and each of the other [maxSize]
    keys gives its value as long as its time to live has not elapsed. *)
Lemma lru_eviction_nonempty_keys (M : Z) (optTtl : option Z)
    (first : jsstring * T * Z) (others : list (jsstring * T * Z)) :
  (1 <= M)%Z ->
  Z.of_nat (length others) = M ->
  NoDup (callKey <$> first :: others) ->
  Forall (fun call => callKey call <> []) (first :: others) ->
  let c := setAll (new (Some M) optTtl) (first :: others) in
  (forall now, get c (callKey first) now = (None, c))
  /\ (forall call now, call ∈ others -> (now - call.2 <= ttl c)%Z ->
        fst (get c (callKey call) now) = Some call.1.2)
  /\ size (cache c) = length others.
Proof.
  intros HM Hlen Hnd Hne c.
  set (ttl0 := orNumber optTtl (24 * 60 * 60 * 1000)).
  assert (c = mkCache (list_to_map (callEntry <$> others)) M ttl0
                      (callKey <$> others)) as Hc.
  { unfold c, new. unfold orNumber at 1.
    destruct (Z.eqb_spec M 0) as [?|_]; [lia|].
    rewrite (setAll_empty M _ (first :: others) HM Hnd Hne). simpl.
    replace (S (length others) - Z.to_nat M) with 1 by lia. reflexivity. }
  clearbody c. subst c.
  assert ((callEntry <$> others).*1 = callKey <$> others) as Hkeys.
  { rewrite <- list_fmap_compose. reflexivity. }
  rewrite fmap_cons in Hnd. apply NoDup_cons in Hnd as [Hfirst Hnd].
  split; [|split].
  - intros now. unfold get. cbn [cache].
    rewrite not_elem_of_list_to_map_1 by (rewrite Hkeys; exact Hfirst).
    reflexivity.
  - intros call now Hin Hfresh. unfold get. cbn [cache ttl] in *.
    rewrite (elem_of_list_to_map_1 _ (callKey call) (callEntry call).2).
    + cbn [snd callEntry timestamp data].
      destruct (Z.ltb_spec ttl0 (now - call.2)) as [?|_]; [lia|].
      reflexivity.
    + rewrite Hkeys. exact Hnd.
    + apply list_elem_of_fmap. exists call. split; [reflexivity | exact Hin].
  - cbn [cache]. rewrite map_size_list_to_map by (rewrite Hkeys; exact Hnd).
    apply length_fmap.
Qed.

End WithValues.

(** What the cache does with an entry that is too old.  The hypothesis is
    the test of the source, [now - entry.timestamp > this.ttl]. *)
Lemma expired_get {T : Type} (c : LRUCache T) (k : jsstring)
    (e : CacheEntry T) (now : Z) :
  cache c !! k = Some e ->
  (now - timestamp e > ttl c)%Z ->
  get c k now = (None, snd (delete c k)).
Proof.
  intros He Hold. unfold get. rewrite He.
  destruct (Z.ltb_spec (ttl c) (now - timestamp e)) as [_|Hle]; [reflexivity | lia].
Qed.

Lemma get_returns_fresh {T : Type} (c : LRUCache T) (k : jsstring) (now : Z) (v : T) :
  fst (get c k now) = Some v ->
  exists e, cache c !! k = Some e /\ data e = v /\ (now - timestamp e <= ttl c)%Z.
Proof.
  unfold get. destruct (cache c !! k) as [e|]; [|discriminate].
  destruct (Z.ltb_spec (ttl c) (now - timestamp e)) as [Hlt|Hle]; [discriminate|].
  simpl. intros [= <-]. exists e. split; [reflexivity|]. split; [reflexivity | exact Hle].
Qed.

(** Claim C9.  A [get] of a cached key at an instant with
    [now - createdAt > ttl] returns absent and evicts the entry, from the
    map and from the recency order, and every later [has] of the key
    returns false and leaves the cache as it is.  So [get] never returns
    an entry whose time to live has elapsed. *)
Theorem ttl_expiry {T : Type} (c : LRUCache T) (k : jsstring)
    (e : CacheEntry T) (now : Z) :
  cache c !! k = Some e ->
  (now - timestamp e > ttl c)%Z ->
  let c' := snd (get c k now) in
  fst (get c k now) = None
  /\ cache c' !! k = None
  /\ cache c' = base.delete k (cache c)
  /\ accessOrder c' = removeFirst k (accessOrder c)
  /\ (consistent c -> (k ∉ accessOrder c') /\ consistent c')
  /\ (forall later : Z, has c' k later = (false, c'))
  /\ (forall later : Z, get c' k later = (None, c')).
Proof.
  intros He Hold c'. unfold c'. rewrite (expired_get c k e now He Hold). simpl.
  split; [reflexivity|].
  split; [apply lookup_delete_eq|].
  split; [reflexivity|].
  split; [reflexivity|].
  split.
  { intros Hc. split; [|exact (delete_consistent c k Hc)].
    destruct Hc as [Hnd _]. rewrite (removeFirst_elem _ _ _ Hnd). tauto. }
  split; intros later.
  - unfold has. simpl. rewrite lookup_delete_eq. reflexivity.
  - unfold get. simpl. rewrite lookup_delete_eq. reflexivity.
Qed.

(** The entry of [k2] was made at the instant 10 and lives an hour: at the
    instant 3600011 it has expired. *)
Lemma ttl_expiry_witness :
  cache twoSlots !! str "k2" = Some (mkEntry 2 10%Z 0%Z)
  /\ fst (get twoSlots (str "k2") 3600011%Z) = None
  /\ has (snd (get twoSlots (str "k2") 3600011%Z)) (str "k2") 3600012%Z
     = (false, snd (get twoSlots (str "k2") 3600011%Z)).
Proof.
  assert (cache twoSlots !! str "k2" = Some (mkEntry 2 10%Z 0%Z)) as He
    by (vm_compute; reflexivity).
  assert (3600011 - timestamp (mkEntry 2 10%Z 0%Z) > ttl twoSlots)%Z as Hold
    by (vm_compute; reflexivity).
  pose proof (ttl_expiry twoSlots (str "k2") _ 3600011%Z He Hold) as H.
  cbv zeta in H. destruct H as [H1 [_ [_ [_ [_ [H2 _]]]]]].
  split; [exact He|]. split; [exact H1 | exact (H2 3600012%Z)].
Defined.

Example oneSlot_contents :
  accessOrder oneSlot = [str "a"] /\ size (cache oneSlot) = 2
  /\ maxSize oneSlot = 1%Z.
Proof. vm_compute. repeat split; reflexivity. Qed.

(** The empty string as key, which [readPage] never passes.  A cache of
    capacity 1 receives the empty key and then the key [a].  The empty
    key leaves the recency order but, being falsy, stays in the map:
    [get] still returns its value, and the map holds two entries. *)
Example empty_key_not_evicted :
  let c0 : LRUCache nat := new (Some 1%Z) None in
  let c2 := set (set c0 [] 7 0%Z) (str "a") 8 1%Z in
  fst (get c2 [] 2%Z) = Some 7
  /\ fst (get c2 (str "a") 2%Z) = Some 8
  /\ size (cache c2) = 2
  /\ maxSize c2 = 1%Z
  /\ accessOrder c2 = [str "a"].
Proof. vm_compute. repeat split; reflexivity. Qed.

End CacheFacts.

(** ** The search tool *)

Module SearchToolFacts.
Import JS Indexer IndexerSpec SearchFacts SearchTool IndexerExamples.

Lemma validateSearchQuery_passes (query : jsstring) :
  validateSearchQuery query = None <-> 2 <= length (trim query) <= 200.
Proof.
  unfold validateSearchQuery. destruct query as [|c q].
  - simpl. split; [discriminate | lia].
  - destruct (Nat.eqb_spec (length (trim (c :: q))) 0) as [H0|H0];
      [split; [discriminate | lia]|].
    destruct (Nat.ltb_spec (length (trim (c :: q))) 2) as [H2|H2];
      [split; [discriminate | lia]|].
    destruct (Nat.ltb_spec 200 (length (trim (c :: q)))) as [H3|H3];
      [split; [discriminate | lia]|].
    split; [lia | reflexivity].
Qed.

Lemma validateSearchQuery_class (query : jsstring) (e : Error) :
  validateSearchQuery query = Some e -> kind e = ValidationError.
Proof.
  unfold validateSearchQuery. destruct query as [|c q]; [intros [= <-]; reflexivity|].
  destruct (length (trim (c :: q)) =? 0); [intros [= <-]; reflexivity|].
  destruct (length (trim (c :: q)) <? 2); [intros [= <-]; reflexivity|].
  destruct (200 <? length (trim (c :: q))); [intros [= <-]; reflexivity|].
  discriminate.
Qed.

(** Claim C4.  A query whose trimmed length is below 2 or above 200 makes
    [searchDocs] throw a validation error, and the call makes no event: no
    lookup in the index and no request. *)
Theorem query_validation (_searchIndex : option SearchIndex) (query : jsstring) :
  length (trim query) < 2 \/ 200 < length (trim query) ->
  exists msg,
    searchDocs _searchIndex query = ([], Throw (mkError ValidationError msg)).
Proof.
  intros Hlen. unfold searchDocs.
  destruct (validateSearchQuery query) as [e|] eqn:Hv.
  - pose proof (validateSearchQuery_class query e Hv) as Hk.
    destruct e as [k msg]. simpl in Hk. subst k. exists msg. reflexivity.
  - apply validateSearchQuery_passes in Hv. lia.
Qed.

(** The query [a] is one unit long once trimmed. *)
Lemma query_validation_witness :
  exists msg,
    searchDocs (Some (indexOf [docA; docB])) (str " a ")
    = ([], Throw (mkError ValidationError msg)).
Proof.
  apply (query_validation (Some (indexOf [docA; docB])) (str " a ")).
  left. vm_compute. lia.
Defined.

(** A search in an index that [buildIndex] made finds entries only. *)
Lemma search_built (es : list IndexedDoc) (query : jsstring) :
  Forall (fun entry => is_Some (toSearchResult entry))
         (search (Some (indexOf es)) query).
Proof.
  unfold search, searchIndexInternal.
  destruct (extractKeywordsFromText query); [constructor|].
  apply Forall_fmap, Forall_forall. intros p Hp. simpl.
  destruct (rankedScores_entries es query p Hp) as [e [He _]].
  rewrite He. simpl. eexists. reflexivity.
Qed.

(** Claim C10.  For a query that passes the length validation, with the
    index not initialised or built from any entries (none included),
    [searchDocs] returns a list that is not empty: the results of the
    index when there are some, and otherwise the fixed list of three
    entries for the reference, recipes and api-explorer pages. *)
Theorem search_never_empty (_searchIndex : option SearchIndex) (query : jsstring) :
  indexState _searchIndex ->
  2 <= length (trim query) <= 200 ->
  exists results,
    searchDocs _searchIndex query = ([IndexLookup query], Ok results)
    /\ results <> []
    /\ (search _searchIndex query = [] -> results = getFallbackResults)
    /\ (search _searchIndex query <> [] ->
          Some results = mapM toSearchResult (search _searchIndex query))
    /\ map res_url getFallbackResults
       = [str "https://developer.tenable.com/reference";
          str "https://developer.tenable.com/recipes";
          str "https://developer.tenable.com/api-explorer"].
Proof.
  intros Hix Hlen. apply validateSearchQuery_passes in Hlen.
  unfold searchDocs. rewrite Hlen.
  assert (is_Some (mapM toSearchResult (search _searchIndex query))) as [rs Hrs].
  { apply mapM_is_Some. destruct Hix as [|es]; [constructor | apply search_built]. }
  rewrite Hrs.
  assert (length (search _searchIndex query) = length rs) as Hl
    by (apply mapM_Some_1 in Hrs; exact (Forall2_length _ _ _ Hrs)).
  exists (if length rs =? 0 then getFallbackResults else rs).
  split; [reflexivity|].
  destruct (Nat.eqb_spec (length rs) 0) as [H0|H0].
  - split; [discriminate|]. split; [reflexivity|].
    split; [|reflexivity].
    intros Hne. destruct (search _searchIndex query); [contradiction | simpl in Hl; lia].
  - split; [intros ->; apply H0; reflexivity|].
    split; [intros He; rewrite He in Hl; simpl in Hl; lia|].
    split; [intros _; reflexivity | reflexivity].
Qed.

(** With the index not initialised the query [scan asset] gets the
    fallback list. *)
Lemma search_never_empty_witness :
  exists results,
    searchDocs None (str "scan asset") = ([IndexLookup (str "scan asset")], Ok results)
    /\ results <> [].
Proof.
  destruct (search_never_empty None (str "scan asset")) as [rs [H1 [H2 _]]].
  - constructor.
  - vm_compute. split; lia.
  - exists rs. split; assumption.
Defined.

Example search_fallback_when_uninitialised :
  searchDocs None (str "scan asset")
  = ([IndexLookup (str "scan asset")], Ok getFallbackResults).
Proof. reflexivity. Qed.

Example search_fallback_no_hit :
  searchDocs (Some (indexOf [docA; docB])) (str "nothing matches")
  = ([IndexLookup (str "nothing matches")], Ok getFallbackResults).
Proof. vm_compute. reflexivity. Qed.

End SearchToolFacts.

(** ** The read tool *)

Module ReadFacts.
Import JS JSFacts ReadTool ReadSpec ReadExamples.

Lemma eqb_spec (a b : jsstring) : JS.eqb a b = true <-> a = b.
Proof. unfold JS.eqb. apply bool_decide_eq_true. Qed.

Lemma endsWith_spec (p s : jsstring) : endsWith p s = true <-> exists a, s = a ++ p.
Proof.
  unfold endsWith. rewrite startsWith_spec. split.
  - intros [t Ht]. exists (rev t).
    rewrite <- (rev_involutive s), Ht, rev_app_distr, rev_involutive. reflexivity.
  - intros [a ->]. exists (rev a). apply rev_app_distr.
Qed.

Lemma matchesDomain_spec (domain allowed : jsstring) :
  matchesDomain domain allowed = true
  <-> domain = allowed \/ exists sub, domain = sub ++ str "." ++ allowed.
Proof.
  unfold matchesDomain. rewrite orb_true_iff, eqb_spec, endsWith_spec. reflexivity.
Qed.

(** The test of the source says that the host is an allowed domain or a
    subdomain of one. *)
Lemma isAllowed_spec (domain : jsstring) : isAllowed domain = true <-> hostAllowed domain.
Proof.
  unfold isAllowed, hostAllowed. rewrite existsb_exists. split.
  - intros [a [Ha Hm]]. exists a. split; [apply list_elem_of_In; exact Ha|].
    apply matchesDomain_spec. exact Hm.
  - intros [a [Ha Hm]]. exists a. split; [apply list_elem_of_In; exact Ha|].
    apply matchesDomain_spec. exact Hm.
Qed.

Lemma validateUrl_class (parse : URLParser) (u : jsstring) (e : Error) :
  validateUrl parse u = Some e -> kind e = ValidationError.
Proof.
  unfold validateUrl. destruct u as [|c u]; [intros [= <-]; reflexivity|].
  destruct (length (trim (c :: u)) =? 0); [intros [= <-]; reflexivity|].
  destruct (parse (trim (c :: u))) as [parsed|]; [|intros [= <-]; reflexivity].
  destruct (negb _ && negb _); [intros [= <-]; reflexivity|].
  destruct (isAllowed _); [discriminate | intros [= <-]; reflexivity].
Qed.

Lemma validateUrl_passes (parse : URLParser) (u : jsstring) :
  validateUrl parse u = None ->
  exists parsed, parse (trim u) = Some parsed
    /\ (protocol parsed = str "https:" \/ protocol parsed = str "http:")
    /\ isAllowed (toLowerCase (hostname parsed)) = true.
Proof.
  unfold validateUrl. destruct u as [|c u]; [discriminate|].
  destruct (length (trim (c :: u)) =? 0); [discriminate|].
  destruct (parse (trim (c :: u))) as [parsed|]; [|discriminate].
  destruct (negb (JS.eqb (protocol parsed) (str "https:"))
            && negb (JS.eqb (protocol parsed) (str "http:"))) eqn:Hp; [discriminate|].
  destruct (isAllowed _) eqn:Ha; [|discriminate].
  intros _. exists parsed. split; [reflexivity|]. split; [|exact Ha].
  apply andb_false_iff in Hp as [Hp|Hp]; apply negb_false_iff, eqb_spec in Hp; tauto.
Qed.

(** Claim C6.  When the host of the URL neither equals an allowed domain
    nor is a subdomain of one, [readPage] throws a validation error, makes
    no request and leaves the page cache as it is.  (A string that the
    URL parser rejects has no host and is refused in the same way.) *)
Theorem domain_whitelist (env : Env) (pageCache : LRUCache ReadPageOutput)
    (nowGet nowSet : Z) (inputUrl : jsstring) :
  (forall parsed, parseURL env (trim inputUrl) = Some parsed ->
                  ~ hostAllowed (toLowerCase (hostname parsed))) ->
  exists msg,
    readPage env pageCache nowGet nowSet inputUrl
    = (Throw (mkError ValidationError msg), pageCache, []).
Proof.
  intros Hhost. unfold readPage.
  destruct (validateUrl (parseURL env) inputUrl) as [e|] eqn:Hv.
  - pose proof (validateUrl_class _ _ _ Hv) as Hk.
    destruct e as [k msg]. simpl in Hk. subst k. exists msg. reflexivity.
  - apply validateUrl_passes in Hv as [parsed [Hp [_ Ha]]].
    apply isAllowed_spec in Ha. exfalso. exact (Hhost parsed Hp Ha).
Qed.

Lemma evil_host_refused : ~ hostAllowed (str "eviltenable.com").
Proof.
  intros H. apply isAllowed_spec in H. vm_compute in H. discriminate H.
Qed.

(** The host [eviltenable.com] ends with [tenable.com] but is no
    subdomain of it. *)
Lemma domain_whitelist_witness :
  exists msg,
    readPage missingPages emptyPageCache 0 0 evilPage
    = (Throw (mkError ValidationError msg), emptyPageCache, []).
Proof.
  apply (domain_whitelist missingPages emptyPageCache 0 0 evilPage).
  intros parsed Hp. vm_compute in Hp. injection Hp as <-.
  exact evil_host_refused.
Defined.

Lemma notFoundContent_mentions (u : jsstring) :
  exists a b, notFoundContent u = a ++ u ++ b.
Proof.
  exists (str "# Page Not Found" ++ [LF; LF]
          ++ str "The requested page could not be found: ").
  eexists. unfold notFoundContent. cbn [join]. rewrite <- !app_assoc.
  cbn [str list_ascii_of_string app]. reflexivity.
Qed.

Lemma notFoundNote_mentions (u md : jsstring) :
  exists a b, notFoundNote u ++ md = a ++ u ++ b.
Proof.
  exists ([LF] ++ str "> **Note**: The requested page (").
  eexists. unfold notFoundNote. rewrite <- !app_assoc. reflexivity.
Qed.

Lemma convertPage_content (env : Env) (h : HTMLContent)
    (pageUrl defaultTitle decorate : jsstring) (page : ReadPageOutput) :
  convertPage env h pageUrl defaultTitle decorate = Ok page ->
  page_url page = pageUrl
  /\ exists md, page_content page = decorate ++ Converter.cleanMarkdown md.
Proof.
  unfold convertPage.
  destruct (extractTitle env (html h)) as [found|]; [|discriminate].
  destruct (cleanHTMLPreservingCodeBlocks env (html h)) as [cleaned|]; [|discriminate].
  destruct (htmlToMarkdownWithStats env cleaned) as [[md wc]|]; [|discriminate].
  intros [= <-]. split; [reflexivity|]. exists md. reflexivity.
Qed.

(** The page of [referenceFallback] is made of the root reference page,
    fetched with status 200, and starts with the note. *)
Lemma referenceFallback_page (env : Env) (u : jsstring) (page : ReadPageOutput) :
  referenceFallback env u = Some page ->
  page_url page = fallbackUrl
  /\ (exists h, downloadHTML env 1 fallbackUrl = Ok h /\ statusCode h = 200%Z)
  /\ exists md, page_content page = notFoundNote u ++ Converter.cleanMarkdown md.
Proof.
  unfold referenceFallback.
  destruct (downloadHTML env 1 fallbackUrl) as [h|]; [|discriminate].
  destruct (Z.eqb_spec (statusCode h) 200) as [H200|_]; [|discriminate].
  destruct (convertPage env h fallbackUrl (str "Tenable API Reference")
              (notFoundNote u)) as [p|] eqn:Hc; [|discriminate].
  intros [= <-]. apply convertPage_content in Hc as [H1 H2].
  split; [exact H1|]. split; [exists h; split; [reflexivity | exact H200] | exact H2].
Qed.

Example recipe_not_found :
  readPage missingPages emptyPageCache 0 0 recipePage
  = (Ok (notFoundPage recipePage),
     Cache.set emptyPageCache recipePage (notFoundPage recipePage) 0,
     [Fetch recipePage]).
Proof. vm_compute. reflexivity. Qed.

Example reference_not_found :
  fst (readPage missingPages emptyPageCache 0 0 scansPage)
  = (Ok (mkPage fallbackUrl (str "API")
           (notFoundNote scansPage ++ str "<h1>API</h1>") 1),
     Cache.set emptyPageCache scansPage
       (mkPage fallbackUrl (str "API")
           (notFoundNote scansPage ++ str "<h1>API</h1>") 1) 0)
  /\ snd (readPage missingPages emptyPageCache 0 0 scansPage)
     = [Fetch scansPage; Fetch fallbackUrl].
Proof. vm_compute. split; reflexivity. Qed.

(** Claim C5, as stated, fails: the page [/recipes/missing] is allowed and
    answers 404, the root reference page would answer 200, and [readPage]
    returns the static page without a request for the root reference
    page. *)
Lemma fallback_skips_reference_page :
  downloadHTML missingPages 0 recipePage = Ok (mkHTML (str "not found") recipePage 404)
  /\ downloadHTML missingPages 1 fallbackUrl
     = Ok (mkHTML (str "<h1>API</h1>") fallbackUrl 200)
  /\ ~ triesReferenceFirst recipePage
         (snd (readPage missingPages emptyPageCache 0 0 recipePage)).
Proof.
  split; [vm_compute; reflexivity|]. split; [vm_compute; reflexivity|].
  rewrite recipe_not_found. intros [more H]. discriminate H.
Qed.

(** When the root reference page answers 200 and converts,
    [referenceFallback] returns the page made of it. *)
Lemma referenceFallback_converts (env : Env) (u : jsstring) (found : option jsstring)
    (md : jsstring) (wc : nat) :
  referenceConverts env found md wc ->
  referenceFallback env u = Some (referencePage u found md wc).
Proof.
  intros [h [cleaned [Hd [H200 [Ht [Hc Hm]]]]]].
  unfold referenceFallback, convertPage. rewrite Hd, H200. cbn [Z.eqb Pos.eqb].
  rewrite Ht, Hc, Hm. reflexivity.
Qed.

(** In every other case it returns nothing. *)
Lemma referenceFallback_fails (env : Env) (u : jsstring) :
  (forall found md wc, ~ referenceConverts env found md wc) ->
  referenceFallback env u = None.
Proof.
  intros Hno. unfold referenceFallback, convertPage.
  destruct (downloadHTML env 1 fallbackUrl) as [h|] eqn:Hd; [|reflexivity].
  destruct (Z.eqb_spec (statusCode h) 200) as [H200|_]; [|reflexivity].
  destruct (extractTitle env (html h)) as [found|] eqn:Ht; [|reflexivity].
  destruct (cleanHTMLPreservingCodeBlocks env (html h)) as [cleaned|] eqn:Hc;
    [|reflexivity].
  destruct (htmlToMarkdownWithStats env cleaned) as [[md wc]|] eqn:Hm; [|reflexivity].
  exfalso. apply (Hno found md wc). exists h, cleaned. repeat split; assumption.
Qed.

(** Claim C5, amended.  For an allowed URL that is not in the page cache
    and whose request answers 404, [readPage] returns a page and does not
    throw; the page is stored in the cache; its content contains the
    requested URL.  The root reference page is requested only when the
    first segment of the path is [reference].  When that request answers
    200 and the page converts, the page returned is the root reference
    page, its Markdown behind a note that names the requested URL; when
    the request fails, does not answer 200 or the page cannot be
    converted, it is the static page.  For any other path no second
    request is made and the page is the static page. *)
Theorem not_found_fallback (env : Env) (pageCache : LRUCache ReadPageOutput)
    (nowGet nowSet : Z) (inputUrl : jsstring) (htmlContent : HTMLContent) :
  validateUrl (parseURL env) inputUrl = None ->
  fst (Cache.get pageCache (trim inputUrl) nowGet) = None ->
  downloadHTML env 0 (trim inputUrl) = Ok htmlContent ->
  statusCode htmlContent = 404%Z ->
  let u := trim inputUrl in
  exists page urlObj,
    parseURL env u = Some urlObj
    /\ readPage env pageCache nowGet nowSet inputUrl
       = (Ok page,
          Cache.set (snd (Cache.get pageCache u nowGet)) u page nowSet,
          Fetch u :: (if underReference urlObj then [Fetch fallbackUrl] else []))
    /\ (exists a b, page_content page = a ++ u ++ b)
    /\ (underReference urlObj = false -> page = notFoundPage u)
    /\ (underReference urlObj = true ->
          (forall found md wc,
              referenceConverts env found md wc -> page = referencePage u found md wc)
          /\ ((forall found md wc, ~ referenceConverts env found md wc) ->
              page = notFoundPage u)).
Proof.
  intros Hv Hmiss Hdl H404 u.
  destruct (validateUrl_passes _ _ Hv) as [urlObj [Hp _]]. fold u in Hp, Hmiss, Hdl.
  unfold readPage. rewrite Hv. unfold Cache.createCacheKey. fold u.
  rewrite Hmiss, Hdl, H404. simpl Z.eqb. cbv iota.
  unfold handle404Fallback. rewrite Hp.
  destruct (underReference urlObj) eqn:Hr.
  - exists (default (notFoundPage u) (referenceFallback env u)), urlObj.
    split; [reflexivity|]. split; [rewrite Hr; reflexivity|].
    split; [|split; [congruence|]].
    + destruct (referenceFallback env u) as [page|] eqn:Hfb; cbn [default from_option]; unfold id.
      * destruct (referenceFallback_page _ _ _ Hfb) as [_ [_ [md H3]]].
        rewrite H3. apply notFoundNote_mentions.
      * apply notFoundContent_mentions.
    + intros _. split.
      * intros found md wc Hc. rewrite (referenceFallback_converts _ u _ _ _ Hc).
        reflexivity.
      * intros Hno. rewrite (referenceFallback_fails _ u Hno). reflexivity.
  - exists (notFoundPage u), urlObj. split; [reflexivity|].
    split; [rewrite Hr; reflexivity|].
    split; [apply notFoundContent_mentions|].
    split; [intros _; reflexivity | congruence].
Qed.

(** The page [/reference/scans-x] is missing on the example site, where
    the root reference page answers 200: the page returned is made of the
    root reference page. *)
Lemma not_found_fallback_witness :
  exists page,
    readPage missingPages emptyPageCache 0 0 scansPage
    = (Ok page,
       Cache.set (snd (Cache.get emptyPageCache (trim scansPage) 0))
         (trim scansPage) page 0,
       [Fetch (trim scansPage); Fetch fallbackUrl])
    /\ (exists a b, page_content page = a ++ trim scansPage ++ b)
    /\ page = referencePage (trim scansPage) (Some (str "API")) (str "<h1>API</h1>") 1.
Proof.
  destruct (not_found_fallback missingPages emptyPageCache 0 0 scansPage
              (mkHTML (str "not found") scansPage 404))
    as [page [urlObj [H1 [H2 [H3 [_ H5]]]]]].
  - vm_compute. reflexivity.
  - vm_compute. reflexivity.
  - vm_compute. reflexivity.
  - reflexivity.
  - assert (urlObj = mkURL (str "https:") (str "developer.tenable.com")
                       (str "/reference/scans-x")) as ->.
    { vm_compute in H1. injection H1 as <-. reflexivity. }
    exists page. split; [exact H2|]. split; [exact H3|].
    apply (proj1 (H5 eq_refl)).
    exists (mkHTML (str "<h1>API</h1>") fallbackUrl 200), (str "<h1>API</h1>").
    repeat split; vm_compute; reflexivity.
Defined.

End ReadFacts.

(** ** Markdown post-processing *)

Module ConverterFacts.
Import JS Converter.

Example collapse_four :
  collapseNewlines (str "a" ++ [LF; LF; LF; LF] ++ str "b" ++ [LF; LF] ++ str "c")
  = str "a" ++ [LF; LF] ++ str "b" ++ [LF; LF] ++ str "c".
Proof. reflexivity. Qed.

Example strip_blanks :
  stripTrailingBlanks (str "a  " ++ [LF] ++ str "b c " ++ [TAB])
  = str "a" ++ [LF] ++ str "b c".
Proof. reflexivity. Qed.

Example cleanMarkdown_example :
  cleanMarkdown ([LF; LF] ++ str "# T  " ++ [LF; LF; LF; LF] ++ str "text " ++ [LF])
  = str "# T" ++ [LF; LF] ++ str "text".
Proof. reflexivity. Qed.

(** Claim C7 at the failing input.  The input has two lines that hold
    one space each.  [cleanMarkdown] collapses the runs of line feeds
    before it strips the blanks at the line ends, so its output holds
    three line feeds in a row, and a second application collapses them:
    the two outputs differ. *)
Theorem cleanMarkdown_not_idempotent :
  cleanMarkdown blankLines = str "a" ++ [LF; LF; LF] ++ str "b"
  /\ cleanMarkdown (cleanMarkdown blankLines) = str "a" ++ [LF; LF] ++ str "b"
  /\ cleanMarkdown (cleanMarkdown blankLines) <> cleanMarkdown blankLines.
Proof.
  split; [reflexivity|]. split; [reflexivity|]. vm_compute. discriminate.
Qed.

End ConverterFacts.

(** ** Placeholders and the first occurrence of a pattern *)

Module PlaceholderFacts.
Import JS JSFacts Scraper ScraperSpec.

(** *** Decimal digits *)

Lemma string_of_uint_digits (d : Decimal.uint) :
  Forall (fun c => isDigit c = true)
         (list_ascii_of_string (NilEmpty.string_of_uint d)).
Proof. induction d; simpl; constructor; first [reflexivity | assumption]. Qed.

Lemma natToString_digits (n : nat) :
  Forall (fun c => isDigit c = true) (natToString n).
Proof. apply string_of_uint_digits. Qed.

Lemma natToString_inj (a b : nat) : natToString a = natToString b -> a = b.
Proof.
  unfold natToString. intros H.
  apply (f_equal string_of_list_ascii) in H.
  rewrite !string_of_list_ascii_of_string in H.
  apply (f_equal NilEmpty.uint_of_string) in H.
  rewrite !NilEmpty.usu in H. injection H as H.
  apply (f_equal Nat.of_uint) in H. rewrite !Unsigned.of_to in H. exact H.
Qed.

Lemma natToString_nonempty (n : nat) : natToString n <> [].
Proof.
  intros H. assert (n = 0) as ->.
  { apply natToString_inj. rewrite H. 
    assert (Nat.to_uint n = Decimal.Nil) as Hn.
    { unfold natToString in H. destruct (Nat.to_uint n); simpl in H;
        first [reflexivity | discriminate H]. }
    apply (f_equal Nat.of_uint) in Hn. rewrite Unsigned.of_to in Hn.
    subst n. discriminate H. }
  discriminate H.
Qed.

Lemma digit_not_underscore (c : ascii) : isDigit c = true -> Ascii.eqb c "_" = false.
Proof. each_unit c; intros H; first [reflexivity | discriminate H]. Qed.

Lemma underscore_not_digit (c : ascii) : isDigit c = true -> Ascii.eqb "_" c = false.
Proof. each_unit c; intros H; first [reflexivity | discriminate H]. Qed.

Lemma startsWith_cons (a b : ascii) (p s : jsstring) :
  startsWith (a :: p) (b :: s) = Ascii.eqb a b && startsWith p s.
Proof. reflexivity. Qed.

(** Two runs of digits that are each followed by underscores and of which
    one text starts with the other are the same run. *)
Lemma digits_then_underscores (a b x : jsstring) :
  Forall (fun c => isDigit c = true) a ->
  Forall (fun c => isDigit c = true) b ->
  startsWith (a ++ str "__") (b ++ str "__" ++ x) = true -> a = b.
Proof.
  unfold str. cbn [list_ascii_of_string].
  intros Ha. revert b. induction Ha as [|c a Hc _ IH]; intros b Hb H.
  - destruct Hb as [|d b Hd _]; [reflexivity|].
    cbn [app] in H. rewrite startsWith_cons, (underscore_not_digit d Hd) in H.
    discriminate H.
  - destruct Hb as [|d b Hd Hb]; cbn [app] in H; rewrite startsWith_cons in H.
    + rewrite (digit_not_underscore c Hc) in H. discriminate H.
    + apply andb_true_iff in H as [Hcd H].
      apply Ascii.eqb_eq in Hcd. subst d. f_equal. exact (IH b Hb H).
Qed.

(** *** Prefixes *)

Lemma startsWith_nil_r (p : jsstring) : p <> [] -> startsWith p [] = false.
Proof. destruct p; [contradiction | reflexivity]. Qed.

Lemma startsWith_prefix (a b s : jsstring) :
  startsWith (a ++ b) s = true -> startsWith a s = true.
Proof.
  rewrite !startsWith_spec. intros [t ->]. exists (b ++ t). symmetry. apply app_assoc.
Qed.

Lemma startsWith_cancel (a b s : jsstring) :
  startsWith (a ++ b) (a ++ s) = startsWith b s.
Proof.
  induction a as [|c a IH]; simpl; [reflexivity|].
  rewrite Ascii.eqb_refl. exact IH.
Qed.

(** A pattern that matches in [u ++ t] and is not longer than [u]
    matches in [u]. *)
Lemma startsWith_within (p u t : jsstring) :
  startsWith p (u ++ t) = true -> length p <= length u -> startsWith p u = true.
Proof.
  revert u. induction p as [|a p IH]; intros u H Hlen; [reflexivity|].
  destruct u as [|b u]; [simpl in Hlen; lia|].
  simpl in *. apply andb_true_iff in H as [Hab H]. rewrite Hab. simpl.
  apply IH; [exact H | lia].
Qed.

(** A pattern that matches in [u ++ t] and is longer than [u] starts with
    [u], and the rest of it matches in [t]. *)
Lemma startsWith_across (p u t : jsstring) :
  startsWith p (u ++ t) = true -> length u <= length p ->
  startsWith u p = true /\ startsWith (drop (length u) p) t = true.
Proof.
  revert p. induction u as [|b u IH]; intros p H Hlen.
  - split; [reflexivity | exact H].
  - destruct p as [|a p]; [simpl in Hlen; lia|].
    simpl in *. apply andb_true_iff in H as [Hab H].
    apply Ascii.eqb_eq in Hab. subst b. rewrite Ascii.eqb_refl. simpl.
    apply IH; [exact H | lia].
Qed.

Lemma includes_false_parts (p a b c : jsstring) :
  includes p (a ++ b ++ c) = false -> includes p b = false.
Proof.
  intros H. destruct (includes p b) eqn:Hb; [|reflexivity].
  apply includes_spec in Hb as [x [y ->]].
  assert (includes p (a ++ (x ++ p ++ y) ++ c) = true) as Ht.
  { apply includes_spec. exists (a ++ x), (y ++ c).
    rewrite <- !app_assoc. reflexivity. }
  congruence.
Qed.

(** *** The first occurrence *)

Lemma splitAtFirst_here (p s : jsstring) :
  startsWith p s = true -> splitAtFirst p s = Some ([], drop (length p) s).
Proof. intros H. destruct s; simpl in *; rewrite H; reflexivity. Qed.

Lemma splitAtFirst_nil (p : jsstring) : p <> [] -> splitAtFirst p [] = None.
Proof. intros H. simpl. rewrite (startsWith_nil_r p H). reflexivity. Qed.

Lemma noMatch_tail (p : jsstring) (c : ascii) (pre post : jsstring) :
  noMatch p (c :: pre) post -> noMatch p pre post.
Proof. intros H k Hk. apply (H (S k)). simpl. lia. Qed.

(** The search goes over a part in which the pattern matches nowhere. *)
Lemma splitAtFirst_skip (p pre post : jsstring) :
  noMatch p pre post ->
  splitAtFirst p (pre ++ post)
  = match splitAtFirst p post with
    | Some (before, after) => Some (pre ++ before, after)
    | None => None
    end.
Proof.
  induction pre as [|c pre IH]; intros H.
  - simpl. destruct (splitAtFirst p post) as [[b a]|]; reflexivity.
  - pose proof (H 0 ltac:(simpl; lia)) as H0. simpl in H0.
    change ((c :: pre) ++ post) with (c :: (pre ++ post)).
    cbn [splitAtFirst]. rewrite H0, (IH (noMatch_tail _ _ _ _ H)).
    destruct (splitAtFirst p post) as [[b a]|]; reflexivity.
Qed.

Lemma noMatch_app (p a b post : jsstring) :
  noMatch p a (b ++ post) -> noMatch p b post -> noMatch p (a ++ b) post.
Proof.
  intros Ha Hb k Hk. rewrite length_app in Hk.
  destruct (Nat.lt_ge_cases k (length a)) as [Hlt|Hge].
  - rewrite drop_app_le by lia. rewrite <- app_assoc. apply Ha. exact Hlt.
  - rewrite drop_app_ge by lia. apply Hb. lia.
Qed.

Lemma noMatch_first_unit (p pre post : jsstring) (a : ascii) :
  Forall (fun c => Ascii.eqb a c = false) pre ->
  noMatch (a :: p) pre post.
Proof.
  intros H k Hk. 
  destruct (pre !! k) as [c|] eqn:Hc; [|apply lookup_ge_None in Hc; lia].
  rewrite (drop_S _ _ _ Hc). simpl.
  rewrite Forall_forall in H. rewrite (H c); [reflexivity|].
  apply list_elem_of_lookup. exists k. exact Hc.
Qed.

(** *** The shape of a placeholder *)

Lemma placeholder_shape (i : nat) :
  placeholder i = placeholderStart ++ natToString i ++ str "__".
Proof. reflexivity. Qed.

Lemma placeholderStart_core : placeholderStart = str "__" ++ placeholderCore.
Proof. reflexivity. Qed.

(** The digits and underscores after the start of a placeholder begin
    with a digit. *)
Lemma placeholder_digits (i : nat) :
  exists d0 D, natToString i ++ str "__" = d0 :: D /\ Ascii.eqb d0 "_" = false.
Proof.
  pose proof (natToString_digits i) as Hd. pose proof (natToString_nonempty i) as Hn.
  destruct (natToString i) as [|d0 ds]; [contradiction|].
  apply Forall_cons in Hd as [Hd _].
  exists d0, (ds ++ str "__"). split; [reflexivity|].
  apply digit_not_underscore. exact Hd.
Qed.

(** The start of a placeholder does not overlap itself. *)
Lemma no_overlap_left (j : nat) (d0 : ascii) (D X : jsstring) :
  1 <= j <= 12 -> Ascii.eqb d0 "_" = false ->
  startsWith (drop j placeholderStart ++ d0 :: D) (placeholderStart ++ X) = false.
Proof.
  intros [H1 H2] Hd.
  do 13 (destruct j as [|j];
         [first [lia
                | cbv [placeholderStart str list_ascii_of_string drop app];
                  rewrite startsWith_cons, startsWith_cons, ?Hd; reflexivity]|]).
  lia.
Qed.

Lemma no_overlap_right (k : nat) (d0 : ascii) (D Y : jsstring) :
  1 <= k <= 12 -> Ascii.eqb d0 "_" = false ->
  startsWith (placeholderStart ++ Y) (drop k placeholderStart ++ d0 :: D) = false.
Proof.
  intros [H1 H2] Hd. rewrite Ascii.eqb_sym in Hd.
  do 13 (destruct k as [|k];
         [first [lia
                | cbv [placeholderStart str list_ascii_of_string drop app];
                  rewrite startsWith_cons, startsWith_cons, ?Hd; reflexivity]|]).
  lia.
Qed.

Lemma drop_start_core (k0 : nat) :
  k0 <= 2 -> exists x, drop k0 placeholderStart = x ++ placeholderCore.
Proof.
  intros H. destruct k0 as [|[|[|k0]]]; [| | |lia].
  - exists (str "__"). reflexivity.
  - exists (str "_"). reflexivity.
  - exists []. reflexivity.
Qed.

(** A placeholder from which at most its two first underscores were
    taken does not match at the start of a text made of a piece without
    the core of a placeholder and then nothing or a placeholder; with no
    underscore taken the piece is not empty. *)
Lemma no_match_across (i k0 : nat) (s t : jsstring) :
  k0 <= 2 ->
  (k0 = 0 -> s <> []) ->
  includes placeholderCore s = false ->
  emptyOrStarts placeholderStart t ->
  startsWith (drop k0 (placeholder i)) (s ++ t) = false.
Proof.
  intros Hk0 Hs Hcore Ht.
  destruct (startsWith (drop k0 (placeholder i)) (s ++ t)) eqn:Hm; [|reflexivity].
  exfalso. rewrite placeholder_shape in Hm.
  assert (length placeholderStart = 13) as Hlen by reflexivity.
  rewrite drop_app_le in Hm by lia.
  destruct (placeholder_digits i) as [d0 [D [HD Hd0]]]. rewrite HD in Hm.
  destruct (Nat.le_gt_cases (13 - k0) (length s)) as [Hlong|Hshort].
  - apply startsWith_prefix in Hm.
    apply startsWith_within in Hm; [|rewrite length_drop; lia].
    apply startsWith_spec in Hm as [s' ->].
    destruct (drop_start_core k0 Hk0) as [x Hx]. rewrite Hx in Hcore.
    assert (includes placeholderCore ((x ++ placeholderCore) ++ s') = true) as Hin.
    { apply includes_spec. exists x, s'. rewrite <- app_assoc. reflexivity. }
    congruence.
  - apply startsWith_across in Hm as [_ Hm];
      [|rewrite length_app, length_drop; simpl; lia].
    rewrite drop_app_le in Hm by (rewrite length_drop; lia).
    rewrite drop_drop in Hm.
    destruct Ht as [->|[X ->]].
    + rewrite startsWith_nil_r in Hm; [discriminate Hm|].
      destruct (drop (k0 + length s) placeholderStart); discriminate.
    + rewrite no_overlap_left in Hm; [discriminate Hm| |exact Hd0].
      destruct s as [|c s]; [|simpl in *; lia].
      destruct k0; [exfalso; apply Hs; reflexivity | simpl; lia].
Qed.

(** A placeholder matches nowhere in a piece without the core of a
    placeholder that is followed by nothing or by a placeholder. *)
Lemma noMatch_segment (i : nat) (s t : jsstring) :
  includes placeholderCore s = false ->
  emptyOrStarts placeholderStart t ->
  noMatch (placeholder i) s t.
Proof.
  intros Hcore Ht k Hk.
  apply (no_match_across i 0 (drop k s) t); [lia | | | exact Ht].
  - intros _ H. apply (f_equal length) in H. rewrite length_drop in H. simpl in H. lia.
  - apply (includes_false_parts _ (take k s) _ []).
    rewrite app_nil_r, take_drop. exact Hcore.
Qed.

(** A placeholder matches nowhere in another placeholder that is followed
    by such a piece. *)
Lemma noMatch_placeholder (i m : nat) (s t : jsstring) :
  m <> i ->
  includes placeholderCore s = false ->
  emptyOrStarts placeholderStart t ->
  noMatch (placeholder i) (placeholder m) (s ++ t).
Proof.
  intros Hne Hcore Ht.
  rewrite (placeholder_shape m).
  apply noMatch_app; [|apply noMatch_app].
  - intros k Hk. change (length placeholderStart) with 13 in Hk.
    destruct (placeholder_digits m) as [d0 [D [HD Hd0]]].
    destruct k as [|k].
    + rewrite drop_0, placeholder_shape.
      destruct (startsWith _ _) eqn:Hm; [|reflexivity]. exfalso.
      rewrite <- !app_assoc, startsWith_cancel in Hm.
      apply digits_then_underscores in Hm; try apply natToString_digits.
      apply natToString_inj in Hm. congruence.
    + rewrite <- app_assoc, placeholder_shape.
      replace (natToString m ++ str "__" ++ s ++ t) with (d0 :: (D ++ s ++ t))
        by (change (d0 :: (D ++ s ++ t)) with ((d0 :: D) ++ s ++ t);
            rewrite <- HD, <- app_assoc; reflexivity).
      apply no_overlap_right; [lia | exact Hd0].
  - rewrite placeholder_shape. apply noMatch_first_unit.
    eapply Forall_impl; [apply natToString_digits|].
    intros c Hc. apply underscore_not_digit. exact Hc.
  - intros k Hk. change (length (str "__")) with 2 in Hk.
    destruct k as [|[|k]]; [| |lia].
    + change (drop 0 (str "__") ++ s ++ t) with (str "__" ++ s ++ t).
      replace (placeholder i) with (str "__" ++ drop 2 (placeholder i)) by reflexivity.
      rewrite startsWith_cancel.
      apply no_match_across; [lia | discriminate | exact Hcore | exact Ht].
    + change (drop 1 (str "__") ++ s ++ t) with (str "_" ++ s ++ t).
      replace (placeholder i) with (str "_" ++ drop 1 (placeholder i)) by reflexivity.
      rewrite startsWith_cancel.
      apply no_match_across; [lia | discriminate | exact Hcore | exact Ht].
Qed.

End PlaceholderFacts.

(** ** Restoring the placeholders of a text *)

Module RestoreFacts.
Import JS JSFacts Scraper ScraperSpec PlaceholderFacts.

(** The lemmas of this module use a placeholder through the lemmas on its
    shape only. *)
Opaque placeholder.

Lemma withPlaceholders_prepend (s : jsstring) (m : Marked) :
  withPlaceholders (prepend s m) = s ++ withPlaceholders m.
Proof. destruct m; simpl; [reflexivity | symmetry; apply app_assoc]. Qed.

Lemma withOriginals_prepend (f : nat -> jsstring) (s : jsstring) (m : Marked) :
  withOriginals f (prepend s m) = s ++ withOriginals f m.
Proof. destruct m; simpl; [reflexivity | symmetry; apply app_assoc]. Qed.

Lemma holes_prepend (s : jsstring) (m : Marked) : holes (prepend s m) = holes m.
Proof. destruct m; reflexivity. Qed.

(** After a placeholder the text goes on with a piece and then nothing or
    a placeholder. *)
Lemma withPlaceholders_view (m : Marked) :
  exists s t, withPlaceholders m = s ++ t
              /\ s ∈ segments m
              /\ emptyOrStarts placeholderStart t.
Proof.
  destruct m as [s|s j rest]; cbn [withPlaceholders segments].
  - exists s, []. split; [symmetry; apply app_nil_r|].
    split; [left | left; reflexivity].
  - exists s, (placeholder j ++ withPlaceholders rest).
    split; [reflexivity|]. split; [left|].
    right. rewrite placeholder_shape, <- app_assoc. eexists. reflexivity.
Qed.

Lemma placeholder_nonempty (i : nat) : placeholder i <> [].
Proof. rewrite placeholder_shape. discriminate. Qed.

(** The search for a placeholder in a text with placeholders whose pieces
    hold no core of a placeholder finds the first placeholder of that
    index. *)
Lemma splitAtFirst_placeholder (i : nat) (m : Marked) :
  Forall (fun s => includes placeholderCore s = false) (segments m) ->
  splitAtFirst (placeholder i) (withPlaceholders m) = findHole i m.
Proof.
  induction m as [s|s j rest IH]; intros Hpure;
    cbn [withPlaceholders segments findHole] in *.
  - apply Forall_cons in Hpure as [Hs _].
    rewrite <- (app_nil_r s).
    rewrite splitAtFirst_skip
      by (apply noMatch_segment; [exact Hs | left; reflexivity]).
    rewrite splitAtFirst_nil by apply placeholder_nonempty. reflexivity.
  - apply Forall_cons in Hpure as [Hs Hrest].
    rewrite splitAtFirst_skip; cycle 1.
    { apply noMatch_segment; [exact Hs|]. right.
      rewrite placeholder_shape, <- app_assoc. eexists. reflexivity. }
    destruct (decide (j = i)) as [->|Hne].
    + rewrite splitAtFirst_here by apply startsWith_app.
      rewrite drop_app_length, app_nil_r. reflexivity.
    + destruct (withPlaceholders_view rest) as [s1 [t [Hview [Hin Ht]]]].
      rewrite Hview, splitAtFirst_skip; cycle 1.
      { apply noMatch_placeholder; [exact Hne | | exact Ht].
        rewrite Forall_forall in Hrest. exact (Hrest s1 Hin). }
      rewrite <- Hview, (IH Hrest).
      destruct (findHole i rest) as [[b a]|]; reflexivity.
Qed.

Lemma withPlaceholders_fill (i : nat) (o : jsstring) (m : Marked) :
  withPlaceholders (fill i o m)
  = match findHole i m with
    | Some (before, after) => before ++ o ++ after
    | None => withPlaceholders m
    end.
Proof.
  induction m as [s|s j rest IH]; simpl; [reflexivity|].
  destruct (decide (j = i)) as [->|Hne].
  - rewrite withPlaceholders_prepend, <- app_assoc. reflexivity.
  - simpl. rewrite IH. destruct (findHole i rest) as [[b a]|]; [|reflexivity].
    rewrite <- !app_assoc. reflexivity.
Qed.

Lemma findHole_some (i : nat) (m : Marked) : i ∈ holes m <-> is_Some (findHole i m).
Proof.
  induction m as [s|s j rest IH]; simpl.
  - split; [intros H; inversion H | intros [x H]; discriminate H].
  - rewrite elem_of_cons. destruct (decide (j = i)) as [->|Hne].
    + split; [intros _; eexists; reflexivity | intros _; left; reflexivity].
    + rewrite IH. destruct (findHole i rest) as [[b a]|].
      * split; [intros _; eexists; reflexivity | intros _; right; eexists; reflexivity].
      * split; [intros [->|[x H]]; [contradiction | discriminate H]
               | intros [x H]; discriminate H].
Qed.

(** A replacement text in which no dollar starts a pattern is inserted as
    it is. *)
Lemma substitution_plain (matched before after o : jsstring) :
  literalReplacement o = true ->
  substitution matched before after o = o.
Proof.
  induction o as [|c o IH]; [reflexivity|].
  cbn [literalReplacement]. intros H. apply andb_true_iff in H as [Hc Ho].
  specialize (IH Ho). cbn [substitution].
  destruct (Ascii.eqb c "$") eqn:Hd.
  - apply Ascii.eqb_eq in Hd. subst c. destruct o as [|d o']; [reflexivity|].
    cbn [andb negb] in Hc. apply negb_true_iff in Hc. unfold isPatternUnit in Hc.
    apply orb_false_iff in Hc as [Hc Hq]. apply orb_false_iff in Hc as [Hc Hb].
    apply orb_false_iff in Hc as [Hs Ha].
    rewrite Hs, Ha, Hb, Hq, IH. reflexivity.
  - rewrite IH. reflexivity.
Qed.

(** One step of [restoreCodeBlocks] fills the first placeholder of the
    entry, when there is one. *)
Lemma replaceFirst_fill (i : nat) (o : jsstring) (m : Marked) :
  Forall (fun s => includes placeholderCore s = false) (segments m) ->
  (i ∈ holes m -> literalReplacement o = true) ->
  replaceFirst (withPlaceholders m) (placeholder i) o = withPlaceholders (fill i o m).
Proof.
  intros Hpure Ho. unfold replaceFirst.
  rewrite (splitAtFirst_placeholder i m Hpure), withPlaceholders_fill.
  destruct (findHole i m) as [[b a]|] eqn:Hf; [|reflexivity].
  rewrite substitution_plain; [reflexivity|].
  apply Ho, findHole_some. rewrite Hf. eexists. reflexivity.
Qed.

Lemma withOriginals_fill (f : nat -> jsstring) (i : nat) (m : Marked) :
  withOriginals f (fill i (f i) m) = withOriginals f m.
Proof.
  induction m as [s|s j rest IH]; simpl; [reflexivity|].
  destruct (decide (j = i)) as [->|Hne].
  - rewrite withOriginals_prepend, <- app_assoc. reflexivity.
  - simpl. rewrite IH. reflexivity.
Qed.

Lemma filter_all (P : nat -> Prop) `{forall x, Decision (P x)} (l : list nat) :
  Forall P l -> filter P l = l.
Proof.
  induction 1 as [|x l Hx _ IH]; [reflexivity|].
  rewrite filter_cons_True by exact Hx. rewrite IH. reflexivity.
Qed.

Lemma holes_fill (i : nat) (o : jsstring) (m : Marked) :
  NoDup (holes m) -> holes (fill i o m) = filter (fun h => h <> i) (holes m).
Proof.
  induction m as [s|s j rest IH]; simpl; [reflexivity|].
  intros Hnd. apply NoDup_cons in Hnd as [Hj Hnd].
  destruct (decide (j = i)) as [->|Hne].
  - rewrite holes_prepend, filter_cons_False by (intros H; apply H; reflexivity).
    symmetry. apply filter_all. apply Forall_forall. intros h Hh ->. contradiction.
  - simpl. rewrite (IH Hnd), filter_cons_True by exact Hne. reflexivity.
Qed.

(** The pieces of a text whose restored form holds no core of a
    placeholder hold none. *)
Lemma segments_pure (f : nat -> jsstring) (m : Marked) :
  includes placeholderCore (withOriginals f m) = false ->
  Forall (fun s => includes placeholderCore s = false) (segments m).
Proof.
  induction m as [s|s j rest IH]; simpl; intros H.
  - constructor; [exact H | constructor].
  - constructor.
    + apply (includes_false_parts _ [] s (f j ++ withOriginals f rest)). exact H.
    + apply IH. apply (includes_false_parts _ (s ++ f j) _ []).
      rewrite app_nil_r, <- app_assoc. exact H.
Qed.

Lemma no_holes_plain (f : nat -> jsstring) (m : Marked) :
  holes m = [] -> withPlaceholders m = withOriginals f m.
Proof. destruct m; [reflexivity | discriminate]. Qed.

(** [restoreCodeBlocks] on the entries of the indices [k], [k + 1], ...
    fills every placeholder of the text, when the indices of its
    placeholders are pairwise different and among those of the entries,
    the restored text holds no core of a placeholder and in the markup
    to insert no dollar starts a pattern. *)
Lemma restore_from (f : nat -> jsstring) (originals : list jsstring) (k : nat)
    (m : Marked) :
  (forall j o, originals !! j = Some o -> f (k + j) = o) ->
  NoDup (holes m) ->
  Forall (fun h => k <= h < k + length originals) (holes m) ->
  includes placeholderCore (withOriginals f m) = false ->
  Forall (fun h => literalReplacement (f h) = true) (holes m) ->
  restoreCodeBlocks (withPlaceholders m)
    (imap (fun j o => (placeholder (k + j), o)) originals)
  = withOriginals f m.
Proof.
  revert k m. induction originals as [|o originals IH]; intros k m Hf Hnd Hrange Hpure Hdollar.
  - simpl. apply no_holes_plain.
    destruct (holes m) as [|h hs]; [reflexivity|].
    apply Forall_cons in Hrange as [Hh _]. simpl in Hh. lia.
  - unfold restoreCodeBlocks in *. cbn [imap fold_left fst snd].
    assert (f k = o) as Hk by (rewrite <- (Nat.add_0_r k); apply Hf; reflexivity).
    rewrite Nat.add_0_r, replaceFirst_fill; cycle 1.
    { exact (segments_pure f m Hpure). }
    { intros Hin. rewrite Forall_forall in Hdollar. rewrite <- Hk. exact (Hdollar k Hin). }
    rewrite (imap_ext _ (fun j o' => (placeholder (S k + j), o')))
      by (intros j o' _; simpl; f_equal; f_equal; lia).
    rewrite <- (withOriginals_fill f k m), Hk.
    apply IH.
    + intros j o' Hj. replace (S k + j) with (k + S j) by lia. apply Hf. exact Hj.
    + rewrite (holes_fill _ _ _ Hnd). apply NoDup_filter. exact Hnd.
    + rewrite (holes_fill _ _ _ Hnd). apply Forall_forall. intros h Hh.
      apply list_elem_of_filter in Hh as [Hne Hh].
      rewrite Forall_forall in Hrange. specialize (Hrange h Hh). simpl in Hrange. lia.
    + rewrite <- Hk, withOriginals_fill. exact Hpure.
    + rewrite (holes_fill _ _ _ Hnd). apply Forall_forall. intros h Hh.
      apply list_elem_of_filter in Hh as [_ Hh].
      rewrite Forall_forall in Hdollar. exact (Hdollar h Hh).
Qed.

Transparent placeholder.

End RestoreFacts.

(** ** Code blocks kept through the cleaning *)

Module ScraperFacts.
Import JS JSFacts Scraper ScraperSpec ScraperExamples PlaceholderFacts RestoreFacts.

(** Induction on a document tree. *)
Lemma Node_induction (P : Node -> Prop) :
  (forall s, P (Leaf s)) ->
  (forall tag attribs children, Forall P children -> P (Element tag attribs children)) ->
  forall n, P n.
Proof.
  intros HL HE. fix IH 1. intros [s|tag attribs children].
  - apply HL.
  - apply HE. induction children as [|c cs IHcs]; constructor; [apply IH | exact IHcs].
Qed.

Lemma replaceIn_element (ch : Cheerio) (k : nat) tag attribs (children : list Node) :
  replaceIn ch k (Element tag attribs children)
  = if isCodeElement tag attribs then Leaf (placeholder k)
    else Element tag attribs (replaceAll ch k children).
Proof.
  cbn [replaceIn]. destruct (isCodeElement tag attribs); [reflexivity|].
  f_equal. revert k. induction children as [|c cs IH]; intros k; [reflexivity|].
  cbn [replaceAll]. f_equal. apply IH.
Qed.

Lemma markedNode_element (ch : Cheerio) (k : nat) tag attribs (children : list Node) :
  markedNode ch k (Element tag attribs children)
  = if isCodeElement tag attribs then Hole [] k (Plain [])
    else prepend (openTag ch tag attribs)
           (append (markedAll ch k children) (Plain (closeTag ch tag))).
Proof.
  cbn [markedNode]. destruct (isCodeElement tag attribs); [reflexivity|].
  f_equal. f_equal. revert k. induction children as [|c cs IH]; intros k; [reflexivity|].
  cbn [markedAll]. f_equal. apply IH.
Qed.

Lemma withPlaceholders_append (a b : Marked) :
  withPlaceholders (append a b) = withPlaceholders a ++ withPlaceholders b.
Proof.
  induction a as [s|s i rest IH]; cbn [append withPlaceholders] in *.
  - apply withPlaceholders_prepend.
  - rewrite IH, <- !app_assoc. reflexivity.
Qed.

Lemma withOriginals_append (f : nat -> jsstring) (a b : Marked) :
  withOriginals f (append a b) = withOriginals f a ++ withOriginals f b.
Proof.
  induction a as [s|s i rest IH]; cbn [append withOriginals] in *.
  - apply withOriginals_prepend.
  - rewrite IH, <- !app_assoc. reflexivity.
Qed.

Lemma holes_append (a b : Marked) : holes (append a b) = holes a ++ holes b.
Proof.
  induction a as [s|s i rest IH]; cbn [append holes] in *.
  - apply holes_prepend.
  - rewrite IH. reflexivity.
Qed.

(** The text with placeholders of a document is the markup of the
    document after the loop of [preserveCodeBlocks]. *)
Lemma markedNode_placeholders (ch : Cheerio) (n : Node) :
  forall k, withPlaceholders (markedNode ch k n) = outerHTML ch (replaceIn ch k n).
Proof.
  induction n as [s|tag attribs children IH] using Node_induction; intros k.
  - reflexivity.
  - rewrite markedNode_element, replaceIn_element.
    destruct (isCodeElement tag attribs).
    + cbn [withPlaceholders outerHTML]. rewrite app_nil_r. reflexivity.
    + rewrite withPlaceholders_prepend, withPlaceholders_append.
      cbn [outerHTML withPlaceholders]. f_equal. f_equal.
      revert k. induction IH as [|c cs Hc _ IHcs]; intros k; [reflexivity|].
      cbn [markedAll replaceAll map concat].
      rewrite withPlaceholders_append, Hc, IHcs. reflexivity.
Qed.

Lemma markedAll_placeholders (ch : Cheerio) (doc : list Node) (k : nat) :
  withPlaceholders (markedAll ch k doc) = serialize ch (replaceAll ch k doc).
Proof.
  unfold serialize. revert k. induction doc as [|c cs IH]; intros k; [reflexivity|].
  cbn [markedAll replaceAll map concat].
  rewrite withPlaceholders_append, markedNode_placeholders, IH. reflexivity.
Qed.

(** With the recorded markup at the place of each placeholder the text
    is the markup of the document. *)
Lemma markedNode_originals (ch : Cheerio) (f : nat -> jsstring) (n : Node) :
  forall k,
    (forall j o, selected ch n !! j = Some o -> f (k + j) = o) ->
    withOriginals f (markedNode ch k n) = outerHTML ch n.
Proof.
  induction n as [s|tag attribs children IH] using Node_induction; intros k Hf.
  - reflexivity.
  - rewrite markedNode_element. cbn [selected] in Hf.
    destruct (isCodeElement tag attribs).
    + cbn [withOriginals]. rewrite app_nil_r. cbn [app].
      rewrite <- (Nat.add_0_r k). apply Hf. reflexivity.
    + cbn [app] in Hf. rewrite withOriginals_prepend, withOriginals_append.
      cbn [outerHTML withOriginals]. f_equal. f_equal.
      revert k Hf. induction IH as [|c cs Hc _ IHcs]; intros k Hf; [reflexivity|].
      cbn [markedAll map concat] in *. rewrite withOriginals_append. f_equal.
      * apply Hc. intros j o Hj. apply Hf. apply lookup_app_l_Some. exact Hj.
      * apply IHcs. intros j o Hj.
        rewrite <- Nat.add_assoc. apply Hf.
        rewrite lookup_app_r by lia.
        replace (length (selected ch c) + j - length (selected ch c)) with j by lia.
        exact Hj.
Qed.

Lemma markedAll_originals (ch : Cheerio) (f : nat -> jsstring) (doc : list Node)
    (k : nat) :
  (forall j o, selectedIn ch doc !! j = Some o -> f (k + j) = o) ->
  withOriginals f (markedAll ch k doc) = serialize ch doc.
Proof.
  unfold serialize, selectedIn. revert k.
  induction doc as [|c cs IH]; intros k Hf; [reflexivity|].
  cbn [markedAll map concat] in *. rewrite withOriginals_append. f_equal.
  - apply markedNode_originals. intros j o Hj. apply Hf.
    apply lookup_app_l_Some. exact Hj.
  - apply IH. intros j o Hj. rewrite <- Nat.add_assoc. apply Hf.
    rewrite lookup_app_r by lia.
    replace (length (selected ch c) + j - length (selected ch c)) with j by lia.
    exact Hj.
Qed.

Lemma holesWithin_append (k la lb : nat) (a b : Marked) :
  holesWithin k la a -> holesWithin (k + la) lb b ->
  holesWithin k (la + lb) (append a b).
Proof.
  intros [Hnda Ha] [Hndb Hb]. unfold holesWithin. rewrite holes_append.
  rewrite Forall_forall in Ha, Hb. split.
  - apply NoDup_app. split; [exact Hnda|]. split; [|exact Hndb].
    intros h H1 H2. specialize (Ha h H1). specialize (Hb h H2). simpl in *. lia.
  - apply Forall_app. split; apply Forall_forall; intros h Hh.
    + specialize (Ha h Hh). simpl in *. lia.
    + specialize (Hb h Hh). simpl in *. lia.
Qed.

Lemma holesWithin_plain (k : nat) (s : jsstring) : holesWithin k 0 (Plain s).
Proof. split; constructor. Qed.

Lemma holesWithin_prepend (k len : nat) (s : jsstring) (m : Marked) :
  holesWithin k len m -> holesWithin k len (prepend s m).
Proof. unfold holesWithin. rewrite holes_prepend. tauto. Qed.

Lemma holesWithin_more (k len len' : nat) (m : Marked) :
  len <= len' -> holesWithin k len m -> holesWithin k len' m.
Proof.
  intros Hle [Hnd Hr]. split; [exact Hnd|].
  eapply Forall_impl; [exact Hr|]. intros h Hh. simpl in *. lia.
Qed.

(** The placeholders of the text of a document: their indices are
    pairwise different and are indices of recorded markup. *)
Lemma markedNode_holes (ch : Cheerio) (n : Node) :
  forall k, holesWithin k (length (selected ch n)) (markedNode ch k n).
Proof.
  induction n as [s|tag attribs children IH] using Node_induction; intros k.
  - apply holesWithin_plain.
  - rewrite markedNode_element. cbn [selected].
    destruct (isCodeElement tag attribs).
    + split; cbn [holes].
      * apply NoDup_singleton.
      * constructor; [|constructor]. rewrite length_app. simpl. lia.
    + cbn [app]. apply holesWithin_prepend.
      rewrite <- (Nat.add_0_r (length _)).
      apply holesWithin_append; [|apply holesWithin_plain].
      revert k. induction IH as [|c cs Hc _ IHcs]; intros k.
      * apply holesWithin_plain.
      * cbn [markedAll map concat]. rewrite length_app.
        apply holesWithin_append; [apply Hc | apply IHcs].
Qed.

Lemma markedAll_holes (ch : Cheerio) (doc : list Node) (k : nat) :
  holesWithin k (length (selectedIn ch doc)) (markedAll ch k doc).
Proof.
  unfold selectedIn. revert k. induction doc as [|c cs IH]; intros k.
  - apply holesWithin_plain.
  - cbn [markedAll map concat]. rewrite length_app.
    apply holesWithin_append; [apply markedNode_holes | apply IH].
Qed.

Lemma originalOf_lookup (originals : list jsstring) (j : nat) (o : jsstring) :
  originals !! j = Some o -> originalOf originals (0 + j) = o.
Proof. intros H. unfold originalOf. simpl. rewrite H. reflexivity. Qed.

(** The general statement on [restoreCodeBlocks]: on a text with
    placeholders of recorded markup, each once at most, it puts the
    recorded markup at the place of each placeholder and changes nothing
    else, when the result holds no core of a placeholder and no dollar
    starts a pattern in the markup recorded for the placeholders of the
    text. *)
Lemma restoreCodeBlocks_marked (originals : list jsstring) (m : Marked) :
  Forall (fun h => literalReplacement (originalOf originals h) = true) (holes m) ->
  holesWithin 0 (length originals) m ->
  includes placeholderCore (withOriginals (originalOf originals) m) = false ->
  restoreCodeBlocks (withPlaceholders m) (codeBlocksOf originals)
  = withOriginals (originalOf originals) m.
Proof.
  intros Hdollar [Hnd Hrange] Hpure. unfold codeBlocksOf.
  apply (restore_from (originalOf originals) originals 0 m).
  - apply originalOf_lookup.
  - exact Hnd.
  - exact Hrange.
  - exact Hpure.
  - exact Hdollar.
Qed.

(** When all the recorded markup is free of patterns, so is the markup of
    every placeholder. *)
Lemma literal_originals (originals : list jsstring) (hs : list nat) :
  forallb literalReplacement originals = true ->
  Forall (fun h => literalReplacement (originalOf originals h) = true) hs.
Proof.
  intros Hall. apply Forall_forall. intros h _. unfold originalOf.
  destruct (originals !! h) as [o|] eqn:Ho; [|reflexivity]. cbn [default].
  rewrite forallb_forall in Hall. apply Hall.
  apply list_elem_of_In, list_elem_of_lookup. exists h. exact Ho.
Qed.

Example preserve_example :
  preserveCodeBlocks plainCheerio codeDocument
  = (str "<html><head></head><body><p>x</p>" ++ placeholder 0 ++ placeholder 2
     ++ str "</body></html>",
     [(placeholder 0, str "<pre><code class=" ++ [quote] ++ str "language-js"
                      ++ [quote] ++ str ">a_b</code></pre>");
      (placeholder 1, str "<code class=" ++ [quote] ++ str "language-js"
                      ++ [quote] ++ str ">a_b</code>");
      (placeholder 2, str "<pre>c</pre>")]).
Proof. vm_compute. reflexivity. Qed.

Example restore_example :
  cleanHTMLPreservingCodeBlocks plainCheerio codeDocument = codeDocument.
Proof. vm_compute. reflexivity. Qed.

Example dollar_example :
  cleanHTMLPreservingCodeBlocks plainCheerio shellDocument
  = str "<html><head></head><body><pre>echo $</pre></body></html>".
Proof. vm_compute. reflexivity. Qed.

(** What [replace] makes of the dollars of a replacement text, for the
    match [M] between [B] and [A]: the four patterns are rewritten, every
    other dollar is kept. *)
Example patterns_example :
  substitution (str "M") (str "B") (str "A")
    (str "$$ $& $" ++ [backtick] ++ str " $' $1 ${a} $KEYS 5$")
  = str "$ M B A $1 ${a} $KEYS 5$".
Proof. vm_compute. reflexivity. Qed.

(** In [collisionDocument] the text [CODE_BLOCK_1__] follows the second
    [pre].  The placeholder of index 1, of the [code] inside the first
    [pre], is not in the text, but the end of the placeholder of index 2
    and the text after it read as one: the markup of the [code] is put
    there, and the second [pre] is lost. *)
Example collision_example :
  serialize plainCheerio (load plainCheerio collisionDocument) = collisionDocument
  /\ cleanHTMLPreservingCodeBlocks plainCheerio collisionDocument
     = str "<html><head></head><body><pre><code class=" ++ [quote] ++ str "hljs"
       ++ [quote] ++ str ">a</code></pre>__CODE_BLOCK_2<code class=" ++ [quote]
       ++ str "hljs" ++ [quote] ++ str ">a</code></body></html>".
Proof. vm_compute. split; reflexivity. Qed.

(** Claim C1, as stated, fails.  The parser puts the fragment [<p>hi</p>]
    in a document, and the markup of that document is what comes back,
    not the fragment.  The documents [shellDocument] and
    [collisionDocument] are left as they are by the parser and the
    serializer, and still do not come back.  In the first the block
    [<pre>echo $$</pre>] comes back as [<pre>echo $</pre>]: [replace]
    reads [$$] in the recorded markup as one dollar.  In the second a
    placeholder is found where there is none. *)
Lemma restore_is_not_identity :
  restoreCodeBlocks (fst (preserveCodeBlocks plainCheerio paragraph))
                    (snd (preserveCodeBlocks plainCheerio paragraph))
  <> paragraph
  /\ serialize plainCheerio (load plainCheerio shellDocument) = shellDocument
  /\ restoreCodeBlocks (fst (preserveCodeBlocks plainCheerio shellDocument))
                       (snd (preserveCodeBlocks plainCheerio shellDocument))
     <> shellDocument
  /\ cleanHTMLPreservingCodeBlocks plainCheerio shellDocument <> shellDocument
  /\ serialize plainCheerio (load plainCheerio collisionDocument) = collisionDocument
  /\ restoreCodeBlocks (fst (preserveCodeBlocks plainCheerio collisionDocument))
                       (snd (preserveCodeBlocks plainCheerio collisionDocument))
     <> collisionDocument.
Proof.
  split; [vm_compute; discriminate|].
  split; [vm_compute; reflexivity|].
  split; [vm_compute; discriminate|].
  split; [vm_compute; discriminate|].
  split; [vm_compute; reflexivity|].
  vm_compute; discriminate.
Qed.

Example variables_example :
  forallb literalReplacement
    (selectedIn variablesCheerio (load variablesCheerio variablesDocument)) = true
  /\ cleanHTMLPreservingCodeBlocks variablesCheerio variablesDocument = variablesDocument.
Proof. vm_compute. split; reflexivity. Qed.

(** Claim C1, amended.  [replace] reads a dollar of the recorded markup
    as the start of a pattern when [$], [&], a backtick or a quote
    follows it; every other dollar is kept.  The placeholder map holds
    the markup of the selected elements, and:
    - when no dollar of that markup is followed by one of these four
      units, restoring the map onto the output of [preserveCodeBlocks]
      yields the markup of the parsed document, that is the input as the
      parser and the serializer of the library write it, when that
      markup does not hold the text [CODE_BLOCK_];
    - when [cleanHTML] runs in between and leaves a text with
      placeholders of the map, each once at most, and no dollar of the
      markup recorded for these placeholders is followed by one of the
      four units, the final output is that text with the recorded markup
      of the element at the place of each placeholder, and nothing else
      is changed, when that output does not hold the text
      [CODE_BLOCK_]. *)
Theorem code_blocks_restored (ch : Cheerio) (html : jsstring) :
  let doc := load ch html in
  let originals := selectedIn ch doc in
  snd (preserveCodeBlocks ch html) = codeBlocksOf originals
  /\ (forallb literalReplacement originals = true ->
      includes placeholderCore (serialize ch doc) = false ->
      restoreCodeBlocks (fst (preserveCodeBlocks ch html))
                        (snd (preserveCodeBlocks ch html))
      = serialize ch doc)
  /\ (forall m : Marked,
         cleanHTML ch (fst (preserveCodeBlocks ch html)) = withPlaceholders m ->
         holesWithin 0 (length originals) m ->
         Forall (fun h => literalReplacement (originalOf originals h) = true) (holes m) ->
         includes placeholderCore (withOriginals (originalOf originals) m) = false ->
         cleanHTMLPreservingCodeBlocks ch html
         = withOriginals (originalOf originals) m).
Proof.
  intros doc originals. split; [reflexivity|]. split.
  - intros Hdollar Hpure. unfold preserveCodeBlocks. cbn [fst snd].
    fold doc. fold originals.
    rewrite <- (markedAll_placeholders ch doc 0).
    assert (withOriginals (originalOf originals) (markedAll ch 0 doc) = serialize ch doc)
      as Horig by (apply markedAll_originals, originalOf_lookup).
    rewrite <- Horig. apply restoreCodeBlocks_marked.
    + apply literal_originals. exact Hdollar.
    + apply markedAll_holes.
    + rewrite Horig. exact Hpure.
  - intros m Hclean Hholes Hdollar Hpure. unfold cleanHTMLPreservingCodeBlocks.
    rewrite Hclean. unfold preserveCodeBlocks. cbn [snd]. fold doc. fold originals.
    apply restoreCodeBlocks_marked; assumption.
Qed.

(** The document [variablesDocument] holds a [pre] with dollars, none of
    them before [$], [&], a backtick or a quote: it comes back as it
    is. *)
Lemma code_blocks_restored_witness :
  restoreCodeBlocks (fst (preserveCodeBlocks variablesCheerio variablesDocument))
                    (snd (preserveCodeBlocks variablesCheerio variablesDocument))
  = serialize variablesCheerio (load variablesCheerio variablesDocument).
Proof.
  destruct (code_blocks_restored variablesCheerio variablesDocument) as [_ [H _]].
  apply H; vm_compute; reflexivity.
Defined.

End ScraperFacts.

(** ** The cache under any sequence of calls *)

Module CacheProperties.
Import Cache CacheSpec CacheExamples CacheFacts.

Section WithValues.
Context {T : Type}.
Implicit Types (c : LRUCache T) (k key : jsstring) (now : Z).

(** In a consistent cache the map has as many entries as the recency
    order has keys. *)
Lemma consistent_size c : consistent c -> size (cache c) = length (accessOrder c).
Proof.
  intros [Hnd Hdom].
  rewrite <- (size_dom (D := gset jsstring)).
  rewrite <- (size_list_to_set (C := gset jsstring) _ Hnd).
  f_equal. apply set_eq. intros k.
  rewrite elem_of_dom, elem_of_list_to_set. symmetry. apply Hdom.
Qed.

Lemma removeFirst_filter key (order : list jsstring) :
  NoDup order -> removeFirst key order = filter (fun k => k <> key) order.
Proof.
  induction 1 as [|a order Ha Hnd IH]; simpl; [reflexivity|].
  destruct (decide (a = key)) as [->|Hne].
  - rewrite filter_cons_False by (intros H; apply H; reflexivity).
    rewrite <- IH. symmetry. apply removeFirst_absent. exact Ha.
  - rewrite filter_cons_True by exact Hne. rewrite IH. reflexivity.
Qed.

Lemma updateAccessOrder_consistent c key (m : gmap jsstring (CacheEntry T)) :
  consistent c ->
  (forall k, is_Some (m !! k) <-> is_Some (cache c !! k)) ->
  consistent (mkCache m (maxSize c) (ttl c) (updateAccessOrder (accessOrder c) key)).
Proof.
  intros [Hnd Hdom] Hm. unfold updateAccessOrder.
  destruct (decide (key ∈ accessOrder c)) as [Hin|Hout]; [|split; simpl;
    [exact Hnd | intros k; rewrite Hm; apply Hdom]].
  split; simpl.
  - apply NoDup_app. split; [apply removeFirst_NoDup; exact Hnd|].
    split; [|apply NoDup_singleton].
    intros x Hx Hx'. apply list_elem_of_singleton in Hx'. subst x.
    apply (removeFirst_elem _ _ _ Hnd) in Hx. tauto.
  - intros k. rewrite elem_of_app, (removeFirst_elem _ _ _ Hnd),
      list_elem_of_singleton, Hm, <- Hdom.
    destruct (decide (k = key)) as [->|Hne]; tauto.
Qed.

(** [get] keeps the cache consistent and adds no entry. *)
Lemma get_consistent c key now :
  consistent c -> consistent (snd (get c key now)).
Proof.
  intros Hc. unfold get. destruct (cache c !! key) as [e|] eqn:He; [|exact Hc].
  destruct (ttl c <? now - timestamp e)%Z; [apply delete_consistent; exact Hc|].
  apply updateAccessOrder_consistent; [exact Hc|].
  intros k. destruct (decide (k = key)) as [->|Hne].
  - rewrite lookup_insert_eq, He. split; intros _; eexists; reflexivity.
  - rewrite lookup_insert_ne by congruence. tauto.
Qed.

Lemma get_lookup_mono c key now k :
  cache c !! k = None -> cache (snd (get c key now)) !! k = None.
Proof.
  intros Hk. unfold get. destruct (cache c !! key) as [e|] eqn:He; [|exact Hk].
  destruct (ttl c <? now - timestamp e)%Z; simpl.
  - destruct (decide (k = key)) as [->|Hne];
      [apply lookup_delete_eq | rewrite lookup_delete_ne by congruence; exact Hk].
  - rewrite lookup_insert_ne by congruence. exact Hk.
Qed.

Lemma get_size c key now :
  size (cache (snd (get c key now))) <= size (cache c).
Proof.
  unfold get. destruct (cache c !! key) as [e|] eqn:He; [|reflexivity].
  destruct (ttl c <? now - timestamp e)%Z; simpl.
  - rewrite map_size_delete, He. lia.
  - rewrite map_size_insert_Some by (rewrite He; eexists; reflexivity). reflexivity.
Qed.

Lemma get_params c key now :
  maxSize (snd (get c key now)) = maxSize c /\ ttl (snd (get c key now)) = ttl c.
Proof.
  unfold get. destruct (cache c !! key) as [e|]; [|split; reflexivity].
  destruct (ttl c <? now - timestamp e)%Z; split; reflexivity.
Qed.

Lemma has_state c key now :
  snd (has c key now) = c \/ snd (has c key now) = snd (delete c key).
Proof.
  unfold has. destruct (cache c !! key) as [e|]; [|left; reflexivity].
  destruct (ttl c <? now - timestamp e)%Z; [right | left]; reflexivity.
Qed.

Lemma delete_size c key : size (cache (snd (delete c key))) <= size (cache c).
Proof. simpl. rewrite map_size_delete. destruct (cache c !! key); simpl; lia. Qed.

Lemma delete_lookup_mono c key k :
  cache c !! k = None -> cache (snd (delete c key)) !! k = None.
Proof.
  intros Hk. simpl. destruct (decide (k = key)) as [->|Hne];
    [apply lookup_delete_eq | rewrite lookup_delete_ne by congruence; exact Hk].
Qed.

Lemma deleteAll_cons c key (keys : list jsstring) :
  deleteAll c (key :: keys) = deleteAll (snd (delete c key)) keys.
Proof. reflexivity. Qed.

(** The map after the deletion of several keys. *)
Lemma deleteAll_lookup c (keys : list jsstring) k :
  cache (deleteAll c keys) !! k = if decide (k ∈ keys) then None else cache c !! k.
Proof.
  revert c. induction keys as [|key keys IH]; intros c.
  - destruct (decide (k ∈ [])) as [H|_]; [inversion H | reflexivity].
  - rewrite deleteAll_cons, IH. cbn [delete snd cache].
    destruct (decide (k ∈ keys)) as [Hin|Hout].
    + rewrite decide_True by (right; exact Hin). reflexivity.
    + destruct (decide (k = key)) as [->|Hne].
      * rewrite decide_True by left. apply lookup_delete_eq.
      * rewrite decide_False by (rewrite elem_of_cons; tauto).
        apply lookup_delete_ne. congruence.
Qed.

Lemma deleteAll_order c (keys : list jsstring) :
  NoDup (accessOrder c) ->
  accessOrder (deleteAll c keys) = filter (fun k => k ∉ keys) (accessOrder c).
Proof.
  revert c. induction keys as [|key keys IH]; intros c Hnd.
  - simpl. symmetry. clear Hnd. induction (accessOrder c) as [|a l IHl]; [reflexivity|].
    rewrite filter_cons_True by (intros H; inversion H). rewrite IHl. reflexivity.
  - rewrite deleteAll_cons, IH by (apply removeFirst_NoDup; exact Hnd).
    cbn [delete snd accessOrder]. rewrite (removeFirst_filter _ _ Hnd). rewrite list_filter_filter.
    apply list_filter_iff. intros x. rewrite elem_of_cons. tauto.
Qed.

Lemma deleteAll_params c (keys : list jsstring) :
  maxSize (deleteAll c keys) = maxSize c /\ ttl (deleteAll c keys) = ttl c.
Proof.
  revert c. induction keys as [|key keys IH]; intros c; [split; reflexivity|].
  rewrite deleteAll_cons. destruct (IH (snd (delete c key))) as [-> ->].
  split; reflexivity.
Qed.

Lemma deleteAll_consistent c (keys : list jsstring) :
  consistent c -> consistent (deleteAll c keys).
Proof.
  revert c. induction keys as [|key keys IH]; intros c Hc; [exact Hc|].
  rewrite deleteAll_cons. apply IH. apply delete_consistent. exact Hc.
Qed.

Lemma deleteAll_size c (keys : list jsstring) :
  size (cache (deleteAll c keys)) <= size (cache c).
Proof.
  revert c. induction keys as [|key keys IH]; intros c; [reflexivity|].
  rewrite deleteAll_cons. etransitivity; [apply IH|]. apply delete_size.
Qed.

Lemma removeFirst_comm (x y : jsstring) (order : list jsstring) :
  removeFirst x (removeFirst y order) = removeFirst y (removeFirst x order).
Proof.
  induction order as [|a o IH]; [reflexivity|].
  cbn [removeFirst].
  destruct (decide (a = y)) as [Hy|Hy], (decide (a = x)) as [Hx|Hx]; cbn [removeFirst].
  - replace x with y by congruence. reflexivity.
  - rewrite decide_True by exact Hy. reflexivity.
  - rewrite decide_True by exact Hx. reflexivity.
  - rewrite (decide_False (P := a = x)) by exact Hx.
    rewrite (decide_False (P := a = y)) by exact Hy.
    rewrite IH. reflexivity.
Qed.

(** The deletions leave the same cache in every order. *)
Lemma deleteAll_any_order c (keys keys' : list jsstring) :
  Permutation keys keys' -> deleteAll c keys' = deleteAll c keys.
Proof.
  intros Hp. revert c. induction Hp as [|x l l' Hp IH|x y l|l l' l'' H1 IH1 H2 IH2];
    intros c.
  - reflexivity.
  - rewrite !deleteAll_cons. apply IH.
  - rewrite !deleteAll_cons. f_equal. unfold delete. cbn [snd cache maxSize ttl accessOrder].
    f_equal; [apply delete_delete | apply removeFirst_comm].
  - rewrite IH2, IH1. reflexivity.
Qed.

Lemma evict_params c : maxSize (evict c) = maxSize c /\ ttl (evict c) = ttl c.
Proof. unfold evict. destruct (accessOrder c); split; reflexivity. Qed.

Lemma set_params c key (value : T) now :
  maxSize (set c key value now) = maxSize c /\ ttl (set c key value now) = ttl c.
Proof.
  unfold set. cbn [maxSize ttl].
  set (c1 := if bool_decide (is_Some (cache c !! key))
             then snd (delete c key) else c).
  assert (maxSize c1 = maxSize c /\ ttl c1 = ttl c) as [H1 H2].
  { unfold c1. destruct (bool_decide (is_Some (cache c !! key))); split; reflexivity. }
  destruct (maxSize c1 <=? Z.of_nat (size (cache c1)))%Z.
  - destruct (evict_params c1) as [-> ->]. split; assumption.
  - split; assumption.
Qed.

(** The eviction step in a consistent cache without the empty key: the
    least recently used key leaves the order and the map. *)
Lemma evict_sound c :
  consistent c -> cache c !! ([] : jsstring) = None ->
  consistent (evict c)
  /\ size (cache (evict c)) = pred (size (cache c))
  /\ forall k, cache c !! k = None -> cache (evict c) !! k = None.
Proof.
  intros Hc Hempty. pose proof (consistent_size c Hc) as Hsize.
  destruct Hc as [Hnd Hdom]. unfold evict.
  destruct (accessOrder c) as [|lru rest] eqn:Ho.
  - split; [split; [rewrite Ho; exact Hnd | rewrite Ho; exact Hdom]|].
    split; [rewrite Hsize; reflexivity | tauto].
  - assert (is_Some (cache c !! lru)) as Hlru by (apply Hdom; left).
    destruct lru as [|a lru]; [rewrite Hempty in Hlru; destruct Hlru; discriminate|].
    apply NoDup_cons in Hnd as [Hnot Hnd].
    cbn [cache accessOrder]. split; [split; cbn [cache accessOrder]|].
    + exact Hnd.
    + intros k. destruct (decide (k = a :: lru)) as [->|Hne].
      * rewrite lookup_delete_eq. split; [contradiction|].
        intros [? H]; discriminate H.
      * rewrite lookup_delete_ne by congruence. rewrite <- Hdom, elem_of_cons.
        tauto.
    + split; [apply map_size_delete_Some; exact Hlru|].
      intros k Hk. destruct (decide (k = a :: lru)) as [->|Hne];
        [apply lookup_delete_eq | rewrite lookup_delete_ne by congruence; exact Hk].
Qed.

(** [set] with a key that is not the empty string keeps the cache
    consistent and within its capacity. *)
Lemma set_sound c key (value : T) now :
  consistent c -> withinCapacity c -> key <> [] ->
  consistent (set c key value now) /\ withinCapacity (set c key value now).
Proof.
  intros Hc [Hempty Hcap] Hkey.
  destruct (set_params c key value now) as [HM _].
  unfold withinCapacity. rewrite HM. clear HM.
  unfold set. cbn [cache accessOrder].
  set (c1 := if bool_decide (is_Some (cache c !! key))
             then snd (delete c key) else c).
  assert (consistent c1 /\ cache c1 !! ([] : jsstring) = None
          /\ cache c1 !! key = None /\ size (cache c1) <= size (cache c)
          /\ maxSize c1 = maxSize c) as (Hc1 & He1 & Hk1 & Hs1 & HM1).
  { unfold c1. destruct (bool_decide_reflect (is_Some (cache c !! key))) as [Hs|Hs].
    - split; [apply delete_consistent; exact Hc|].
      split; [apply delete_lookup_mono; exact Hempty|].
      split; [cbn [delete snd cache]; apply lookup_delete_eq|].
      split; [apply delete_size | reflexivity].
    - split; [exact Hc|]. split; [exact Hempty|].
      split; [|split; reflexivity].
      destruct (cache c !! key); [exfalso; apply Hs; eexists; reflexivity | reflexivity]. }
  set (c2 := if (maxSize c1 <=? Z.of_nat (size (cache c1)))%Z then evict c1 else c1).
  assert (consistent c2 /\ cache c2 !! ([] : jsstring) = None
          /\ cache c2 !! key = None
          /\ (Z.of_nat (S (size (cache c2))) <= Z.max 1 (maxSize c))%Z)
    as (Hc2 & He2 & Hk2 & Hs2).
  { unfold c2. destruct (Z.leb_spec (maxSize c1) (Z.of_nat (size (cache c1)))) as [Hfull|Hroom].
    - destruct (evict_sound c1 Hc1 He1) as (H1 & H2 & H3).
      split; [exact H1|]. split; [apply H3; exact He1|].
      split; [apply H3; exact Hk1|]. rewrite H2. lia.
    - split; [exact Hc1|]. split; [exact He1|]. split; [exact Hk1|]. lia. }
  clearbody c2. clear c1 Hc1 He1 Hk1 Hs1 HM1.
  destruct Hc2 as [Hnd Hdom]. split; [split; cbn [cache accessOrder]|].
  - apply NoDup_app. split; [exact Hnd|]. split; [|apply NoDup_singleton].
    intros x Hx Hx'. apply list_elem_of_singleton in Hx'. subst x.
    apply Hdom in Hx. rewrite Hk2 in Hx. destruct Hx as [? Hx]. discriminate Hx.
  - intros k. rewrite elem_of_app, list_elem_of_singleton, Hdom.
    destruct (decide (k = key)) as [->|Hne].
    + rewrite lookup_insert_eq. split; [intros _; eexists; reflexivity | tauto].
    + rewrite lookup_insert_ne by congruence. tauto.
  - split.
    + rewrite lookup_insert_ne by congruence. exact He2.
    + rewrite map_size_insert_None by exact Hk2. exact Hs2.
Qed.

Lemma step_sound c (call : Call T) :
  consistent c -> withinCapacity c -> setsNoEmptyKey call ->
  consistent (step c call) /\ withinCapacity (step c call)
  /\ maxSize (step c call) = maxSize c.
Proof.
  intros Hc [Hempty Hcap] Hcall. destruct call as [key now|key value now|key now|key| |now];
    cbn [step].
  - destruct (get_params c key now) as [HM _].
    split; [apply get_consistent; exact Hc|]. split; [|exact HM].
    split; [apply get_lookup_mono; exact Hempty|].
    rewrite HM. pose proof (get_size c key now). lia.
  - destruct (set_params c key value now) as [HM _].
    destruct (set_sound c key value now Hc (conj Hempty Hcap) Hcall) as [H1 H2].
    split; [exact H1|]. split; [exact H2 | exact HM].
  - destruct (has_state c key now) as [->| ->].
    + split; [exact Hc|]. split; [split; assumption | reflexivity].
    + split; [apply delete_consistent; exact Hc|]. split; [|reflexivity].
      split; [apply delete_lookup_mono; exact Hempty|].
      pose proof (delete_size c key). cbn [delete snd maxSize] in *. lia.
  - split; [apply delete_consistent; exact Hc|]. split; [|reflexivity].
    split; [apply delete_lookup_mono; exact Hempty|].
    pose proof (delete_size c key). cbn [delete snd maxSize] in *. lia.
  - split; [split; cbn; [apply NoDup_nil_2|]|].
    + intros k. rewrite lookup_empty. split; [intros H; inversion H|].
      intros [? H]; discriminate H.
    + split; [|reflexivity]. split; [apply lookup_empty|].
      cbn. rewrite map_size_empty. lia.
  - cbn [cleanup snd]. destruct (deleteAll_params c (expiredKeys c now)) as [HM _].
    split; [apply deleteAll_consistent; exact Hc|]. split; [|exact HM].
    split.
    + rewrite deleteAll_lookup. destruct (decide (_ ∈ _)); [reflexivity | exact Hempty].
    + rewrite HM. pose proof (deleteAll_size c (expiredKeys c now)). lia.
Qed.

Lemma run_sound c (calls : list (Call T)) :
  consistent c -> withinCapacity c -> Forall setsNoEmptyKey calls ->
  consistent (run c calls) /\ withinCapacity (run c calls)
  /\ maxSize (run c calls) = maxSize c.
Proof.
  revert c. induction calls as [|call calls IH]; intros c Hc Hw Hcalls.
  - split; [exact Hc|]. split; [exact Hw | reflexivity].
  - apply Forall_cons in Hcalls as [Hcall Hcalls].
    destruct (step_sound c call Hc Hw Hcall) as (H1 & H2 & H3).
    destruct (IH (step c call) H1 H2 Hcalls) as (H4 & H5 & H6).
    unfold run in *. cbn [fold_left]. split; [exact H4|]. split; [exact H5|].
    rewrite H6. exact H3.
Qed.

(** Property X1.  From a new cache, after any sequence of calls of
    [get], [set], [has], [delete], [clear] and [cleanup] at any
    instants, in which no [set] has the empty string as key: the recency
    order and the map hold the same keys, each once, and the map holds at
    most [maxSize] entries (one entry when [maxSize] is below 1). *)
Theorem cache_invariant (optMaxSize optTtl : option Z) (calls : list (Call T)) :
  Forall setsNoEmptyKey calls ->
  let c := run (new optMaxSize optTtl) calls in
  consistent c
  /\ (Z.of_nat (size (cache c)) <= Z.max 1 (maxSize c))%Z
  /\ maxSize c = orNumber optMaxSize 100
  /\ size (cache c) = length (accessOrder c).
Proof.
  intros Hcalls c.
  assert (consistent (new optMaxSize optTtl : LRUCache T)) as Hc0.
  { split; cbn; [apply NoDup_nil_2|]. intros k. rewrite lookup_empty.
    split; [intros H; inversion H | intros [? H]; discriminate H]. }
  assert (withinCapacity (new optMaxSize optTtl : LRUCache T)) as Hw0.
  { split; [apply lookup_empty|]. cbn. rewrite map_size_empty. lia. }
  destruct (run_sound _ calls Hc0 Hw0 Hcalls) as (H1 & [_ H2] & H3).
  split; [exact H1|]. split; [exact H2|]. split; [exact H3|].
  apply consistent_size. exact H1.
Qed.

Lemma get_after_set c key (value : T) (setAt now : Z) :
  (now - setAt <= ttl c)%Z ->
  fst (get (set c key value setAt) key now) = Some value
  /\ fst (has (set c key value setAt) key now) = true.
Proof.
  intros Hfresh.
  destruct (set_lands_most_recent c key value setAt) as [Hentry _].
  destruct (set_params c key value setAt) as [_ Httl].
  unfold get, has. rewrite Hentry, Httl. cbn [timestamp data].
  destruct (Z.ltb_spec (ttl c) (now - setAt)) as [?|_]; [lia|].
  split; reflexivity.
Qed.

(** Property X2.  A value that was [set] is what [get] returns for the
    key, and [has] is true, at every instant up to [ttl] after the [set],
    whatever the cache held before and whatever the key is; once more
    than [ttl] has passed [get] returns nothing. *)
Theorem set_then_get c key (value : T) (setAt now : Z) :
  (now - setAt <= ttl c)%Z ->
  fst (get (set c key value setAt) key now) = Some value
  /\ fst (has (set c key value setAt) key now) = true
  /\ (forall later, (later - setAt > ttl c)%Z ->
        fst (get (set c key value setAt) key later) = None).
Proof.
  intros Hfresh. destruct (get_after_set c key value setAt now Hfresh) as [H1 H2].
  split; [exact H1|]. split; [exact H2|].
  intros later Hlate.
  destruct (set_lands_most_recent c key value setAt) as [Hentry _].
  destruct (set_params c key value setAt) as [_ Httl].
  unfold get. rewrite Hentry, Httl. cbn [timestamp].
  destruct (Z.ltb_spec (ttl c) (later - setAt)) as [_|?]; [reflexivity | lia].
Qed.

(** Property X3.  [set] of a key that the cache does not hold, in a
    consistent cache whose least recently used key [lru] is not the empty
    string.  When the map holds [maxSize] entries or more, exactly the
    entry of [lru], the first key of the recency order, is removed: [get]
    of [lru] returns nothing afterwards, and every other entry is as
    before.  When the map holds fewer entries, none is removed.  In both
    cases the new key becomes the most recently used. *)
Theorem set_evicts_least_recent c key (value : T) now
    (lru : jsstring) (rest : list jsstring) :
  consistent c ->
  cache c !! key = None ->
  accessOrder c = lru :: rest ->
  lru <> [] ->
  let c' := set c key value now in
  let full := (maxSize c <=? Z.of_nat (size (cache c)))%Z in
  c' = mkCache
         (<[key := mkEntry value now 0]>
            (if full then base.delete lru (cache c) else cache c))
         (maxSize c) (ttl c)
         ((if full then rest else lru :: rest) ++ [key])
  /\ (full = true -> forall later, get c' lru later = (None, c'))
  /\ (forall k, k <> key -> k <> lru -> cache c' !! k = cache c !! k)
  /\ (full = false -> cache c' !! lru = cache c !! lru).
Proof.
  intros Hc Hnew Ho Hlru c' full.
  assert (lru <> key) as Hne.
  { intros ->. destruct Hc as [_ Hdom].
    assert (is_Some (cache c !! key)) as [? H] by (apply Hdom; rewrite Ho; left).
    rewrite Hnew in H. discriminate H. }
  assert (c' = mkCache
         (<[key := mkEntry value now 0]>
            (if full then base.delete lru (cache c) else cache c))
         (maxSize c) (ttl c)
         ((if full then rest else lru :: rest) ++ [key])) as Hc'.
  { unfold c', set. rewrite Hnew.
    rewrite bool_decide_eq_false_2 by (intros [? H]; discriminate H).
    fold full. destruct full.
    - unfold evict. rewrite Ho. destruct lru as [|a lru]; [contradiction|]. reflexivity.
    - rewrite Ho. reflexivity. }
  split; [exact Hc'|]. rewrite Hc'. clear Hc'. cbn [cache].
  split; [|split].
  - intros -> later. unfold get. cbn [cache].
    rewrite lookup_insert_ne by congruence. rewrite lookup_delete_eq. reflexivity.
  - intros k Hk1 Hk2. rewrite lookup_insert_ne by congruence.
    destruct full; [apply lookup_delete_ne; congruence | reflexivity].
  - intros ->. rewrite lookup_insert_ne by congruence. reflexivity.
Qed.

(** Property X4.  A read protects from the next eviction.  In a
    consistent cache with two keys or more, after a [get] that returns
    the value of [k], the [set] of a key that the cache does not hold
    leaves the entry of [k] in the map, with the data and the instant of
    its [set] and one more hit: the key evicted, if any, is another
    one. *)
Theorem read_protects_from_eviction c (k key : jsstring) (e : CacheEntry T)
    (value : T) (readAt setAt : Z) :
  consistent c ->
  cache c !! k = Some e ->
  (readAt - timestamp e <= ttl c)%Z ->
  cache c !! key = None ->
  2 <= length (accessOrder c) ->
  fst (get c k readAt) = Some (data e)
  /\ cache (set (snd (get c k readAt)) key value setAt) !! k
     = Some (mkEntry (data e) (timestamp e) (hits e + 1)).
Proof.
  intros Hc He Hfresh Hnew Hlen.
  assert (k <> key) as Hne by (intros ->; rewrite He in Hnew; discriminate Hnew).
  assert (get c k readAt
          = (Some (data e),
             mkCache (<[k := mkEntry (data e) (timestamp e) (hits e + 1)]> (cache c))
                     (maxSize c) (ttl c) (removeFirst k (accessOrder c) ++ [k]))) as Hget.
  { unfold get. rewrite He.
    destruct (Z.ltb_spec (ttl c) (readAt - timestamp e)) as [?|_]; [lia|].
    unfold updateAccessOrder. rewrite decide_True; [reflexivity|].
    destruct Hc as [_ Hdom]. apply Hdom. rewrite He. eexists. reflexivity. }
  rewrite Hget. split; [reflexivity|]. cbn [snd].
  set (c1 := mkCache _ _ _ _).
  assert (cache c1 !! key = None) as Hnew1.
  { unfold c1. cbn [cache]. rewrite lookup_insert_ne by congruence. exact Hnew. }
  unfold set. rewrite Hnew1.
  rewrite bool_decide_eq_false_2 by (intros [? H]; discriminate H).
  cbn [cache]. rewrite lookup_insert_ne by congruence.
  destruct (maxSize c1 <=? Z.of_nat (size (cache c1)))%Z;
    [|unfold c1; cbn [cache]; apply lookup_insert_eq].
  unfold evict. destruct Hc as [Hnd Hdom].
  destruct (removeFirst k (accessOrder c)) as [|lru rest] eqn:Hr.
  { assert (length (removeFirst k (accessOrder c)) = 0) as H0 by (rewrite Hr; reflexivity).
    rewrite (removeFirst_filter _ _ Hnd) in H0.
    exfalso. clear -Hnd Hlen H0.
    destruct (accessOrder c) as [|a [|b l]]; cbn in Hlen; [lia | lia |].
    apply NoDup_cons in Hnd as [Hab _]. rewrite not_elem_of_cons in Hab.
    destruct (decide (a = k)) as [->|Ha].
    - rewrite filter_cons_False in H0 by (intros H; apply H; reflexivity).
      rewrite filter_cons_True in H0 by (intros ->; tauto). discriminate H0.
    - rewrite filter_cons_True in H0 by exact Ha. discriminate H0. }
  assert (lru <> k) as Hlk.
  { assert (lru ∈ removeFirst k (accessOrder c)) as Hin by (rewrite Hr; left).
    apply (removeFirst_elem _ _ _ Hnd) in Hin. tauto. }
  unfold c1 at 1. cbn [accessOrder app cache].
  destruct lru as [|a lru]; unfold c1; cbn [cache].
  - apply lookup_insert_eq.
  - rewrite lookup_delete_ne by congruence. apply lookup_insert_eq.
Qed.

(** Property X5.  [delete] returns true exactly when the map held the
    key.  Afterwards [get] and [has] of the key find nothing at any
    instant and leave the cache as it is, a second [delete] returns
    false, and the entries of the other keys are as before. *)
Theorem delete_forgets c key :
  let c' := snd (delete c key) in
  (fst (delete c key) = true <-> is_Some (cache c !! key))
  /\ (forall now, get c' key now = (None, c'))
  /\ (forall now, has c' key now = (false, c'))
  /\ fst (delete c' key) = false
  /\ (forall k, k <> key -> cache c' !! k = cache c !! k)
  /\ (consistent c -> consistent c' /\ (key ∉ accessOrder c')).
Proof.
  intros c'. split; [cbn; apply bool_decide_eq_true|].
  assert (cache c' !! key = None) as Hk by (cbn; apply lookup_delete_eq).
  split; [intros now; unfold get; rewrite Hk; reflexivity|].
  split; [intros now; unfold has; rewrite Hk; reflexivity|].
  split; [cbn [delete fst]; rewrite Hk; apply bool_decide_eq_false_2;
          intros [? H]; discriminate H|].
  split; [intros k Hne; cbn; apply lookup_delete_ne; congruence|].
  intros Hc. split; [apply delete_consistent; exact Hc|].
  destruct Hc as [Hnd _]. cbn. rewrite (removeFirst_elem _ _ _ Hnd). tauto.
Qed.

(** Property X6.  [has] tells whether [get] would return a value at the
    same instant.  When it is true it changes nothing: unlike [get] it
    neither moves the key in the recency order nor counts a hit.  When it
    is false the cache is left as [get] leaves it, without the entry if
    there was an expired one. *)
Theorem has_agrees_with_get c key now :
  (fst (has c key now) = true <-> is_Some (fst (get c key now)))
  /\ (fst (has c key now) = true -> snd (has c key now) = c)
  /\ (fst (has c key now) = false -> snd (has c key now) = snd (get c key now)).
Proof.
  unfold has, get. destruct (cache c !! key) as [e|].
  - destruct (ttl c <? now - timestamp e)%Z; cbn.
    + split; [split; [discriminate | intros [? H]; discriminate H]|].
      split; [discriminate | reflexivity].
    + split; [split; [intros _; eexists; reflexivity | reflexivity]|].
      split; [reflexivity | discriminate].
  - cbn. split; [split; [discriminate | intros [? H]; discriminate H]|].
    split; [discriminate | reflexivity].
Qed.

(** The keys that [cleanup] collects. *)
Lemma expiredKeys_elem c now k :
  k ∈ expiredKeys c now
  <-> exists e, cache c !! k = Some e /\ (now - timestamp e > ttl c)%Z.
Proof.
  unfold expiredKeys. rewrite list_elem_of_fmap. split.
  - intros [[k' e] [-> Hin]]. apply list_elem_of_filter in Hin as [Hexp Hin].
    apply elem_of_map_to_list in Hin. exists e. split; [exact Hin|].
    cbn in Hexp. apply Z.ltb_lt in Hexp. lia.
  - intros [e [He Hexp]]. exists (k, e). split; [reflexivity|].
    apply list_elem_of_filter. split; [cbn; apply Z.ltb_lt; lia|].
    apply elem_of_map_to_list. exact He.
Qed.

Lemma expiredKeys_NoDup c now : NoDup (expiredKeys c now).
Proof.
  unfold expiredKeys.
  apply (sublist_NoDup _ ((map_to_list (cache c)).*1)); [apply NoDup_fst_map_to_list|].
  apply fmap_sublist, sublist_filter.
Qed.

(** Property X7.  [cleanup] at the instant [now] removes the entries
    with [now - timestamp > ttl], and only them, from the map and from
    the recency order, and returns their number.  The entries that
    remain are unchanged and none of them has expired, a consistent cache
    stays consistent, and a second [cleanup] at the same instant finds
    nothing to remove.  The order in which the expired keys are deleted
    does not matter. *)
Theorem cleanup_removes_expired c now :
  let c' := snd (cleanup c now) in
  fst (cleanup c now)
  = size (filter (fun kv : jsstring * CacheEntry T => (now - timestamp kv.2 > ttl c)%Z)
                 (cache c))
  /\ cache c'
     = filter (fun kv : jsstring * CacheEntry T => ~ (now - timestamp kv.2 > ttl c)%Z)
              (cache c)
  /\ (forall k e, cache c' !! k = Some e ->
         cache c !! k = Some e /\ (now - timestamp e <= ttl c)%Z)
  /\ (consistent c ->
      consistent c'
      /\ accessOrder c' = filter (fun k => k ∉ expiredKeys c now) (accessOrder c))
  /\ fst (cleanup c' now) = 0
  /\ (forall keys, Permutation (expiredKeys c now) keys -> deleteAll c keys = c').
Proof.
  intros c'.
  assert (cache c'
     = filter (fun kv : jsstring * CacheEntry T => ~ (now - timestamp kv.2 > ttl c)%Z)
              (cache c)) as Hcache.
  { apply map_eq. intros k. unfold c'. cbn [cleanup snd]. rewrite deleteAll_lookup.
    destruct (decide (k ∈ expiredKeys c now)) as [Hin|Hout].
    - symmetry. apply map_lookup_filter_None. right. intros e He Hfresh.
      apply expiredKeys_elem in Hin as [e' [He' Hexp]].
      rewrite He in He'. injection He' as <-. cbn in Hfresh. lia.
    - destruct (cache c !! k) as [e|] eqn:He.
      + symmetry. apply map_lookup_filter_Some. split; [exact He|]. cbn.
        intros Hexp. apply Hout. apply expiredKeys_elem. exists e. tauto.
      + symmetry. apply map_lookup_filter_None. left. exact He. }
  split.
  { cbn [cleanup fst]. unfold expiredKeys. rewrite length_fmap.
    rewrite <- length_map_to_list. rewrite map_filter_alt.
    rewrite map_to_list_to_map.
    - f_equal. apply list_filter_iff. intros [k e]. cbn.
      rewrite Z.ltb_lt. lia.
    - apply (sublist_NoDup _ ((map_to_list (cache c)).*1));
        [apply NoDup_fst_map_to_list|].
      apply fmap_sublist, sublist_filter. }
  split; [exact Hcache|].
  split.
  { intros k e. rewrite Hcache. intros H. apply map_lookup_filter_Some in H as [H1 H2].
    cbn in H2. split; [exact H1 | lia]. }
  split.
  { intros Hc. unfold c'. cbn [cleanup snd].
    split; [apply deleteAll_consistent; exact Hc|].
    apply deleteAll_order. destruct Hc as [Hnd _]. exact Hnd. }
  split.
  { cbn [cleanup fst]. destruct (expiredKeys c' now) as [|k ks] eqn:Hks; [reflexivity|].
    exfalso. assert (k ∈ expiredKeys c' now) as Hin by (rewrite Hks; left).
    apply expiredKeys_elem in Hin as [e [He Hexp]].
    rewrite Hcache in He. apply map_lookup_filter_Some in He as [_ He]. cbn in He.
    unfold c' in Hexp. cbn [cleanup snd] in Hexp.
    destruct (deleteAll_params c (expiredKeys c now)) as [_ Httl].
    rewrite Httl in Hexp. lia. }
  intros keys Hp. unfold c'. cbn [cleanup snd]. apply deleteAll_any_order. exact Hp.
Qed.

End WithValues.

Lemma new_sound {T : Type} (optMaxSize optTtl : option Z) :
  consistent (new optMaxSize optTtl : LRUCache T)
  /\ withinCapacity (new optMaxSize optTtl : LRUCache T).
Proof.
  split; [split; cbn; [apply NoDup_nil_2|]|].
  - intros k. rewrite lookup_empty.
    split; [intros H; inversion H | intros [? H]; discriminate H].
  - split; [apply lookup_empty|]. cbn. rewrite map_size_empty. lia.
Qed.

Lemma twoSlots_consistent : consistent twoSlots.
Proof.
  destruct (new_sound (T := nat) (Some 2%Z) (Some 3600000%Z)) as [Hc Hw].
  apply (run_sound _
           [CallSet (str "k1") 1 0%Z; CallSet (str "k2") 2 10%Z; CallSet (str "k3") 3 20%Z]
           Hc Hw).
  repeat constructor; discriminate.
Qed.

(** Two keys are set in a cache for two entries, the first is read, a
    third is set and the cache is cleaned up. *)
Lemma cache_invariant_witness :
  let calls :=
    [CallSet (str "a") 1 0%Z; CallSet (str "b") 2 1%Z; CallGet (str "a") 2%Z;
     CallSet (str "c") 3 3%Z; CallCleanup 4%Z] in
  let c : LRUCache nat := run (new (Some 2%Z) None) calls in
  Forall setsNoEmptyKey calls
  /\ consistent c /\ (Z.of_nat (size (cache c)) <= Z.max 1 (maxSize c))%Z.
Proof.
  intros calls c.
  assert (Forall setsNoEmptyKey calls) as H by (repeat constructor; discriminate).
  split; [exact H|].
  destruct (cache_invariant (Some 2%Z) None calls H) as (H1 & H2 & _).
  split; [exact H1 | exact H2].
Defined.

(** The key [k9] is set at the instant 100 and read at the instant 200
    in a cache whose entries live an hour. *)
Lemma set_then_get_witness :
  (200 - 100 <= ttl twoSlots)%Z
  /\ fst (get (set twoSlots (str "k9") 5 100%Z) (str "k9") 200%Z) = Some 5.
Proof.
  assert (200 - 100 <= ttl twoSlots)%Z as H by (vm_compute; discriminate).
  split; [exact H|].
  exact (proj1 (set_then_get twoSlots (str "k9") 5 100%Z 200%Z H)).
Defined.

(** The cache [twoSlots] is full and [k2] is its least recently used
    key: the [set] of [k4] removes [k2] and leaves [k3]. *)
Lemma set_evicts_least_recent_witness :
  let c' := set twoSlots (str "k4") 4 30%Z in
  accessOrder twoSlots = [str "k2"; str "k3"]
  /\ get c' (str "k2") 40%Z = (None, c')
  /\ cache c' !! str "k3" = cache twoSlots !! str "k3".
Proof.
  intros c'.
  assert (cache twoSlots !! str "k4" = None) as Hnew by (vm_compute; reflexivity).
  assert (accessOrder twoSlots = [str "k2"; str "k3"]) as Ho by (vm_compute; reflexivity).
  assert (str "k2" <> []) as Hlru by discriminate.
  destruct (set_evicts_least_recent twoSlots (str "k4") 4 30%Z (str "k2") [str "k3"]
              twoSlots_consistent Hnew Ho Hlru) as (_ & H1 & H2 & _).
  split; [exact Ho|]. split.
  - apply H1. vm_compute. reflexivity.
  - apply H2; discriminate.
Defined.

(** In [twoSlots] the key [k2] is the least recently used.  After a
    read of [k2] the [set] of [k4] leaves it in the cache. *)
Lemma read_protects_from_eviction_witness :
  cache twoSlots !! str "k2" = Some (mkEntry 2 10%Z 0%Z)
  /\ cache (set (snd (get twoSlots (str "k2") 30%Z)) (str "k4") 4 40%Z) !! str "k2"
     = Some (mkEntry 2 10%Z 1%Z).
Proof.
  assert (cache twoSlots !! str "k2" = Some (mkEntry 2 10%Z 0%Z)) as He
    by (vm_compute; reflexivity).
  assert (30 - timestamp (mkEntry 2 10%Z 0%Z) <= ttl twoSlots)%Z as Hfresh
    by (vm_compute; discriminate).
  assert (cache twoSlots !! str "k4" = None) as Hnew by (vm_compute; reflexivity).
  assert (2 <= length (accessOrder twoSlots)) as Hlen by (vm_compute; lia).
  split; [exact He|].
  exact (proj2 (read_protects_from_eviction twoSlots (str "k2") (str "k4") _ 4 30%Z 40%Z
                  twoSlots_consistent He Hfresh Hnew Hlen)).
Defined.

End CacheProperties.

(** ** The LRU cache under the keys of the read tool *)

Module CacheClaims.
Import Cache CacheSpec CacheExamples CacheFacts CacheProperties.

(** The keys of the page cache: [readPage] makes the key of the trimmed
    URL after [validateUrl] has returned, and that key is not the empty
    string. *)
Lemma validated_key_nonempty (parse : URLParser) (url : jsstring) :
  ReadTool.validateUrl parse url = None -> createCacheKey (JS.trim url) <> [].
Proof.
  unfold ReadTool.validateUrl, createCacheKey. destruct url as [|c url]; [discriminate|].
  destruct (JS.trim (c :: url)) as [|d t]; [discriminate|]. intros _. discriminate.
Qed.

(** [set] of a key that the cache holds, in a consistent cache within its
    capacity: the entry of the key is replaced, the key moves to the end
    of the recency order, and no other entry is touched. *)
Lemma set_existing {T : Type} (c : LRUCache T) (key : jsstring) (value : T) (now : Z) :
  consistent c -> withinCapacity c -> is_Some (cache c !! key) ->
  set c key value now
  = mkCache (<[key := mkEntry value now 0]> (cache c)) (maxSize c) (ttl c)
            (removeFirst key (accessOrder c) ++ [key])
  /\ key ∉ removeFirst key (accessOrder c).
Proof.
  intros Hc [_ Hcap] Hin.
  pose proof (delete_consistent c key Hc) as Hc1.
  pose proof (consistent_size _ Hc1) as Hsize1.
  assert (key ∉ removeFirst key (accessOrder c)) as Hout.
  { destruct Hc as [Hnd _]. rewrite (removeFirst_elem _ _ _ Hnd). tauto. }
  split; [|exact Hout]. unfold set.
  rewrite bool_decide_eq_true_2 by exact Hin.
  cbn [delete snd cache maxSize ttl accessOrder] in *.
  assert (size (base.delete key (cache c)) = pred (size (cache c))) as Hdel.
  { destruct Hin as [e He]. apply map_size_delete_Some. exists e. exact He. }
  assert (0 < size (cache c)) as Hpos.
  { destruct Hin as [e He].
    destruct (size (cache c)) eqn:Hs; [|lia].
    apply map_size_empty_inv in Hs. rewrite Hs, lookup_empty in He. discriminate He. }
  destruct (Z.leb_spec (maxSize c) (Z.of_nat (size (base.delete key (cache c)))))
    as [Hfull|Hroom].
  - assert (removeFirst key (accessOrder c) = []) as Hnil.
    { apply length_zero_iff_nil. rewrite <- Hsize1, Hdel. lia. }
    unfold evict. cbn [accessOrder cache maxSize ttl]. rewrite Hnil.
    cbn [cache maxSize ttl accessOrder]. rewrite insert_delete_eq. reflexivity.
  - cbn [cache maxSize ttl accessOrder]. rewrite insert_delete_eq. reflexivity.
Qed.

(** Claim C3.  The keys are those of the program: [readPage], the one
    user of the cache, passes the key of a URL that [validateUrl] has
    accepted, which is never the empty string.  With such keys, after
    [maxSize + 1] calls of [set] with pairwise different keys on a new
    cache and no other call in between, [get] of the first key returns
    nothing and [get] of each of the other [maxSize] keys returns the
    value that was set, as long as its time to live has not elapsed.
    And in every state that calls with such keys lead to, [set] of a key
    that the cache holds removes the key first: the key becomes the last,
    most recently used, of the recency order and occurs nowhere else in
    it, its entry has the new value, the instant of the call and no hit,
    and no other entry is touched. *)
Theorem lru_eviction {T : Type} (optMaxSize optTtl : option Z)
    (first : jsstring * T * Z) (others : list (jsstring * T * Z)) :
  let c0 : LRUCache T := new optMaxSize optTtl in
  Z.of_nat (length others) = maxSize c0 ->
  NoDup (callKey <$> first :: others) ->
  Forall (fun call => callKey call <> []) (first :: others) ->
  let c := setAll c0 (first :: others) in
  (forall now, get c (callKey first) now = (None, c))
  /\ (forall call now, call ∈ others -> (now - call.2 <= ttl c)%Z ->
        fst (get c (callKey call) now) = Some call.1.2)
  /\ (forall (calls : list (Call T)) (key : jsstring) (value : T) (now : Z),
        Forall setsNoEmptyKey calls ->
        let c1 := run c0 calls in
        is_Some (cache c1 !! key) ->
        set c1 key value now
        = mkCache (<[key := mkEntry value now 0]> (cache c1)) (maxSize c1) (ttl c1)
                  (removeFirst key (accessOrder c1) ++ [key])
        /\ key ∉ removeFirst key (accessOrder c1))
  /\ (forall (parse : URLParser) (url : jsstring),
        ReadTool.validateUrl parse url = None -> createCacheKey (JS.trim url) <> []).
Proof.
  intros c0 Hlen Hnd Hne c.
  set (M := maxSize c0) in *.
  assert (M <> 0%Z) as HM0.
  { unfold M, c0, new, orNumber. cbn [maxSize].
    destruct optMaxSize as [v|]; [|discriminate].
    destruct (Z.eqb_spec v 0); [discriminate | assumption]. }
  assert (1 <= M)%Z as HM by lia.
  assert (c0 = new (Some M) optTtl) as Hc0.
  { unfold c0, new. f_equal. change (orNumber optMaxSize 100) with M.
    cbn [orNumber]. destruct (Z.eqb_spec M 0) as [?|_]; [contradiction | reflexivity]. }
  destruct (lru_eviction_nonempty_keys M optTtl first others HM Hlen Hnd Hne)
    as [H1 [H2 _]].
  cbv zeta in H1, H2. rewrite <- Hc0 in H1, H2. fold c in H1, H2.
  split; [exact H1|]. split; [exact H2|]. split; [|exact validated_key_nonempty].
  intros calls key value now Hcalls c1 Hin.
  destruct (new_sound (T := T) optMaxSize optTtl) as [Hc Hw].
  destruct (run_sound _ calls Hc Hw Hcalls) as [Hc1 [Hw1 _]].
  apply set_existing; assumption.
Qed.

(** A cache of capacity 2 receives the keys [a], [b] and [c]. *)
Lemma lru_eviction_witness :
  let c : LRUCache nat :=
    setAll (new (Some 2%Z) None) [(str "a", 1, 0%Z); (str "b", 2, 1%Z); (str "c", 3, 2%Z)] in
  fst (get c (str "a") 3%Z) = None
  /\ fst (get c (str "b") 3%Z) = Some 2
  /\ fst (get c (str "c") 3%Z) = Some 3.
Proof.
  intros c.
  destruct (lru_eviction (T := nat) (Some 2%Z) None (str "a", 1, 0%Z)
              [(str "b", 2, 1%Z); (str "c", 3, 2%Z)]) as [H1 [H2 _]].
  - reflexivity.
  - apply (bool_decide_unpack _). vm_compute. exact I.
  - repeat constructor; discriminate.
  - cbv zeta in H1, H2. fold c in H1, H2. split; [rewrite H1; reflexivity|].
    split.
    + apply (H2 (str "b", 2, 1%Z) 3%Z); [left | vm_compute; discriminate].
    + apply (H2 (str "c", 3, 2%Z) 3%Z); [right; left | vm_compute; discriminate].
Defined.

End CacheClaims.

(** ** The key of a cache entry *)

Module CacheKeyProperties.
Import JS JSFacts Cache.

(** [a] is not above [b] in the order of [sort]. *)
#[local] Abbreviation notAbove := (fun a b : jsstring => ltString b a = false).

Lemma code_inj (x y : ascii) : code x = code y -> x = y.
Proof.
  unfold code. intros H. rewrite <- (ascii_nat_embedding x), <- (ascii_nat_embedding y).
  rewrite H. reflexivity.
Qed.

Lemma ltString_asym (a b : jsstring) : ltString a b = true -> ltString b a = false.
Proof.
  revert b. induction a as [|x a IH]; intros [|y b]; cbn [ltString]; try congruence.
  intros H. apply orb_true_iff in H as [H|H].
  - apply Nat.ltb_lt in H. apply orb_false_iff. split; [apply Nat.ltb_ge; lia|].
    apply andb_false_iff. left. apply Nat.eqb_neq. lia.
  - apply andb_true_iff in H as [He Hl]. apply Nat.eqb_eq in He.
    apply orb_false_iff. split; [apply Nat.ltb_ge; lia|].
    rewrite (IH _ Hl). apply andb_false_r.
Qed.

Lemma ltString_trichotomy (a b : jsstring) :
  ltString a b = false -> ltString b a = false -> a = b.
Proof.
  revert b. induction a as [|x a IH]; intros [|y b]; cbn [ltString]; try congruence.
  intros H1 H2. apply orb_false_iff in H1 as [L1 E1]. apply orb_false_iff in H2 as [L2 E2].
  apply Nat.ltb_ge in L1, L2. assert (code x = code y) as He by lia.
  rewrite He, Nat.eqb_refl in E1, E2. cbn [andb] in E1, E2.
  rewrite (code_inj _ _ He), (IH _ E1 E2). reflexivity.
Qed.

Lemma notAbove_trans (a b c : jsstring) :
  ltString b a = false -> ltString c b = false -> ltString c a = false.
Proof.
  revert b c. induction a as [|x a IH]; intros [|y b] [|z c]; cbn [ltString];
    try congruence.
  intros H1 H2. apply orb_false_iff in H1 as [L1 E1]. apply orb_false_iff in H2 as [L2 E2].
  apply Nat.ltb_ge in L1, L2. apply orb_false_iff. split; [apply Nat.ltb_ge; lia|].
  destruct (Nat.eqb_spec (code z) (code x)) as [Hzx|]; [|reflexivity]. cbn [andb].
  assert (code y = code x) as Hyx by lia. assert (code z = code y) as Hzy by lia.
  rewrite Hyx, Nat.eqb_refl in E1. rewrite Hzy, Nat.eqb_refl in E2.
  exact (IH _ _ E1 E2).
Qed.

#[local] Instance notAbove_antisymm : AntiSymm (=) notAbove.
Proof. intros a b H1 H2. apply ltString_trichotomy; assumption. Qed.

Lemma insertKey_perm (key : jsstring) (sorted : list jsstring) :
  insertKey key sorted ≡ₚ key :: sorted.
Proof.
  induction sorted as [|k rest IH]; cbn [insertKey]; [reflexivity|].
  destruct (ltString key k); [reflexivity|]. rewrite IH. apply Permutation_swap.
Qed.

Lemma insertKey_sorted (key : jsstring) (sorted : list jsstring) :
  StronglySorted notAbove sorted -> StronglySorted notAbove (insertKey key sorted).
Proof.
  induction 1 as [|k rest Hrest IH Hk]; cbn [insertKey].
  - repeat constructor.
  - destruct (ltString key k) eqn:Hlt.
    + constructor; [constructor; assumption|]. constructor.
      * apply ltString_asym. exact Hlt.
      * eapply Forall_impl; [exact Hk|]. cbn. intros x Hx.
        apply (notAbove_trans key k x); [apply ltString_asym; exact Hlt | exact Hx].
    + constructor; [exact IH|]. rewrite insertKey_perm. constructor; assumption.
Qed.

Lemma sortKeys_from (keys acc : list jsstring) :
  StronglySorted notAbove acc ->
  let sorted := fold_left (fun sorted key => insertKey key sorted) keys acc in
  StronglySorted notAbove sorted /\ sorted ≡ₚ keys ++ acc.
Proof.
  revert acc. induction keys as [|k keys IH]; intros acc Hacc; cbn [fold_left app].
  - split; [exact Hacc | reflexivity].
  - destruct (IH _ (insertKey_sorted k acc Hacc)) as [Hs Hp]. split; [exact Hs|].
    cbn zeta in Hp. rewrite Hp, insertKey_perm. symmetry. apply Permutation_middle.
Qed.

Lemma sortKeys_sorted (keys : list jsstring) :
  StronglySorted notAbove (sortKeys keys) /\ sortKeys keys ≡ₚ keys.
Proof.
  destruct (sortKeys_from keys [] (SSorted_nil _)) as [Hs Hp]. split; [exact Hs|].
  cbn zeta in Hp. rewrite app_nil_r in Hp. exact Hp.
Qed.

Lemma sortKeys_perm (keys keys' : list jsstring) :
  keys ≡ₚ keys' -> sortKeys keys = sortKeys keys'.
Proof.
  intros Hp. destruct (sortKeys_sorted keys) as [Hs Hk].
  destruct (sortKeys_sorted keys') as [Hs' Hk'].
  apply (StronglySorted_unique notAbove); [exact Hs | exact Hs'|].
  rewrite Hk, Hk'. exact Hp.
Qed.

Lemma paramValue_lookup (key value : jsstring) (params : list (jsstring * jsstring)) :
  NoDup (params.*1) -> (key, value) ∈ params -> paramValue key params = value.
Proof.
  induction params as [|[k v] rest IH]; intros Hnd Hin; [inversion Hin|].
  cbn [paramValue]. apply NoDup_cons in Hnd as [Hk Hnd].
  apply elem_of_cons in Hin as [Heq|Hin].
  - injection Heq as <- <-. rewrite decide_True; reflexivity.
  - destruct (decide (k = key)) as [->|_]; [|exact (IH Hnd Hin)].
    exfalso. apply Hk. apply list_elem_of_fmap. exists (key, value). split; [reflexivity|exact Hin].
Qed.

Lemma paramValue_absent (key : jsstring) (params : list (jsstring * jsstring)) :
  key ∉ params.*1 -> paramValue key params = str "undefined".
Proof.
  induction params as [|[k v] rest IH]; intros Hn; [reflexivity|].
  cbn [paramValue]. rewrite decide_False.
  - apply IH. intros Hin. apply Hn. right. exact Hin.
  - intros ->. apply Hn. left.
Qed.

Lemma paramValue_perm (key : jsstring) (params params' : list (jsstring * jsstring)) :
  NoDup (params.*1) -> params ≡ₚ params' ->
  paramValue key params = paramValue key params'.
Proof.
  intros Hnd Hp. assert (NoDup (params'.*1)) as Hnd' by (rewrite <- Hp; exact Hnd).
  destruct (decide (key ∈ params.*1)) as [Hin|Hout].
  - apply list_elem_of_fmap in Hin as [[k v] [-> Hin]]. cbn [fst].
    rewrite (paramValue_lookup k v params Hnd Hin).
    symmetry. apply paramValue_lookup; [exact Hnd'|]. rewrite <- Hp. exact Hin.
  - rewrite (paramValue_absent key params Hout). symmetry. apply paramValue_absent.
    rewrite <- Hp. exact Hout.
Qed.

(** Property X29.  The key that [createCacheKey] makes of a URL and an
    object does not depend on the order of the properties of the object.
    Without property it is the URL; and the key of the URL [url] with
    the one property [k: v] is also the key of the URL [url:k:v] without
    property, so that different requests can share a key. *)
Theorem createCacheKey_order (url : jsstring) (params params' : list (jsstring * jsstring))
    (k v : jsstring) :
  NoDup (params.*1) ->
  params ≡ₚ params' ->
  createCacheKeyWith url params = createCacheKeyWith url params'
  /\ createCacheKeyWith url [] = createCacheKey url
  /\ createCacheKeyWith url [(k, v)]
     = createCacheKeyWith (url ++ str ":" ++ k ++ str ":" ++ v) [].
Proof.
  intros Hnd Hp. split; [|split].
  - unfold createCacheKeyWith.
    rewrite (sortKeys_perm (params.*1) (params'.*1)) by (rewrite Hp; reflexivity).
    erewrite (map_ext (fun key => key ++ str ":" ++ paramValue key params)); [reflexivity|].
    intros key. cbn beta. rewrite (paramValue_perm key params params' Hnd Hp). reflexivity.
  - reflexivity.
  - unfold createCacheKeyWith. cbn [fmap list_fmap fst sortKeys fold_left insertKey map
      paramValue]. rewrite decide_True by reflexivity.
    destruct k as [|c k]; reflexivity.
Qed.

(** An object with the properties [limit] and [category], set in the two
    orders. *)
Lemma createCacheKey_order_witness :
  createCacheKeyWith (str "u") [(str "limit", str "5"); (str "category", str "api")]
  = createCacheKeyWith (str "u") [(str "category", str "api"); (str "limit", str "5")].
Proof.
  apply (createCacheKey_order (str "u")
           [(str "limit", str "5"); (str "category", str "api")]
           [(str "category", str "api"); (str "limit", str "5")] [] []).
  - cbn. repeat constructor; [|apply not_elem_of_nil].
    intros H. apply list_elem_of_singleton in H. discriminate H.
  - apply Permutation_swap.
Defined.

End CacheKeyProperties.

(** ** The index: its maps, its entries and how it is built *)

Module IndexProperties.
Import JS JSFacts Indexer IndexerSpec KeywordFacts SearchFacts SearchTool SearchToolFacts.
Import IndexBuilder IndexBuilderExamples.

(** *** [new Set] and [new Map] *)

Abbreviation addNew :=
  (fun (acc : list jsstring) (x : jsstring) => if decide (x ∈ acc) then acc else acc ++ [x]).

Lemma addNew_fold_elem (l acc : list jsstring) (x : jsstring) :
  x ∈ fold_left addNew l acc <-> x ∈ acc \/ x ∈ l.
Proof.
  revert acc. induction l as [|y l IH]; intros acc; cbn [fold_left].
  - split; [tauto|]. intros [H|H]; [exact H | inversion H].
  - rewrite IH, elem_of_cons. destruct (decide (y ∈ acc)) as [Hy|Hy].
    + split; [tauto|]. intros [H|[->|H]]; tauto.
    + rewrite elem_of_app, list_elem_of_singleton. tauto.
Qed.

Lemma addNew_fold_NoDup (l acc : list jsstring) :
  NoDup acc -> NoDup (fold_left addNew l acc).
Proof.
  revert acc. induction l as [|y l IH]; intros acc Hnd; cbn [fold_left]; [exact Hnd|].
  apply IH. destruct (decide (y ∈ acc)) as [Hy|Hy]; [exact Hnd|].
  apply NoDup_app. split; [exact Hnd|]. split; [|apply NoDup_singleton].
  intros x Hx Hx'. apply list_elem_of_singleton in Hx'. subst x. contradiction.
Qed.

Lemma setOf_elem (l : list jsstring) (x : jsstring) : x ∈ setOf l <-> x ∈ l.
Proof.
  unfold setOf. rewrite addNew_fold_elem. split; [|tauto].
  intros [H|H]; [inversion H | exact H].
Qed.

Lemma setOf_NoDup (l : list jsstring) : NoDup (setOf l).
Proof. apply addNew_fold_NoDup. apply NoDup_nil_2. Qed.

Section MapSet.
Context {V : Type}.
Implicit Types (m : list (jsstring * V)) (k key : jsstring) (v value : V).

Lemma mapSet_keys key value m :
  (mapSet key value m).*1 = addNew (m.*1) key.
Proof.
  induction m as [|[k v] m IH]; cbn [mapSet fmap list_fmap fst].
  - rewrite decide_False by (intros H; inversion H). reflexivity.
  - destruct (decide (k = key)) as [->|Hne].
    + rewrite decide_True by left. reflexivity.
    + cbn [fmap list_fmap fst]. change (list_fmap _ _ fst) with (fmap (M := list) (@fst jsstring V)).
      rewrite IH. destruct (decide (key ∈ m.*1)) as [Hin|Hout].
      * rewrite decide_True by (right; exact Hin). reflexivity.
      * rewrite decide_False; [reflexivity|].
        rewrite elem_of_cons. intros [H|H]; [congruence | contradiction].
Qed.

Lemma mapSet_elem key value m k v :
  NoDup (m.*1) ->
  (k, v) ∈ mapSet key value m
  <-> (k = key /\ v = value) \/ (k <> key /\ (k, v) ∈ m).
Proof.
  induction m as [|[k0 v0] m IH]; intros Hnd; cbn [mapSet].
  - rewrite list_elem_of_singleton. split.
    + intros [= -> ->]. left. tauto.
    + intros [[-> ->]|[_ H]]; [reflexivity | inversion H].
  - cbn [fmap list_fmap fst] in Hnd. apply NoDup_cons in Hnd as [Hk0 Hnd].
    destruct (decide (k0 = key)) as [->|Hne].
    + rewrite !elem_of_cons. split.
      * intros [[= -> ->]|H]; [left; tauto|]. right.
        split; [|right; exact H]. intros ->. apply Hk0.
        apply list_elem_of_fmap. exists (key, v). split; [reflexivity | exact H].
      * intros [[-> ->]|[Hk [[= -> ->]|H]]]; [left; reflexivity | contradiction | right; exact H].
    + rewrite !elem_of_cons, (IH Hnd). split.
      * intros [[= -> ->]|[[-> ->]|[Hk H]]]; [right | left | right]; tauto.
      * intros [[-> ->]|[Hk [[= -> ->]|H]]]; [right; left | left | right; right]; tauto.
Qed.

End MapSet.

(** An entry is the last of a list with its URL. *)
Abbreviation lastWithUrl l e :=
  (exists l1 l2 : list IndexedDoc, l = l1 ++ e :: l2 /\ url e ∉ url <$> l2).

Lemma lastWithUrl_cons (x : IndexedDoc) (l : list IndexedDoc) (e : IndexedDoc) :
  lastWithUrl (x :: l) e
  <-> lastWithUrl l e \/ (e = x /\ url x ∉ url <$> l).
Proof.
  split.
  - intros (l1 & l2 & Hl & Hu). destruct l1 as [|y l1]; cbn in Hl.
    + injection Hl as -> ->. right. split; [reflexivity | exact Hu].
    + injection Hl as -> ->. left. exists l1, l2. split; [reflexivity | exact Hu].
  - intros [(l1 & l2 & -> & Hu)|[-> Hu]].
    + exists (x :: l1), l2. split; [reflexivity | exact Hu].
    + exists [], l. split; [reflexivity | exact Hu].
Qed.

Lemma lastWithUrl_absent (l : list IndexedDoc) (e : IndexedDoc) :
  lastWithUrl l e -> url e ∈ url <$> l.
Proof.
  intros (l1 & l2 & -> & _). rewrite fmap_app, elem_of_app. right. left.
Qed.

Lemma urlMap_fold (l : list IndexedDoc) (m : list (jsstring * IndexedDoc)) :
  NoDup (m.*1) ->
  let m' := fold_left (fun m entry => mapSet (url entry) entry m) l m in
  m'.*1 = fold_left addNew (url <$> l) (m.*1)
  /\ NoDup (m'.*1)
  /\ forall k e, (k, e) ∈ m'
       <-> (k = url e /\ lastWithUrl l e) \/ ((k, e) ∈ m /\ k ∉ url <$> l).
Proof.
  revert m. induction l as [|x l IH]; intros m Hnd; cbn [fold_left fmap list_fmap].
  - split; [reflexivity|]. split; [exact Hnd|]. intros k e. split.
    + intros H. right. split; [exact H|]. intros H'. inversion H'.
    + intros [[_ (l1 & l2 & Hl & _)]|[H _]]; [destruct l1; discriminate Hl | exact H].
  - assert (NoDup ((mapSet (url x) x m).*1)) as Hnd'.
    { rewrite mapSet_keys. destruct (decide (url x ∈ m.*1)) as [Hin|Hout]; [exact Hnd|].
      apply NoDup_app. split; [exact Hnd|]. split; [|apply NoDup_singleton].
      intros y Hy Hy'. apply list_elem_of_singleton in Hy'. subst y. contradiction. }
    destruct (IH _ Hnd') as (H1 & H2 & H3).
    split; [rewrite H1, mapSet_keys; reflexivity|]. split; [exact H2|].
    intros k e. rewrite H3, lastWithUrl_cons, (mapSet_elem _ _ _ _ _ Hnd).
    change (list_fmap _ _ url l) with (url <$> l).
    rewrite not_elem_of_cons. split.
    + intros [[-> Hlast]|[[[-> ->]|[Hk Hin]] Hout]].
      * left. tauto.
      * left. tauto.
      * right. tauto.
    + intros [[-> [Hlast|[-> Hout]]]|[Hin [Hk Hout]]].
      * left. tauto.
      * right. tauto.
      * right. split; [right; split; [congruence | exact Hin] | exact Hout].
Qed.

Lemma keyed_by_url (m : list (jsstring * IndexedDoc)) :
  (forall k e, (k, e) ∈ m -> k = url e) -> url <$> m.*2 = m.*1.
Proof.
  induction m as [|[k e] m IH]; intros H; [reflexivity|].
  cbn [fmap list_fmap fst snd]. f_equal.
  - symmetry. apply H. left.
  - apply IH. intros k' e' Hin. apply H. right. exact Hin.
Qed.

(** Property X8.  The entries of the index after the removal of
    duplicates: one entry for each URL, at the place where the URL came
    first, and of the entries with the same URL the last one is kept. *)
Theorem uniqueByUrl_last_wins (allEntries : list IndexedDoc) :
  url <$> uniqueByUrl allEntries = setOf (url <$> allEntries)
  /\ NoDup (url <$> uniqueByUrl allEntries)
  /\ (forall u, u ∈ url <$> uniqueByUrl allEntries <-> u ∈ url <$> allEntries)
  /\ (forall e, e ∈ uniqueByUrl allEntries
        <-> exists before after,
              allEntries = before ++ e :: after /\ url e ∉ url <$> after).
Proof.
  destruct (urlMap_fold allEntries [] (NoDup_nil_2 (A := jsstring))) as (H1 & H2 & H3).
  cbv zeta in H1, H2, H3. unfold uniqueByUrl.
  set (m := fold_left (fun m entry => mapSet (url entry) entry m) allEntries []) in *.
  assert (forall k e, (k, e) ∈ m -> k = url e) as Hkey.
  { intros k e H. apply H3 in H as [[-> _]|[H _]]; [reflexivity | inversion H]. }
  rewrite (keyed_by_url m Hkey).
  split; [exact H1|]. split; [exact H2|].
  split; [intros u; rewrite H1; apply setOf_elem|].
  intros e. rewrite list_elem_of_fmap. split.
  - intros [[k e'] [-> Hin]]. cbn [snd]. apply H3 in Hin as [[_ H]|[H _]];
      [exact H | inversion H].
  - intros Hlast. exists (url e, e). split; [reflexivity|].
    apply H3. left. split; [reflexivity | exact Hlast].
Qed.

(** *** The keyword map and the category map *)

Lemma addPosting_nonempty (index : nat) (m : gmap jsstring (list nat)) (k : jsstring) :
  (forall t l, m !! t = Some l -> l <> []) ->
  forall t l, addPosting index m k !! t = Some l -> l <> [].
Proof.
  intros Hm t l. unfold addPosting. destruct (decide (t = k)) as [->|Hne].
  - rewrite lookup_insert_eq. intros [= <-]. intros H.
    apply app_eq_nil in H as [_ H]. discriminate H.
  - rewrite lookup_insert_ne by congruence. apply Hm.
Qed.

Lemma buildKeywordMapFrom_nonempty (off : nat) (es : list IndexedDoc)
    (m : gmap jsstring (list nat)) :
  (forall t l, m !! t = Some l -> l <> []) ->
  forall t l, buildKeywordMapFrom off es m !! t = Some l -> l <> [].
Proof.
  revert off m. induction es as [|e es IH]; intros off m Hm; cbn [buildKeywordMapFrom];
    [exact Hm|].
  apply IH. clear IH. revert m Hm. induction (keywords e) as [|k ks IHk]; intros m Hm;
    cbn [fold_left]; [exact Hm|].
  apply IHk. apply addPosting_nonempty. exact Hm.
Qed.

Lemma buildCategoryMapFrom_nonempty (off : nat) (es : list IndexedDoc)
    (m : gmap jsstring (list nat)) :
  (forall t l, m !! t = Some l -> l <> []) ->
  forall t l, buildCategoryMapFrom off es m !! t = Some l -> l <> [].
Proof.
  revert off m. induction es as [|e es IH]; intros off m Hm; cbn [buildCategoryMapFrom];
    [exact Hm|].
  apply IH. apply addPosting_nonempty. exact Hm.
Qed.

Lemma postingsOf_elem (es : list IndexedDoc) (t : jsstring) (i : nat) :
  i ∈ postingsOf es t <-> exists e, es !! i = Some e /\ t ∈ keywords e.
Proof.
  pose proof (hitsOf_postings es t i) as Hhits. split.
  - intros Hin. apply hitsOf_present in Hin. rewrite Hhits in Hin.
    destruct (es !! i) as [e|]; cbn in Hin; [|lia]. exists e. split; [reflexivity|].
    destruct (filter (fun k => k = t) (keywords e)) as [|k ks] eqn:Hf; [cbn in Hin; lia|].
    assert (k ∈ filter (fun k => k = t) (keywords e)) as Hk by (rewrite Hf; left).
    apply list_elem_of_filter in Hk as [-> Hk]. exact Hk.
  - intros [e [He Ht]]. destruct (decide (i ∈ postingsOf es t)) as [Hin|Hout]; [exact Hin|].
    apply hitsOf_absent in Hout. rewrite Hhits, He in Hout. cbn in Hout.
    assert (t ∈ filter (fun k => k = t) (keywords e)) as Hk
      by (apply list_elem_of_filter; split; [reflexivity | exact Ht]).
    destruct (filter (fun k => k = t) (keywords e)); [inversion Hk | discriminate Hout].
Qed.

Lemma constant_sorted (off : nat) (C L : list nat) :
  Forall (fun j => j = off) C ->
  StronglySorted le L -> Forall (fun j => S off <= j) L ->
  StronglySorted le (C ++ L) /\ Forall (fun j => off <= j) (C ++ L).
Proof.
  intros Hconst Hs Hf. split.
  - apply StronglySorted_app. split; [|split; [|exact Hs]].
    + intros x y Hx Hy. rewrite Forall_forall in Hconst, Hf.
      apply Hconst in Hx. apply Hf in Hy. lia.
    + clear -Hconst. induction Hconst as [|x C Hx HC IHC]; constructor; [exact IHC|].
      apply Forall_forall. intros y Hy. rewrite Forall_forall in HC.
      apply HC in Hy. lia.
  - apply Forall_app. split.
    + eapply Forall_impl; [exact Hconst|]. cbn. intros; lia.
    + eapply Forall_impl; [exact Hf|]. cbn. intros; lia.
Qed.

Lemma postingsFrom_sorted (t : jsstring) (es : list IndexedDoc) (off : nat) :
  let L := mjoin (imap (fun i e => map (fun _ : jsstring => off + i)
                                     (filter (fun k => k = t) (keywords e))) es) in
  StronglySorted le L /\ Forall (fun j => off <= j) L.
Proof.
  revert off. induction es as [|e es IH]; intros off; cbn zeta.
  - cbn. split; constructor.
  - rewrite imap_cons. cbn [mjoin].
    rewrite (imap_ext _ (fun i e => map (fun _ : jsstring => S off + i)
                                       (filter (fun k => k = t) (keywords e))))
      by (intros i x _; cbn; apply map_ext; intros _; lia).
    destruct (IH (S off)) as [Hs Hf]. cbv zeta in Hs, Hf. clear IH.
    apply constant_sorted; [|exact Hs | exact Hf].
    apply Forall_forall. intros j Hj. apply list_elem_of_In in Hj.
    apply in_map_iff in Hj as [? [<- _]]. lia.
Qed.

(** Property X9.  The keyword map of an index built from the entries
    [es]: a keyword is a key of the map exactly when an entry has it, and
    its posting list holds the positions of the entries that have it, in
    increasing order. *)
Theorem keywordMap_postings (es : list IndexedDoc) (t : jsstring) :
  (buildKeywordMap es !! t = None <-> forall e, e ∈ es -> t ∉ keywords e)
  /\ (forall l, buildKeywordMap es !! t = Some l ->
        l <> []
        /\ (forall i, i ∈ l <-> exists e, es !! i = Some e /\ t ∈ keywords e)
        /\ StronglySorted le l).
Proof.
  pose proof (buildKeywordMap_lookup es t) as Hl.
  assert (forall l, buildKeywordMap es !! t = Some l -> l <> []) as Hne.
  { intros l. apply (buildKeywordMapFrom_nonempty 0 es ∅).
    intros k l'. rewrite lookup_empty. discriminate. }
  split.
  - split.
    + intros Hnone e He Ht. rewrite Hnone in Hl. cbn in Hl.
      apply list_elem_of_lookup in He as [i He].
      assert (i ∈ postingsOf es t) as Hin
        by (apply postingsOf_elem; exists e; split; assumption).
      rewrite <- Hl in Hin. inversion Hin.
    + intros Hno. destruct (buildKeywordMap es !! t) as [l|] eqn:Hk; [|reflexivity].
      exfalso. cbn in Hl. subst l. destruct (postingsOf es t) as [|i l] eqn:Hp.
      * exact (Hne [] eq_refl eq_refl).
      * assert (i ∈ postingsOf es t) as Hin by (rewrite Hp; left).
        apply postingsOf_elem in Hin as [e [He Ht]].
        apply (Hno e); [|exact Ht]. apply list_elem_of_lookup. exists i. exact He.
  - intros l Hk. split; [apply Hne; exact Hk|]. rewrite Hk in Hl. cbn in Hl. subst l.
    split; [intros i; apply postingsOf_elem|].
    exact (proj1 (postingsFrom_sorted t es 0)).
Qed.

(** The positions that the category map holds for a category. *)
Lemma buildCategoryMapFrom_lookup (c : jsstring) (es : list IndexedDoc) (off : nat)
    (m : gmap jsstring (list nat)) :
  default [] (buildCategoryMapFrom off es m !! c)
  = default [] (m !! c)
    ++ mjoin (imap (fun i e => if decide (category e = c) then [off + i] else []) es).
Proof.
  revert off m. induction es as [|e es IH]; intros off m; cbn [buildCategoryMapFrom].
  - cbn. rewrite app_nil_r. reflexivity.
  - rewrite IH, imap_cons. cbn [mjoin]. unfold addPosting.
    rewrite (imap_ext (fun i e => if decide (category e = c) then [S off + i] else [])
                      ((fun i e => if decide (category e = c) then [off + i] else []) ∘ S))
      by (intros i x _; cbn; destruct (decide (category x = c));
          [f_equal; lia | reflexivity]).
    destruct (decide (category e = c)) as [->|Hne].
    + rewrite lookup_insert_eq. cbn [default list_join mjoin]. unfold id.
      rewrite <- !app_assoc, Nat.add_0_r. reflexivity.
    + rewrite lookup_insert_ne by exact Hne. reflexivity.
Qed.

Lemma category_positions (c : jsstring) (es pre : list IndexedDoc) :
  map (fun index => (pre ++ es) !! index)
      (mjoin (imap (fun i e => if decide (category e = c) then [length pre + i] else [])
                   es))
  = Some <$> filter (fun e => category e = c) es.
Proof.
  revert pre. induction es as [|e es IH]; intros pre; [reflexivity|].
  rewrite imap_cons. cbn [mjoin list_join]. rewrite map_app.
  rewrite (imap_ext _ (fun i x => if decide (category x = c)
                                  then [length (pre ++ [e]) + i] else []))
    by (intros i x _; cbn; rewrite length_app; cbn;
        destruct (decide (category x = c)); [f_equal; lia | reflexivity]).
  replace (pre ++ e :: es) with ((pre ++ [e]) ++ es) by (rewrite <- app_assoc; reflexivity).
  rewrite IH. destruct (decide (category e = c)) as [Hc|Hc].
  - rewrite filter_cons_True by exact Hc. cbn [map app fmap list_fmap]. f_equal.
    rewrite <- app_assoc. cbn [app]. rewrite Nat.add_0_r.
    rewrite lookup_app_r by lia. rewrite Nat.sub_diag. reflexivity.
  - rewrite filter_cons_False by exact Hc. reflexivity.
Qed.

(** Property X10.  In an index built from the entries [es],
    [getEntriesByCategory] returns the entries of the category, all of
    them and in the order of the index; a category that no entry has
    gives the empty list, and so does an index that is not initialised. *)
Theorem getEntriesByCategory_filter (es : list IndexedDoc) (c : jsstring) :
  getEntriesByCategory (Some (indexOf es)) c
  = Some <$> filter (fun e => category e = c) es
  /\ getEntriesByCategory None c = []
  /\ getAllEntries (Some (indexOf es)) = es.
Proof.
  split; [|split; reflexivity].
  unfold getEntriesByCategory, indexOf. cbn [categoryMap entries].
  pose proof (buildCategoryMapFrom_lookup c es 0 ∅) as Hl.
  rewrite lookup_empty in Hl. cbn [default app] in Hl.
  fold (buildCategoryMap es) in Hl.
  pose proof (category_positions c es []) as Hp. cbn [app length] in Hp.
  destruct (buildCategoryMap es !! c) as [l|]; cbn [default] in Hl; unfold id in Hl.
  - rewrite Hl. exact Hp.
  - rewrite <- Hl in Hp. exact Hp.
Qed.

(** *** What a search finds *)

Lemma termOverlap_positive (kws : list jsstring) (e : IndexedDoc) :
  0 < termOverlap kws e <-> exists k, k ∈ kws /\ k ∈ keywords e.
Proof.
  unfold termOverlap. induction kws as [|t kws IH]; cbn [map sum_list].
  - split; [cbn; lia | intros [k [H _]]; inversion H].
  - split.
    + intros H. destruct (filter (fun k => k = t) (keywords e)) as [|k ks] eqn:Hf.
      * cbn [length] in H. apply IH in H as [k [H1 H2]]. exists k. split; [right|]; assumption.
      * assert (k ∈ filter (fun k => k = t) (keywords e)) as Hk by (rewrite Hf; left).
        apply list_elem_of_filter in Hk as [-> Hk]. exists t. split; [left | exact Hk].
    + intros [k [Hk1 Hk2]]. apply elem_of_cons in Hk1 as [->|Hk1].
      * assert (t ∈ filter (fun k => k = t) (keywords e)) as Hk
          by (apply list_elem_of_filter; split; [reflexivity | exact Hk2]).
        destruct (filter (fun k => k = t) (keywords e)); [inversion Hk | cbn; lia].
      * assert (0 < sum_list (map (fun t => length (filter (fun k => k = t) (keywords e))) kws))
          by (apply IH; exists k; split; assumption).
        lia.
Qed.

Lemma hit_positions (es : list IndexedDoc) (kws : list jsstring) (i : nat) :
  i ∈ hitSequence es kws <-> 0 < from_option (termOverlap kws) 0 (es !! i).
Proof.
  rewrite <- hitsOf_hitSequence. split; [apply hitsOf_present|].
  intros H. destruct (decide (i ∈ hitSequence es kws)) as [Hin|Hout]; [exact Hin|].
  apply hitsOf_absent in Hout. lia.
Qed.

Lemma count_positions_from (f : IndexedDoc -> nat) (l pre : list IndexedDoc) :
  length (filter (fun i => 0 < from_option f 0 ((pre ++ l) !! i))
                 (seq (length pre) (length l)))
  = length (filter (fun e => 0 < f e) l).
Proof.
  revert pre. induction l as [|x l IH]; intros pre; [reflexivity|].
  cbn [length seq]. rewrite !filter_cons.
  rewrite (list_lookup_middle pre l x (length pre) eq_refl). cbn [from_option].
  specialize (IH (pre ++ [x])). rewrite length_app in IH. cbn [length] in IH.
  rewrite Nat.add_1_r, <- app_assoc in IH. cbn [app] in IH.
  destruct (decide (0 < f x)); cbn [length]; rewrite IH; reflexivity.
Qed.

Lemma matching_positions (es : list IndexedDoc) (kws : list jsstring) :
  length (firstOccurrences (hitSequence es kws))
  = length (filter (fun e => 0 < termOverlap kws e) es).
Proof.
  rewrite <- (count_positions_from (termOverlap kws) es []). cbn [app length].
  apply Permutation_length. apply NoDup_Permutation.
  - apply firstOccurrences_NoDup.
  - apply NoDup_filter, NoDup_seq.
  - intros i. rewrite firstOccurrences_elem, hit_positions, list_elem_of_filter, elem_of_seq.
    split; [|tauto]. intros H. split; [exact H|].
    destruct (es !! i) as [e|] eqn:He; [|cbn in H; lia].
    apply lookup_lt_Some in He. lia.
Qed.

Lemma search_as_ranked (es : list IndexedDoc) (query : jsstring) :
  search (Some (indexOf es)) query
  = map (fun p => es !! fst p) (rankedScores (indexOf es) query).
Proof.
  unfold search, searchIndexInternal, rankedScores.
  destruct (extractKeywordsFromText query); reflexivity.
Qed.

(** Property X11.  What a search in an index built from the entries
    [es] finds.  An entry matches when one of its keywords is a keyword
    of the query.  The search returns ten matching entries when ten or
    more match and otherwise all of them; it returns nothing else and no
    entry twice. *)
Theorem search_finds_matching (es : list IndexedDoc) (query : jsstring) :
  let kws := extractKeywordsFromText query in
  let matches := fun e => exists k, k ∈ kws /\ k ∈ keywords e in
  let found := search (Some (indexOf es)) query in
  length found = min 10 (length (filter (fun e => 0 < termOverlap kws e) es))
  /\ (forall e, 0 < termOverlap kws e <-> matches e)
  /\ (forall r, r ∈ found -> exists e, r = Some e /\ e ∈ es /\ matches e)
  /\ NoDup (fst <$> rankedScores (indexOf es) query)
  /\ (length (filter (fun e => 0 < termOverlap kws e) es) <= 10 ->
      forall e, e ∈ es -> matches e -> Some e ∈ found).
Proof.
  intros kws matches found. unfold found. rewrite search_as_ranked.
  rewrite rankedScores_closed. unfold firstHitRanking. fold kws.
  set (F := firstOccurrences (hitSequence es kws)).
  set (scored := map (fun i => (i, from_option (termOverlap kws) 0 (es !! i))) F).
  pose proof (sortByScore_perm scored) as Hperm.
  assert (length (sortByScore scored) = length F) as Hlen.
  { rewrite <- (Permutation_length Hperm). unfold scored. apply length_map. }
  split.
  { rewrite length_map, length_take, Hlen. unfold F. rewrite matching_positions.
    reflexivity. }
  split; [intros e; apply termOverlap_positive|].
  assert (forall p, p ∈ sortByScore scored ->
            fst p ∈ hitSequence es kws
            /\ snd p = from_option (termOverlap kws) 0 (es !! fst p)) as Hin.
  { intros p Hp. rewrite <- Hperm in Hp. unfold scored in Hp.
    apply list_elem_of_fmap in Hp as [i [-> Hi]]. cbn [fst snd].
    split; [|reflexivity]. apply firstOccurrences_elem. exact Hi. }
  split.
  { intros r Hr. apply list_elem_of_fmap in Hr as [p [-> Hp]].
    apply subseteq_take in Hp. apply Hin in Hp as [Hp _].
    apply hit_positions in Hp. destruct (es !! fst p) as [e|] eqn:He; [|cbn in Hp; lia].
    exists e. split; [reflexivity|].
    split; [apply list_elem_of_lookup; exists (fst p); exact He|].
    apply termOverlap_positive. exact Hp. }
  split.
  { apply (sublist_NoDup _ (fst <$> sortByScore scored)).
    - rewrite <- Hperm.
      assert (fst <$> scored = F) as ->
        by (unfold scored; clear; induction F as [|i F IHF]; cbn;
            [reflexivity | f_equal; exact IHF]).
      apply firstOccurrences_NoDup.
    - apply fmap_sublist, sublist_take. }
  intros Hfew e He Hm. rewrite take_ge by (rewrite Hlen; unfold F;
    rewrite matching_positions; exact Hfew).
  apply list_elem_of_lookup in He as [i He].
  apply list_elem_of_fmap.
  exists (i, from_option (termOverlap kws) 0 (es !! i)). cbn [fst].
  split; [symmetry; exact He|]. rewrite <- Hperm. unfold scored.
  apply list_elem_of_fmap. exists i. split; [reflexivity|].
  apply firstOccurrences_elem, hit_positions. rewrite He. cbn.
  apply termOverlap_positive. exact Hm.
Qed.

(** *** The entries made of the links of a page *)

Lemma fullUrlOf_spec (h u : jsstring) :
  fullUrlOf h = Some u -> u = h \/ u = baseUrl ++ h.
Proof.
  unfold fullUrlOf. destruct (startsWith (str "http") h); [intros [= <-]; left; reflexivity|].
  destruct (startsWith (str "/") h); [intros [= <-]; right; reflexivity | discriminate].
Qed.

Lemma url_keywords_long (parse : URLParser) (u w : jsstring) :
  w ∈ extractKeywordsFromUrl parse u -> 2 < length w.
Proof.
  unfold extractKeywordsFromUrl. destruct (parse u) as [urlObj|]; [|intros H; inversion H].
  destruct (urlPathWords (pathname urlObj)); [intros H; inversion H|].
  intros H. apply list_elem_of_filter in H as [H _]. exact H.
Qed.

(** What [linkEntry] makes of a link. *)
Lemma linkEntry_entry (env : IndexEnv) (categoryName : jsstring) (a : Anchor)
    (e : IndexedDoc) :
  linkEntry env categoryName a = Some e ->
  (url e = href a \/ url e = baseUrl ++ href a)
  /\ includes (str "developer.tenable.com") (url e) = true
  /\ title e = trim (linkText a) /\ title e <> []
  /\ description e <> [] /\ length (description e) <= 200
  /\ category e = categoryName
  /\ NoDup (keywords e) /\ Forall (fun k => 2 < length k) (keywords e).
Proof.
  unfold linkEntry. destruct (href a) as [|h0 h] eqn:Hh; [discriminate|].
  destruct (trim (linkText a)) as [|t0 t] eqn:Ht; [discriminate|].
  destruct (fullUrlOf (h0 :: h)) as [fullUrl|] eqn:Hf; [|discriminate].
  destruct (includes (str "developer.tenable.com") fullUrl) eqn:Hi; [|discriminate].
  cbn [negb orString]. intros [= <-]. cbn [url title description category keywords].
  split; [apply fullUrlOf_spec; exact Hf|]. split; [exact Hi|].
  split; [reflexivity|]. split; [discriminate|].
  assert (length (describe a) <= 200) as Hd.
  { unfold describe. destruct (nextParagraph a) as [p|].
    - rewrite length_take. lia.
    - destruct (100 <? length (parentText a)); [rewrite length_take; lia | cbn; lia]. }
  split; [destruct (describe a); discriminate|].
  split; [destruct (describe a) as [|d0 d]; [vm_compute; lia | exact Hd]|].
  split; [reflexivity|]. split; [apply setOf_NoDup|].
  apply Forall_forall. intros k Hk. apply (proj1 (setOf_elem _ _)) in Hk.
  apply elem_of_app in Hk as [Hk|Hk].
  - apply (url_keywords_long _ _ _ Hk).
  - apply extractKeywordsFromText_sound in Hk as [Hk _]. exact Hk.
Qed.

Lemma omap_length {A B : Type} (f : A -> option B) (l : list A) :
  length (omap f l) <= length l.
Proof.
  induction l as [|x l IH]; [reflexivity|]. cbn. destruct (f x); cbn; lia.
Qed.

(** Property X12.  The entries that [extractDocLinks] makes of the links
    of a page, one at most for each link and in the order of the links.
    The URL of an entry is the [href] of its link, behind the address of
    the site when the [href] starts with a slash, and contains
    [developer.tenable.com]; its title is the trimmed text of the link
    and is not empty, so [extractTitleFromUrl] is never used; its
    description is not empty and has 200 units at most; its keywords are
    pairwise different and longer than 2. *)
Theorem extractDocLinks_entries (env : IndexEnv) (html categoryName : jsstring)
    (anchors : list Anchor) :
  anchorsOf env html = Ok anchors ->
  exists found,
    extractDocLinks env html categoryName = Ok found
    /\ length found <= length anchors
    /\ Forall (fun e =>
         (exists a, a ∈ anchors
            /\ (url e = href a \/ url e = baseUrl ++ href a)
            /\ title e = trim (linkText a))
         /\ includes (str "developer.tenable.com") (url e) = true
         /\ title e <> []
         /\ description e <> [] /\ length (description e) <= 200
         /\ category e = categoryName
         /\ NoDup (keywords e) /\ Forall (fun k => 2 < length k) (keywords e))
       found.
Proof.
  intros Ha. unfold extractDocLinks. rewrite Ha. eexists. split; [reflexivity|].
  split; [apply omap_length|].
  apply Forall_forall. intros e He. apply list_elem_of_omap in He as [a [Hin He]].
  destruct (linkEntry_entry _ _ _ _ He) as (H1 & H2 & H3 & H4 & H5 & H6 & H7 & H8 & H9).
  split; [exists a; split; [exact Hin|]; split; assumption|].
  repeat (split; [assumption|]). assumption.
Qed.

Example extractDocLinks_example :
  extractDocLinks referenceOnly (str "<a>") (str "API References")
  = Ok [mkDoc scansUrl (str "List Scans") (str "Returns the scans.")
          (str "API References") [str "reference"; str "scans"; str "list"]].
Proof. vm_compute. reflexivity. Qed.

(** The reference page of the example holds three links, of which one
    gives an entry. *)
Lemma extractDocLinks_entries_witness :
  exists found,
    extractDocLinks referenceOnly (str "<a>") (str "API References") = Ok found
    /\ length found <= 3.
Proof.
  destruct (extractDocLinks_entries referenceOnly (str "<a>") (str "API References")
              [scansLink; topLink; outsideLink] eq_refl) as [found [H1 [H2 _]]].
  exists found. split; [exact H1 | exact H2].
Defined.

(** *** The index that [buildIndex] makes *)

Lemma uniqueByUrl_subset (l : list IndexedDoc) (e : IndexedDoc) :
  e ∈ uniqueByUrl l -> e ∈ l.
Proof.
  destruct (urlMap_fold l [] (NoDup_nil_2 (A := jsstring))) as (_ & _ & H3).
  cbv zeta in H3. unfold uniqueByUrl. intros He.
  apply list_elem_of_fmap in He as [[k e'] [-> Hin]]. cbn [snd].
  apply H3 in Hin as [[_ (l1 & l2 & -> & _)]|[H _]]; [|inversion H].
  rewrite elem_of_app. right. left.
Qed.

Lemma uniqueByUrl_NoDup (l : list IndexedDoc) : NoDup (url <$> uniqueByUrl l).
Proof.
  destruct (urlMap_fold l [] (NoDup_nil_2 (A := jsstring))) as (_ & H2 & H3).
  cbv zeta in H2, H3. unfold uniqueByUrl.
  rewrite keyed_by_url; [exact H2|].
  intros k e H. apply H3 in H as [[-> _]|[H _]]; [reflexivity | inversion H].
Qed.

(** A page that gave no answer to work with: the request failed or the
    status is 400 or more. *)
Abbreviation unanswered env page :=
  (match fetchPage env (fst page) with
   | Throw _ => True
   | Ok htmlContent => (400 <= statusCode htmlContent)%Z
   end).

Lemma pageEntries_unanswered (env : IndexEnv) (page : jsstring * jsstring) :
  unanswered env page -> pageEntries env page = [].
Proof.
  unfold pageEntries. destruct (fetchPage env page.1) as [h|]; [|reflexivity].
  intros H. destruct (Z.leb_spec 400 (statusCode h)); [reflexivity | lia].
Qed.

Lemma pageEntries_entry (env : IndexEnv) (page : jsstring * jsstring) (e : IndexedDoc) :
  e ∈ pageEntries env page ->
  exists a, linkEntry env page.2 a = Some e.
Proof.
  unfold pageEntries. destruct (fetchPage env page.1) as [h|]; [|intros H; inversion H].
  destruct (400 <=? statusCode h)%Z; [intros H; inversion H|].
  unfold extractDocLinks. destruct (anchorsOf env _) as [anchors|];
    [|intros H; inversion H].
  intros H. apply list_elem_of_omap in H as [a [_ H]]. exists a. exact H.
Qed.

(** Property X13.  [buildIndex] requests the reference page and the
    recipes page, in that order, whatever the first answers.  The index
    it returns holds one entry for each URL; every entry comes from a
    link of a page that answered with a status below 400, has the
    category of that page, a URL that contains [developer.tenable.com],
    a title and a description that are not empty, and keywords that are
    pairwise different and longer than 2.  When no page answers the
    index is empty. *)
Theorem buildIndex_entries (env : IndexEnv) :
  let ix := fst (buildIndex env) in
  snd (buildIndex env)
  = [Fetch (str "https://developer.tenable.com/reference");
     Fetch (str "https://developer.tenable.com/recipes")]
  /\ indexState (Some ix)
  /\ NoDup (url <$> entries ix)
  /\ Forall (fun e =>
        includes (str "developer.tenable.com") (url e) = true
        /\ (category e = str "API References" \/ category e = str "Recipes")
        /\ title e <> [] /\ description e <> []
        /\ NoDup (keywords e) /\ Forall (fun k => 2 < length k) (keywords e))
      (entries ix)
  /\ ((forall page, page ∈ MAIN_PAGES -> unanswered env page) -> entries ix = []).
Proof.
  intros ix. split; [reflexivity|]. split; [constructor|].
  split; [apply uniqueByUrl_NoDup|]. split.
  - apply Forall_forall. intros e He. cbn [buildIndex fst indexOf entries] in He.
    apply uniqueByUrl_subset in He. apply list_elem_of_In, in_flat_map in He.
    destruct He as [page [Hpage He]]. apply list_elem_of_In in He.
    apply pageEntries_entry in He as [a He].
    destruct (linkEntry_entry _ _ _ _ He) as (_ & H2 & _ & H4 & H5 & _ & H7 & H8 & H9).
    split; [exact H2|]. split.
    { rewrite H7. cbn in Hpage. destruct Hpage as [<-|[<-|[]]]; [left | right]; reflexivity. }
    repeat (split; [assumption|]). assumption.
  - intros Hbad. subst ix. cbn [buildIndex fst indexOf entries].
    assert (flat_map (pageEntries env) MAIN_PAGES = []) as ->; [|reflexivity].
    unfold MAIN_PAGES in *. cbn [flat_map].
    rewrite !pageEntries_unanswered by (apply Hbad; repeat constructor). reflexivity.
Qed.

Lemma accumulate_empty (kws : list jsstring) : accumulate ∅ kws = [].
Proof.
  unfold accumulate. induction kws as [|k kws IH]; [reflexivity|].
  cbn [fold_left]. rewrite lookup_empty. exact IH.
Qed.

Lemma search_empty_index (query : jsstring) : search (Some (indexOf [])) query = [].
Proof.
  rewrite search_as_ranked. unfold rankedScores, indexOf. cbn [keywordMap].
  unfold buildKeywordMap. cbn [buildKeywordMapFrom]. rewrite accumulate_empty.
  reflexivity.
Qed.

(** Property X14.  [initializeIndex] builds the index once.  On the
    first call it requests the two pages and installs the index that
    [buildIndex] returns, which may be empty; every later call makes no
    request and leaves the index as it is.  So when no page answers
    during the first call the index stays empty, and [searchDocs] answers
    every query of valid length with the fallback list. *)
Theorem index_built_once (env : IndexEnv) :
  let started := initializeIndex env None in
  fst started = Some (fst (buildIndex env))
  /\ snd started = snd (buildIndex env)
  /\ indexState (fst started)
  /\ (forall later : IndexEnv, initializeIndex later (fst started) = (fst started, []))
  /\ ((forall page, page ∈ MAIN_PAGES -> unanswered env page) ->
      forall (later : IndexEnv) (query : jsstring),
        2 <= length (trim query) <= 200 ->
        searchDocs (fst (initializeIndex later (fst started))) query
        = ([IndexLookup query], Ok getFallbackResults)).
Proof.
  intros started. split; [reflexivity|]. split; [reflexivity|].
  split; [constructor|]. split; [reflexivity|].
  intros Hbad later query Hlen. subst started. cbn [initializeIndex fst].
  assert (fst (buildIndex env) = indexOf []) as ->.
  { cbn [buildIndex fst]. f_equal.
    assert (flat_map (pageEntries env) MAIN_PAGES = []) as ->; [|reflexivity].
    unfold MAIN_PAGES in *. cbn [flat_map].
    rewrite !pageEntries_unanswered by (apply Hbad; repeat constructor). reflexivity. }
  unfold searchDocs.
  rewrite (proj2 (validateSearchQuery_passes query) Hlen).
  rewrite search_empty_index. reflexivity.
Qed.

End IndexProperties.

(** ** What the Markdown post-processing leaves *)

Module ConverterProperties.
Import JS JSFacts Converter ConverterSpec IndexerSpec KeywordFacts.

(** *** The first and the last unit *)

(** The text does not start with white space, and does not end with
    it. *)
Abbreviation startsBlack s :=
  (match s with [] => True | c :: _ => isWhiteSpace c = false end).
Abbreviation endsBlack s := (startsBlack (rev s)).

Lemma LF_white (c : ascii) : Ascii.eqb c LF = true -> isWhiteSpace c = true.
Proof. intros H. apply Ascii.eqb_eq in H. subst c. reflexivity. Qed.

Lemma blank_white (c : ascii) : isBlank c = true -> isWhiteSpace c = true.
Proof.
  unfold isBlank. intros H. apply orb_true_iff in H as [H|H];
    apply Ascii.eqb_eq in H; subst c; reflexivity.
Qed.

Lemma blank_not_LF (c : ascii) : isBlank c = true -> Ascii.eqb c LF = false.
Proof.
  unfold isBlank. intros H. apply orb_true_iff in H as [H|H];
    apply Ascii.eqb_eq in H; subst c; reflexivity.
Qed.

Lemma trimStart_black (s : jsstring) : startsBlack s -> trimStart s = s.
Proof. destruct s as [|c s]; [reflexivity|]. cbn. intros ->. reflexivity. Qed.

Lemma trimEnd_black (s : jsstring) : endsBlack s -> trimEnd s = s.
Proof.
  intros H. unfold trimEnd. rewrite (trimStart_black _ H). apply rev_involutive.
Qed.

Lemma dropLeading_black (s : jsstring) : startsBlack s -> dropLeadingNewlines s = s.
Proof.
  destruct s as [|c s]; [reflexivity|]. cbn. intros H.
  destruct (Ascii.eqb c LF) eqn:Hc; [|reflexivity].
  apply LF_white in Hc. congruence.
Qed.

Lemma dropTrailing_black (s : jsstring) : endsBlack s -> dropTrailingNewlines s = s.
Proof.
  intros H. unfold dropTrailingNewlines. rewrite (dropLeading_black _ H).
  apply rev_involutive.
Qed.

Lemma trimStart_startsBlack (s : jsstring) : startsBlack (trimStart s).
Proof.
  destruct (trimStart s) as [|c t] eqn:H; [exact I|]. exact (trimStart_first _ _ _ H).
Qed.

Lemma trim_startsBlack (s : jsstring) : startsBlack (trim s).
Proof.
  unfold trim. pose proof (trimStart_startsBlack s) as H.
  destruct (trimEnd_split (trimStart s)) as [u [Hs _]].
  destruct (trimEnd (trimStart s)) as [|c t]; [exact I|].
  rewrite Hs in H. exact H.
Qed.

Lemma trim_endsBlack (s : jsstring) : endsBlack (trim s).
Proof.
  unfold trim, trimEnd. rewrite rev_involutive. apply trimStart_startsBlack.
Qed.

(** A trimmed text is left as it is by the steps that work on the two
    ends. *)
Lemma ends_untouched (s : jsstring) :
  startsBlack s -> endsBlack s ->
  trim (dropTrailingNewlines (dropLeadingNewlines s)) = s.
Proof.
  intros H1 H2. rewrite (dropLeading_black _ H1), (dropTrailing_black _ H2).
  unfold trim. rewrite (trimStart_black _ H1). apply trimEnd_black. exact H2.
Qed.

(** *** Runs of line feeds *)

Lemma collapse_startsBlack (s : jsstring) :
  startsBlack s -> startsBlack (collapseNewlines s).
Proof.
  destruct s as [|c s]; [exact (fun H => H)|]. unfold collapseNewlines. cbn.
  intros H. destruct (Ascii.eqb c LF) eqn:Hc; [apply LF_white in Hc; congruence|].
  exact H.
Qed.

Lemma collapse_snoc (n : nat) (q : jsstring) (z : ascii) :
  Ascii.eqb z LF = false ->
  collapseNewlinesFrom n (q ++ [z]) = collapseNewlinesFrom n q ++ [z].
Proof.
  intros Hz. revert n. induction q as [|c q IH]; intros n; cbn [collapseNewlinesFrom app].
  - rewrite Hz. reflexivity.
  - destruct (Ascii.eqb c LF); [destruct (n <? 2)|]; rewrite IH; reflexivity.
Qed.

Lemma collapse_endsBlack (s : jsstring) :
  endsBlack s -> endsBlack (collapseNewlines s).
Proof.
  destruct s as [|z q _] using rev_ind; [exact (fun H => H)|].
  rewrite rev_app_distr. cbn. intros Hz. unfold collapseNewlines.
  rewrite collapse_snoc.
  - rewrite rev_app_distr. cbn. exact Hz.
  - destruct (Ascii.eqb z LF) eqn:H; [apply LF_white in H; congruence | reflexivity].
Qed.

Lemma shortRuns_collapse (s : jsstring) (n m : nat) :
  (n < 2 -> m <= n) -> shortRunsFrom m (collapseNewlinesFrom n s) = true.
Proof.
  revert n m. induction s as [|c s IH]; intros n m Hnm; cbn [collapseNewlinesFrom];
    [reflexivity|].
  destruct (Ascii.eqb c LF) eqn:Hc.
  - destruct (Nat.ltb_spec n 2) as [Hn|Hn].
    + cbn [shortRunsFrom]. rewrite Ascii.eqb_refl. rewrite IH by lia.
      destruct (Nat.ltb_spec m 2); [reflexivity | lia].
    + apply IH. lia.
  - cbn [shortRunsFrom]. rewrite Hc. apply IH. lia.
Qed.

Lemma shortRuns_fixed (s : jsstring) (n : nat) :
  shortRunsFrom n s = true -> collapseNewlinesFrom n s = s.
Proof.
  revert n. induction s as [|c s IH]; intros n; cbn [shortRunsFrom collapseNewlinesFrom];
    [reflexivity|].
  destruct (Ascii.eqb c LF) eqn:Hc.
  - intros H. apply andb_true_iff in H as [H1 H2]. rewrite H1, (IH _ H2).
    apply Ascii.eqb_eq in Hc. subst c. reflexivity.
  - intros H. rewrite (IH _ H). reflexivity.
Qed.

Lemma shortRuns_mono (s : jsstring) (n m : nat) :
  m <= n -> shortRunsFrom n s = true -> shortRunsFrom m s = true.
Proof.
  revert n m. induction s as [|c s IH]; intros n m Hmn; cbn [shortRunsFrom]; [reflexivity|].
  destruct (Ascii.eqb c LF); [|exact (fun H => H)].
  intros H. apply andb_true_iff in H as [H1 H2]. apply Nat.ltb_lt in H1.
  rewrite (IH (S n) (S m)) by (lia || exact H2).
  destruct (Nat.ltb_spec m 2); [reflexivity | lia].
Qed.

Lemma shortRuns_suffix (u s : jsstring) (n : nat) :
  shortRunsFrom n (u ++ s) = true -> shortRunsFrom 0 s = true.
Proof.
  revert n. induction u as [|c u IH]; intros n; cbn [app].
  - apply shortRuns_mono. lia.
  - cbn [shortRunsFrom]. destruct (Ascii.eqb c LF); [|apply IH].
    intros H. apply andb_true_iff in H as [_ H]. exact (IH _ H).
Qed.

Lemma shortRuns_prefix (p u : jsstring) (n : nat) :
  shortRunsFrom n (p ++ u) = true -> shortRunsFrom n p = true.
Proof.
  revert n. induction p as [|c p IH]; intros n; cbn [app shortRunsFrom]; [reflexivity|].
  destruct (Ascii.eqb c LF); [|apply IH].
  intros H. apply andb_true_iff in H as [H1 H2]. rewrite H1, (IH _ H2). reflexivity.
Qed.

(** What the steps on the two ends remove. *)
Lemma dropLeading_split (s : jsstring) :
  exists u, s = u ++ dropLeadingNewlines s
            /\ Forall (fun c => Ascii.eqb c LF = true) u.
Proof.
  induction s as [|c s [u [Hs Hu]]]; cbn.
  - exists []. split; [reflexivity | constructor].
  - destruct (Ascii.eqb c LF) eqn:Hc.
    + exists (c :: u). split; [cbn; congruence | constructor; assumption].
    + exists []. split; [reflexivity | constructor].
Qed.

Lemma dropTrailing_split (s : jsstring) :
  exists u, s = dropTrailingNewlines s ++ u
            /\ Forall (fun c => Ascii.eqb c LF = true) u.
Proof.
  unfold dropTrailingNewlines. destruct (dropLeading_split (rev s)) as [u [Hs Hu]].
  exists (rev u). split.
  - rewrite <- rev_app_distr, <- Hs, rev_involutive. reflexivity.
  - apply Forall_rev. exact Hu.
Qed.

(** The steps on the two ends keep a piece of the text. *)
Lemma ends_piece (s : jsstring) :
  exists u v, s = u ++ trim (dropTrailingNewlines (dropLeadingNewlines s)) ++ v
              /\ Forall (fun c => isWhiteSpace c = true) v.
Proof.
  destruct (dropLeading_split s) as [u1 [H1 _]].
  destruct (dropTrailing_split (dropLeadingNewlines s)) as [v1 [H2 Hv1]].
  set (t := dropTrailingNewlines (dropLeadingNewlines s)) in *.
  unfold trim. destruct (trimStart_split t) as [u2 [H3 _]].
  destruct (trimEnd_split (trimStart t)) as [v2 [H4 Hv2]].
  exists (u1 ++ u2), (v2 ++ v1). split.
  - rewrite H1 at 1. rewrite H2 at 1. rewrite H3 at 1. rewrite H4 at 1.
    rewrite <- !app_assoc. reflexivity.
  - apply Forall_app. split; [exact Hv2|].
    eapply Forall_impl; [exact Hv1|]. intros c Hc. apply LF_white. exact Hc.
Qed.

(** *** Blanks at the line ends *)

Lemma strip_noTrailingBlanks (s : jsstring) :
  noTrailingBlanks (stripTrailingBlanks s) = true.
Proof.
  induction s as [|c s IH]; [reflexivity|]. cbn.
  destruct (isBlank c && atLineEnd (stripTrailingBlanks s)) eqn:H; [exact IH|].
  cbn. rewrite H, IH. reflexivity.
Qed.

Lemma noTrailingBlanks_fixed (s : jsstring) :
  noTrailingBlanks s = true -> stripTrailingBlanks s = s.
Proof.
  induction s as [|c s IH]; [reflexivity|]. cbn. intros H.
  apply andb_true_iff in H as [H1 H2]. rewrite (IH H2).
  apply negb_true_iff in H1. rewrite H1. reflexivity.
Qed.

Lemma noTrailingBlanks_suffix (u s : jsstring) :
  noTrailingBlanks (u ++ s) = true -> noTrailingBlanks s = true.
Proof.
  induction u as [|c u IH]; [exact (fun H => H)|]. cbn.
  intros H. apply andb_true_iff in H as [_ H]. exact (IH H).
Qed.

(** A prefix of a text without blanks at the line ends has none either,
    when its last unit is no blank. *)
Lemma noTrailingBlanks_prefix (p v : jsstring) :
  noTrailingBlanks (p ++ v) = true ->
  (forall q b, p = q ++ [b] -> isBlank b = false) ->
  noTrailingBlanks p = true.
Proof.
  induction p as [|c p IH]; [reflexivity|]. cbn. intros H Hlast.
  apply andb_true_iff in H as [H1 H2].
  rewrite IH; [|exact H2 | intros q b ->; apply (Hlast (c :: q) b); reflexivity].
  rewrite andb_true_r. destruct p as [|d p].
  - rewrite (Hlast [] c eq_refl). reflexivity.
  - exact H1.
Qed.

Lemma endsBlack_last (p : jsstring) :
  endsBlack p -> forall q b, p = q ++ [b] -> isBlank b = false.
Proof.
  intros H q b ->. rewrite rev_app_distr in H. cbn in H.
  destruct (isBlank b) eqn:Hb; [|reflexivity]. apply blank_white in Hb. congruence.
Qed.

Lemma collapse_atLineEnd (s : jsstring) :
  atLineEnd (collapseNewlinesFrom 0 s) = atLineEnd s.
Proof.
  destruct s as [|c s]; [reflexivity|]. cbn.
  destruct (Ascii.eqb c LF) eqn:Hc; [|reflexivity].
  cbn. apply Ascii.eqb_eq in Hc. subst c. reflexivity.
Qed.

Lemma collapse_noTrailingBlanks (s : jsstring) (n : nat) :
  noTrailingBlanks s = true -> noTrailingBlanks (collapseNewlinesFrom n s) = true.
Proof.
  revert n. induction s as [|c s IH]; intros n; [reflexivity|].
  cbn [noTrailingBlanks collapseNewlinesFrom].
  intros H. apply andb_true_iff in H as [H1 H2].
  destruct (Ascii.eqb c LF) eqn:Hc.
  - destruct (n <? 2); [|apply IH; exact H2].
    cbn [noTrailingBlanks]. rewrite (IH _ H2), andb_true_r.
    destruct (isBlank c) eqn:Hb; [|reflexivity].
    apply blank_not_LF in Hb. congruence.
  - cbn [noTrailingBlanks]. rewrite (IH _ H2), andb_true_r, collapse_atLineEnd. exact H1.
Qed.

(** *** [cleanMarkdown] and [htmlToMarkdown] *)

Lemma noTrailingBlanks_spec (s : jsstring) :
  noTrailingBlanks s = true
  <-> forall a c b, s = a ++ c :: b -> isBlank c = true -> atLineEnd b = false.
Proof.
  induction s as [|x s IH]; cbn [noTrailingBlanks].
  - split; [|reflexivity]. intros _ a c b H. destruct a; discriminate H.
  - rewrite andb_true_iff, IH, negb_true_iff. split.
    + intros [H1 H2] a c b Hs Hc. destruct a as [|y a]; cbn in Hs.
      * injection Hs as -> ->. rewrite Hc in H1. exact H1.
      * injection Hs as -> ->. exact (H2 a c b eq_refl Hc).
    + intros H. split.
      * destruct (isBlank x) eqn:Hx; [|reflexivity]. exact (H [] x s eq_refl Hx).
      * intros a c b -> Hc. exact (H (x :: a) c b eq_refl Hc).
Qed.

Lemma piece_shape (x o u v : jsstring) :
  x = u ++ o ++ v -> endsBlack o ->
  noTrailingBlanks x = true -> noTrailingBlanks o = true.
Proof.
  intros -> Ho Hx. apply noTrailingBlanks_suffix in Hx.
  apply (noTrailingBlanks_prefix _ _ Hx). apply endsBlack_last. exact Ho.
Qed.

Lemma cleanMarkdown_shape (s : jsstring) :
  noTrailingBlanks (cleanMarkdown s) = true
  /\ startsBlack (cleanMarkdown s) /\ endsBlack (cleanMarkdown s).
Proof.
  unfold cleanMarkdown.
  set (x := stripTrailingBlanks (collapseNewlines s)).
  destruct (ends_piece x) as (u & v & Hx & _).
  split; [|split; [apply trim_startsBlack | apply trim_endsBlack]].
  apply (piece_shape x _ u v Hx); [apply trim_endsBlack|].
  apply strip_noTrailingBlanks.
Qed.

(** On a text of that shape [cleanMarkdown] only collapses the runs of
    line feeds. *)
Lemma cleanMarkdown_on_shape (o : jsstring) :
  noTrailingBlanks o = true -> startsBlack o -> endsBlack o ->
  cleanMarkdown o = collapseNewlines o.
Proof.
  intros H1 H2 H3. unfold cleanMarkdown.
  rewrite (noTrailingBlanks_fixed (collapseNewlines o))
    by (apply collapse_noTrailingBlanks; exact H1).
  apply ends_untouched; [apply collapse_startsBlack | apply collapse_endsBlack];
    assumption.
Qed.

Lemma collapse_twice (s : jsstring) :
  collapseNewlines (collapseNewlines s) = collapseNewlines s.
Proof.
  unfold collapseNewlines. apply shortRuns_fixed. apply shortRuns_collapse. lia.
Qed.

(** Property X15.  The output of [cleanMarkdown] neither starts nor
    ends with white space, and none of its lines ends with a space or a
    tab: a space or a tab of the output is never followed by the end of
    the text or by a line terminator. *)
Theorem cleanMarkdown_output (markdown : jsstring) :
  let out := cleanMarkdown markdown in
  trim out = out
  /\ stripTrailingBlanks out = out
  /\ noTrailingBlanks out = true
  /\ (forall a c b, out = a ++ c :: b -> isBlank c = true -> atLineEnd b = false)
  /\ (forall c rest, out = c :: rest -> isWhiteSpace c = false)
  /\ (forall front c, out = front ++ [c] -> isWhiteSpace c = false).
Proof.
  intros out. destruct (cleanMarkdown_shape markdown) as (H1 & H2 & H3). fold out in H1, H2, H3.
  split.
  { unfold trim. rewrite (trimStart_black _ H2). apply trimEnd_black. exact H3. }
  split; [apply noTrailingBlanks_fixed; exact H1|].
  split; [exact H1|].
  split; [apply noTrailingBlanks_spec; exact H1|].
  split.
  - intros c rest Ho. rewrite Ho in H2. exact H2.
  - intros front c Ho. rewrite Ho, rev_app_distr in H3. exact H3.
Qed.

(** Property X16.  [cleanMarkdown] settles with its second pass.  On
    its own output it only collapses the runs of three line feeds or
    more that the first pass may have left, and a third pass changes
    nothing. *)
Theorem cleanMarkdown_settles (markdown : jsstring) :
  cleanMarkdown (cleanMarkdown markdown) = collapseNewlines (cleanMarkdown markdown)
  /\ cleanMarkdown (cleanMarkdown (cleanMarkdown markdown))
     = cleanMarkdown (cleanMarkdown markdown).
Proof.
  destruct (cleanMarkdown_shape markdown) as (H1 & H2 & H3).
  assert (cleanMarkdown (cleanMarkdown markdown)
          = collapseNewlines (cleanMarkdown markdown)) as Hsecond
    by (apply cleanMarkdown_on_shape; assumption).
  split; [exact Hsecond|]. rewrite Hsecond.
  rewrite cleanMarkdown_on_shape.
  - apply collapse_twice.
  - apply collapse_noTrailingBlanks. exact H1.
  - apply collapse_startsBlack. exact H2.
  - apply collapse_endsBlack. exact H3.
Qed.

Lemma tidy_shape (s : jsstring) :
  shortRuns (tidy s) = true /\ startsBlack (tidy s) /\ endsBlack (tidy s).
Proof.
  unfold tidy. split; [|split; [apply trim_startsBlack | apply trim_endsBlack]].
  destruct (ends_piece (collapseNewlines s)) as (u & v & Hx & _).
  assert (shortRunsFrom 0 (collapseNewlines s) = true) as Hs
    by (apply shortRuns_collapse; lia).
  rewrite Hx in Hs. apply shortRuns_suffix in Hs. apply shortRuns_prefix in Hs.
  exact Hs.
Qed.

(** Property X17.  On a text in which no line ends with a space or a
    tab, [cleanMarkdown] does what the clean-up of [htmlToMarkdown]
    does, its output holds no more than two line feeds in a row, and a
    second pass changes nothing. *)
Theorem cleanMarkdown_idempotent_without_blanks (markdown : jsstring) :
  noTrailingBlanks markdown = true ->
  cleanMarkdown markdown = tidy markdown
  /\ shortRuns (cleanMarkdown markdown) = true
  /\ cleanMarkdown (cleanMarkdown markdown) = cleanMarkdown markdown.
Proof.
  intros H. assert (cleanMarkdown markdown = tidy markdown) as Htidy.
  { unfold cleanMarkdown, tidy.
    rewrite (noTrailingBlanks_fixed (collapseNewlines markdown))
      by (apply collapse_noTrailingBlanks; exact H). reflexivity. }
  split; [exact Htidy|].
  destruct (tidy_shape markdown) as (Hs & _). rewrite <- Htidy in Hs.
  split; [exact Hs|].
  destruct (cleanMarkdown_shape markdown) as (H1 & H2 & H3).
  rewrite (cleanMarkdown_on_shape _ H1 H2 H3).
  apply shortRuns_fixed. exact Hs.
Qed.

(** A text with four line feeds in a row and no blank at a line end. *)
Lemma cleanMarkdown_idempotent_without_blanks_witness :
  let text := str "a" ++ [LF; LF; LF; LF] ++ str "b c" ++ [LF] in
  noTrailingBlanks text = true
  /\ cleanMarkdown (cleanMarkdown text) = cleanMarkdown text.
Proof.
  intros text.
  assert (noTrailingBlanks text = true) as H by (vm_compute; reflexivity).
  split; [exact H|].
  exact (proj2 (proj2 (cleanMarkdown_idempotent_without_blanks text H))).
Defined.

(** Property X18.  [htmlToMarkdown] throws conversion errors only, and
    exactly when the conversion of the library throws.  The Markdown it
    returns neither starts nor ends with white space and holds no more
    than two line feeds in a row, and its clean-up applied once more
    changes nothing. *)
Theorem htmlToMarkdown_output (turndown : jsstring -> result jsstring)
    (html : jsstring) :
  (forall e, htmlToMarkdown turndown html = Throw e ->
     kind e = ConversionError /\ exists cause, turndown html = Throw cause)
  /\ (forall markdown, htmlToMarkdown turndown html = Ok markdown ->
       (exists raw, turndown html = Ok raw /\ markdown = tidy raw)
       /\ shortRuns markdown = true
       /\ trim markdown = markdown
       /\ tidy markdown = markdown)
  /\ (forall text, tidy (tidy text) = tidy text).
Proof.
  assert (forall text, tidy (tidy text) = tidy text) as Htwice.
  { intros text. destruct (tidy_shape text) as (H1 & H2 & H3).
    unfold tidy at 1. unfold collapseNewlines.
    rewrite (shortRuns_fixed _ _ H1). apply ends_untouched; assumption. }
  unfold htmlToMarkdown. destruct (turndown html) as [raw|cause].
  - split; [discriminate|]. split; [|exact Htwice].
    intros markdown [= <-]. destruct (tidy_shape raw) as (H1 & H2 & H3).
    split; [exists raw; split; reflexivity|]. split; [exact H1|].
    split; [|apply Htwice].
    unfold trim. rewrite (trimStart_black _ H2). apply trimEnd_black. exact H3.
  - split; [|split; [discriminate | exact Htwice]].
    intros e [= <-]. split; [reflexivity|]. exists cause. reflexivity.
Qed.

(** *** [countWords] *)

Abbreviation without stop := (Forall (fun c : ascii => Ascii.eqb c stop = false)).
Abbreviation plain := (Forall (fun c : ascii => isPlainUnit c = true)).

Lemma plain_units (s : jsstring) :
  plain s <-> without backtick s /\ without "["%char s.
Proof.
  unfold isPlainUnit. rewrite <- Forall_and. apply Forall_iff. intros c.
  rewrite andb_true_iff, !negb_true_iff. reflexivity.
Qed.

(** The search passes over the units at which no match can start. *)
Lemma replaceMatches_pass (matchAt : jsstring -> option (nat * jsstring))
    (ok : ascii -> Prop) (a t : jsstring) :
  (forall c x, ok c -> matchAt (c :: x) = None) ->
  Forall ok a ->
  replaceMatches matchAt 0 (a ++ t) = a ++ replaceMatches matchAt 0 t.
Proof.
  intros Hm Ha. induction Ha as [|c a Hc _ IH]; [reflexivity|].
  cbn [app replaceMatches]. rewrite (Hm c (a ++ t) Hc), IH. reflexivity.
Qed.

Lemma replaceMatches_none (matchAt : jsstring -> option (nat * jsstring))
    (ok : ascii -> Prop) (a : jsstring) :
  (forall c x, ok c -> matchAt (c :: x) = None) ->
  Forall ok a ->
  replaceMatches matchAt 0 a = a.
Proof.
  intros Hm Ha. rewrite <- (app_nil_r a) at 1.
  rewrite (replaceMatches_pass _ ok a [] Hm Ha). cbn. apply app_nil_r.
Qed.

(** After a match the search goes on behind it. *)
Lemma replaceMatches_skip (matchAt : jsstring -> option (nat * jsstring))
    (x y : jsstring) :
  replaceMatches matchAt (length x) (x ++ y) = replaceMatches matchAt 0 y.
Proof. induction x as [|c x IH]; [reflexivity|]. cbn [length app replaceMatches]. exact IH. Qed.

Lemma replaceMatches_here (matchAt : jsstring -> option (nat * jsstring))
    (c : ascii) (x y replacement : jsstring) :
  matchAt (c :: x ++ y) = Some (S (length x), replacement) ->
  replaceMatches matchAt 0 (c :: x ++ y) = replacement ++ replaceMatches matchAt 0 y.
Proof.
  intros H. cbn [replaceMatches]. rewrite H. cbn [Nat.sub]. rewrite Nat.sub_0_r.
  rewrite replaceMatches_skip. reflexivity.
Qed.

Lemma matchFence_no_backtick (c : ascii) (x : jsstring) :
  Ascii.eqb c backtick = false -> matchFence (c :: x) = None.
Proof.
  intros H. unfold matchFence, fence. cbn [startsWith].
  rewrite Ascii.eqb_sym, H. reflexivity.
Qed.

Lemma matchInlineCode_no_backtick (c : ascii) (x : jsstring) :
  Ascii.eqb c backtick = false -> matchInlineCode (c :: x) = None.
Proof. intros H. unfold matchInlineCode. rewrite H. reflexivity. Qed.

Lemma matchLink_no_bracket (c : ascii) (x : jsstring) :
  Ascii.eqb c "[" = false -> matchLink (c :: x) = None.
Proof. intros H. unfold matchLink. rewrite H. reflexivity. Qed.

Lemma matchImage_no_bracket (s : jsstring) :
  without "["%char s -> replaceMatches matchImage 0 s = s.
Proof.
  induction 1 as [|c s Hc Hs IH]; [reflexivity|].
  cbn [replaceMatches]. rewrite IH.
  assert (matchImage (c :: s) = None) as ->; [|reflexivity].
  unfold matchImage. destruct s as [|b s]; [reflexivity|].
  apply Forall_cons in Hs as [Hb _]. rewrite Hb, andb_false_r. reflexivity.
Qed.

Lemma upTo_found (stop : ascii) (x y : jsstring) :
  without stop x -> upTo stop (x ++ stop :: y) = (x, stop :: y).
Proof.
  induction 1 as [|c x Hc _ IH]; cbn [app upTo].
  - rewrite Ascii.eqb_refl. reflexivity.
  - rewrite Hc, IH. reflexivity.
Qed.

Lemma firstIndex_found (code rest : jsstring) :
  without backtick code ->
  firstIndex fence (code ++ fence ++ rest) = Some (length code).
Proof.
  induction 1 as [|c code Hc _ IH].
  - cbn [app length]. unfold firstIndex.
    destruct (fence ++ rest) eqn:H; [discriminate H|]. rewrite <- H.
    rewrite startsWith_app. reflexivity.
  - cbn [app length firstIndex]. rewrite IH.
    assert (startsWith fence (c :: code ++ fence ++ rest) = false) as ->; [|reflexivity].
    unfold fence. cbn [startsWith]. rewrite Ascii.eqb_sym, Hc. reflexivity.
Qed.

(** A text without backtick and without opening square bracket goes
    through the four replacements as it is. *)
Lemma replacements_plain (s : jsstring) :
  plain s ->
  replaceMatches matchImage 0
    (replaceMatches matchLink 0
       (replaceMatches matchInlineCode 0 s)) = s.
Proof.
  intros H. apply plain_units in H as [H1 H2].
  rewrite (replaceMatches_none _ _ s matchInlineCode_no_backtick H1).
  rewrite (replaceMatches_none _ _ s matchLink_no_bracket H2).
  apply matchImage_no_bracket. exact H2.
Qed.

Lemma trim_black_word (w : jsstring) :
  Forall (fun c => True /\ isWhiteSpace c = false) w -> trim w = w.
Proof.
  intros H. unfold trim.
  assert (forall v, Forall (fun c => True /\ isWhiteSpace c = false) v -> trimStart v = v)
    as Hstart.
  { intros v Hv. destruct Hv as [|c v [_ Hc] _]; [reflexivity|]. cbn. rewrite Hc.
    reflexivity. }
  rewrite (Hstart w H). unfold trimEnd. rewrite Hstart by (apply Forall_rev; exact H).
  apply rev_involutive.
Qed.

(** The number of pieces that [countWords] counts is the number of
    maximal runs of units that are no white space. *)
Lemma counted_words (s : jsstring) :
  length (filter (fun word => 0 < length (trim word)) (splitWs s)) = length (words s).
Proof.
  rewrite <- splitWs_words. unfold splitWs.
  pose proof (splitWsFrom_units (fun _ => True) false s
                (Forall_true _ _ (fun _ => I))) as Hunits.
  induction Hunits as [|w l Hw _ IH]; [reflexivity|].
  rewrite !filter_cons, (trim_black_word w Hw).
  destruct w as [|c w].
  - rewrite decide_False by (cbn; lia).
    rewrite (decide_False (P := [] <> [])) by (intros H; apply H; reflexivity). exact IH.
  - rewrite decide_True by (cbn; lia).
    rewrite (decide_True (P := c :: w <> [])) by discriminate.
    cbn [length]. rewrite IH. reflexivity.
Qed.

(** Property X19.  [countWords] on a text without backtick and without
    opening square bracket: the number of maximal runs of units that are
    no white space.  The empty text and a text of white space have no
    word. *)
Theorem countWords_plain (markdown : jsstring) :
  Forall (fun c => isPlainUnit c = true) markdown ->
  countWords markdown = length (words markdown)
  /\ (Forall (fun c => isWhiteSpace c = true) markdown -> countWords markdown = 0).
Proof.
  intros H. assert (countWords markdown = length (words markdown)) as Hc.
  { unfold countWords.
    rewrite (replaceMatches_none _ _ markdown matchFence_no_backtick
               (proj1 (proj1 (plain_units _) H))).
    rewrite (replacements_plain _ H). apply counted_words. }
  split; [exact Hc|]. intros Hw. rewrite Hc. unfold words.
  rewrite (wordsAux_white _ Hw). reflexivity.
Qed.

Lemma countWords_plain_witness :
  countWords (str "Launch a scan" ++ [LF] ++ str "now") = 4.
Proof.
  assert (Forall (fun c => isPlainUnit c = true) (str "Launch a scan" ++ [LF] ++ str "now"))
    as H by (apply Forall_forall; intros c Hc; apply list_elem_of_In in Hc;
             cbn in Hc; intuition (subst; reflexivity)).
  rewrite (proj1 (countWords_plain _ H)). reflexivity.
Defined.

(** Property X20.  [countWords] leaves out a fenced code block: with a
    text before and a text after the block that hold neither backtick
    nor opening square bracket, and no backtick in the block, the count
    is that of the two texts put together. *)
Theorem countWords_skips_fenced_code (before code after : jsstring) :
  Forall (fun c => isPlainUnit c = true) before ->
  Forall (fun c => Ascii.eqb c backtick = false) code ->
  Forall (fun c => isPlainUnit c = true) after ->
  countWords (before ++ fence ++ code ++ fence ++ after)
  = length (words (before ++ after)).
Proof.
  intros Ha Hcode Hb.
  assert (replaceMatches matchFence 0 (before ++ fence ++ code ++ fence ++ after)
          = before ++ after) as Hstage.
  { rewrite (replaceMatches_pass _ _ before _ matchFence_no_backtick
               (proj1 (proj1 (plain_units _) Ha))).
    f_equal.
    assert (fence ++ code ++ fence ++ after
            = backtick :: ([backtick; backtick] ++ code ++ fence) ++ after) as Hshape
      by (unfold fence at 1; cbn [app]; rewrite <- !app_assoc; reflexivity).
    rewrite Hshape.
    rewrite (replaceMatches_here matchFence backtick
               ([backtick; backtick] ++ code ++ fence) after []).
    - cbn [app]. apply (replaceMatches_none _ _ after matchFence_no_backtick).
      exact (proj1 (proj1 (plain_units _) Hb)).
    - rewrite <- Hshape. unfold matchFence. rewrite startsWith_app.
      replace (drop 3 (fence ++ code ++ fence ++ after)) with (code ++ fence ++ after)
        by reflexivity.
      rewrite (firstIndex_found code after Hcode).
      rewrite !length_app. cbn [length]. repeat f_equal; lia. }
  unfold countWords. rewrite Hstage.
  rewrite replacements_plain by (apply Forall_app; split; assumption).
  apply counted_words.
Qed.

(** The words [Run] and [now] around a block of two words. *)
Lemma countWords_skips_fenced_code_witness :
  countWords (str "Run " ++ fence ++ str "nessus scan" ++ fence ++ str " now") = 2.
Proof.
  rewrite (countWords_skips_fenced_code (str "Run ") (str "nessus scan") (str " now")).
  - reflexivity.
  - repeat constructor.
  - repeat constructor.
  - repeat constructor.
Defined.

Lemma matchTarget_found (target after : jsstring) :
  target <> [] -> without ")"%char target ->
  matchTarget ("]"%char :: "("%char :: target ++ ")"%char :: after)
  = Some (2 + length target + 1).
Proof.
  intros Hne Ht. unfold matchTarget. cbn [Ascii.eqb Bool.eqb andb].
  rewrite (upTo_found ")" target after Ht).
  destruct target as [|t0 target]; [contradiction|]. reflexivity.
Qed.

Lemma matchLink_found (text target after : jsstring) :
  text <> [] -> without "]"%char text ->
  target <> [] -> without ")"%char target ->
  matchLink ("["%char :: (text ++ "]"%char :: "("%char :: target ++ [")"%char]) ++ after)
  = Some (S (length (text ++ "]"%char :: "("%char :: target ++ [")"%char])), text).
Proof.
  intros Hne Ht Hne' Ht'. unfold matchLink. cbn [Ascii.eqb Bool.eqb andb].
  rewrite <- app_assoc. cbn [app]. rewrite <- app_assoc. cbn [app].
  rewrite (upTo_found "]" text _ Ht).
  rewrite (matchTarget_found target after Hne' Ht').
  destruct text as [|t0 text]; [contradiction|].
  f_equal. f_equal. rewrite !length_app. cbn [length]. rewrite length_app.
  cbn [length]. lia.
Qed.

(** The link replacement on a link between two texts without opening
    square bracket. *)
Lemma link_replaced (before text target after : jsstring) :
  without "["%char before -> without "["%char after ->
  text <> [] -> without "]"%char text ->
  target <> [] -> without ")"%char target ->
  replaceMatches matchLink 0
    (before ++ "["%char :: text ++ "]"%char :: "("%char :: target ++ ")"%char :: after)
  = before ++ text ++ after.
Proof.
  intros Ha Hb Hne Ht Hne' Ht'.
  rewrite (replaceMatches_pass _ _ before _ matchLink_no_bracket Ha). f_equal.
  assert ("["%char :: text ++ "]"%char :: "("%char :: target ++ ")"%char :: after
          = "["%char :: (text ++ "]"%char :: "("%char :: target ++ [")"%char]) ++ after)
    as -> by (rewrite <- app_assoc; cbn [app]; rewrite <- app_assoc; reflexivity).
  rewrite (replaceMatches_here matchLink _ _ after text
             (matchLink_found text target after Hne Ht Hne' Ht')).
  rewrite (replaceMatches_none _ _ after matchLink_no_bracket Hb). reflexivity.
Qed.

(** Property X21.  Of a link [countWords] counts the text between the
    square brackets and not the target.  The same replacement is applied
    to an image with a text between its square brackets, before the
    replacement meant for images: the text is counted, with the
    exclamation mark before it. *)
Theorem countWords_counts_link_text (before text target after : jsstring) :
  Forall (fun c => isPlainUnit c = true) before ->
  Forall (fun c => isPlainUnit c = true) after ->
  text <> [] ->
  Forall (fun c => isPlainUnit c = true /\ Ascii.eqb c "]" = false) text ->
  target <> [] ->
  Forall (fun c => Ascii.eqb c backtick = false /\ Ascii.eqb c ")" = false) target ->
  countWords (before ++ str "[" ++ text ++ str "](" ++ target ++ str ")" ++ after)
  = length (words (before ++ text ++ after))
  /\ countWords (before ++ str "![" ++ text ++ str "](" ++ target ++ str ")" ++ after)
     = length (words (before ++ str "!" ++ text ++ after)).
Proof.
  intros Ha Hb Hne Ht Hne' Ht'.
  apply Forall_and in Ht as [Htp Ht]. apply Forall_and in Ht' as [Htb Ht'].
  assert (forall front : jsstring,
            plain front ->
            countWords (front ++ "["%char :: text ++ "]"%char :: "("%char
                          :: target ++ ")"%char :: after)
            = length (words (front ++ text ++ after))) as Hlink.
  { intros front Hf.
    assert (without backtick (front ++ "["%char :: text ++ "]"%char :: "("%char
                                :: target ++ ")"%char :: after)) as Hnb.
    { apply Forall_app. split; [exact (proj1 (proj1 (plain_units _) Hf))|].
      constructor; [reflexivity|]. apply Forall_app.
      split; [exact (proj1 (proj1 (plain_units _) Htp))|].
      constructor; [reflexivity|]. constructor; [reflexivity|].
      apply Forall_app. split; [exact Htb|]. constructor; [reflexivity|].
      exact (proj1 (proj1 (plain_units _) Hb)). }
    unfold countWords.
    rewrite (replaceMatches_none _ _ _ matchFence_no_backtick Hnb).
    rewrite (replaceMatches_none _ _ _ matchInlineCode_no_backtick Hnb).
    rewrite (link_replaced front text target after
               (proj2 (proj1 (plain_units _) Hf)) (proj2 (proj1 (plain_units _) Hb))
               Hne Ht Hne' Ht').
    rewrite matchImage_no_bracket; [apply counted_words|].
    apply Forall_app. split; [exact (proj2 (proj1 (plain_units _) Hf))|].
    apply Forall_app. split; [exact (proj2 (proj1 (plain_units _) Htp))|].
    exact (proj2 (proj1 (plain_units _) Hb)). }
  split.
  - exact (Hlink before Ha).
  - specialize (Hlink (before ++ str "!")).
    rewrite <- !app_assoc in Hlink. apply Hlink.
    apply Forall_app. split; [exact Ha | repeat constructor].
Qed.

(** The link [scans](/reference/scans) in a sentence, and an image with
    the text [diagram]. *)
Lemma countWords_counts_link_text_witness :
  countWords (str "See [list scans](/reference/scans) now") = 4
  /\ countWords (str "See ![diagram](d.png) now") = 3.
Proof.
  assert (plain (str "See ")) as Ha by (repeat constructor).
  assert (plain (str " now")) as Hb by (repeat constructor).
  assert (str "list scans" <> []) as Hne by discriminate.
  assert (Forall (fun c => isPlainUnit c = true /\ Ascii.eqb c "]" = false)
                 (str "list scans")) as Ht by (repeat constructor).
  assert (str "/reference/scans" <> []) as Hne' by discriminate.
  assert (Forall (fun c => Ascii.eqb c backtick = false /\ Ascii.eqb c ")" = false)
                 (str "/reference/scans")) as Ht' by (repeat constructor).
  split.
  - exact (proj1 (countWords_counts_link_text (str "See ") (str "list scans")
                    (str "/reference/scans") (str " now") Ha Hb Hne Ht Hne' Ht')).
  - assert (str "diagram" <> []) as Hne2 by discriminate.
    assert (Forall (fun c => isPlainUnit c = true /\ Ascii.eqb c "]" = false)
                   (str "diagram")) as Ht2 by (repeat constructor).
    assert (str "d.png" <> []) as Hne3 by discriminate.
    assert (Forall (fun c => Ascii.eqb c backtick = false /\ Ascii.eqb c ")" = false)
                   (str "d.png")) as Ht3 by (repeat constructor).
    exact (proj2 (countWords_counts_link_text (str "See ") (str "diagram")
                    (str "d.png") (str " now") Ha Hb Hne2 Ht2 Hne3 Ht3)).
Defined.

End ConverterProperties.

(** ** The read tool: cache, requests and errors *)

Module ReadProperties.
Import JS JSFacts ReadTool ReadSpec ReadExamples ReadFacts CacheFacts CacheProperties.

(** The four error classes that [readPage] lets through. *)
Abbreviation readError k :=
  (k = ValidationError \/ k = NetworkError \/ k = ScrapingError \/ k = ConversionError).

Lemma wrapReadError_kind (u : jsstring) (e : Error) : readError (kind (wrapReadError u e)).
Proof. unfold wrapReadError. destruct (kind e) eqn:H; rewrite ?H; cbn; tauto. Qed.

(** The courses that a call of [readPage] can take: the URL is refused;
    the page is in the cache; the page is requested, and then either a
    page is returned and stored or an error is thrown and nothing is
    stored. *)
Lemma readPage_courses (env : Env) (c : LRUCache ReadPageOutput)
    (nowGet nowSet : Z) (inputUrl : jsstring) :
  let key := trim inputUrl in
  let looked := Cache.get c key nowGet in
  (exists msg, validateUrl (parseURL env) inputUrl = Some (mkError ValidationError msg)
     /\ readPage env c nowGet nowSet inputUrl
        = (Throw (mkError ValidationError msg), c, []))
  \/ (validateUrl (parseURL env) inputUrl = None
      /\ ((exists page, fst looked = Some page
             /\ readPage env c nowGet nowSet inputUrl = (Ok page, snd looked, []))
          \/ (fst looked = None
              /\ exists evs, (evs = [] \/ evs = [Fetch fallbackUrl])
                 /\ ((exists page,
                        readPage env c nowGet nowSet inputUrl
                        = (Ok page, Cache.set (snd looked) key page nowSet,
                           Fetch key :: evs))
                     \/ (exists e, readError (kind e)
                           /\ readPage env c nowGet nowSet inputUrl
                              = (Throw e, snd looked, Fetch key :: evs)))))).
Proof.
  intros key looked. unfold readPage.
  destruct (validateUrl (parseURL env) inputUrl) as [e|] eqn:Hv.
  { left. pose proof (validateUrl_class _ _ _ Hv) as Hk.
    destruct e as [k msg]. cbn in Hk. subst k. exists msg. split; reflexivity. }
  right. split; [reflexivity|]. unfold Cache.createCacheKey. fold key. fold looked.
  destruct (fst looked) as [page|] eqn:Hl.
  { left. exists page. split; reflexivity. }
  right. split; [reflexivity|].
  destruct (downloadHTML env 0 key) as [h|e] eqn:Hd.
  2:{ exists []. split; [left; reflexivity|]. right. exists (wrapReadError inputUrl e).
      split; [apply wrapReadError_kind | reflexivity]. }
  destruct (statusCode h =? 404)%Z.
  { unfold handle404Fallback. destruct (parseURL env key) as [urlObj|].
    - destruct (underReference urlObj).
      + exists [Fetch fallbackUrl]. split; [right; reflexivity|]. left.
        eexists. reflexivity.
      + exists []. split; [left; reflexivity|]. left. eexists. reflexivity.
    - exists []. split; [left; reflexivity|]. right. eexists.
      split; [|reflexivity]. cbn. tauto. }
  destruct (400 <=? statusCode h)%Z.
  { exists []. split; [left; reflexivity|]. right. eexists.
    split; [|reflexivity]. cbn. tauto. }
  destruct (convertPage env h (responseUrl h) (str "Untitled Document") [])
    as [page|e] eqn:Hc.
  - exists []. split; [left; reflexivity|]. left. exists page. reflexivity.
  - exists []. split; [left; reflexivity|]. right. exists (wrapReadError inputUrl e).
    split; [apply wrapReadError_kind | reflexivity].
Qed.

Lemma get_subset {T : Type} (c : LRUCache T) (key : jsstring) (now : Z) :
  fst (Cache.get c key now) = None ->
  forall k e, cache (snd (Cache.get c key now)) !! k = Some e -> cache c !! k = Some e.
Proof.
  unfold Cache.get. destruct (cache c !! key) as [entry|] eqn:He; [|intros _ k e H; exact H].
  destruct (ttl c <? now - timestamp entry)%Z; [|discriminate].
  intros _ k e. cbn. destruct (decide (k = key)) as [->|Hne].
  - rewrite lookup_delete_eq. discriminate.
  - rewrite lookup_delete_ne by congruence. exact (fun H => H).
Qed.

(** Property X22.  A page that [readPage] requested and returned is
    served from the cache afterwards: until [ttl] after it was stored,
    another call for the same URL returns the same page and makes no
    request, whatever the site would answer then.  This holds for the
    page returned for a status of 404 as well. *)
Theorem readPage_served_from_cache (env later : Env) (c c' : LRUCache ReadPageOutput)
    (nowGet nowSet againGet againSet : Z) (inputUrl : jsstring)
    (page : ReadPageOutput) (evs : list Event) :
  readPage env c nowGet nowSet inputUrl = (Ok page, c', evs) ->
  evs <> [] ->
  parseURL later = parseURL env ->
  (againGet - nowSet <= ttl c)%Z ->
  exists c'', readPage later c' againGet againSet inputUrl = (Ok page, c'', []).
Proof.
  intros Hread Hevs Hparse Hfresh.
  destruct (readPage_courses env c nowGet nowSet inputUrl)
    as [[msg [_ H]]|[Hv [[p [_ H]]|[Hmiss [fetched [_ [[p H]|[e [_ H]]]]]]]]];
    rewrite H in Hread; try discriminate Hread.
  { injection Hread as _ _ <-. contradiction. }
  injection Hread as -> <- _.
  unfold readPage. rewrite Hparse, Hv. unfold Cache.createCacheKey.
  set (c1 := snd (Cache.get c (trim inputUrl) nowGet)).
  assert (ttl c1 = ttl c) as Httl by (apply get_params).
  rewrite <- Httl in Hfresh.
  rewrite (proj1 (get_after_set c1 (trim inputUrl) page nowSet againGet Hfresh)).
  eexists. reflexivity.
Qed.

(** The first call finds the page [/reference/scans-x] missing and gets
    the reference page in its place; the second call, a minute later,
    is answered from the cache. *)
Lemma readPage_served_from_cache_witness :
  exists page c' c'',
    fst (readPage missingPages emptyPageCache 0 0 scansPage) = (Ok page, c')
    /\ readPage missingPages c' 60000 60000 scansPage = (Ok page, c'', []).
Proof.
  destruct (readPage missingPages emptyPageCache 0 0 scansPage) as [[r c'] evs] eqn:H.
  assert (exists page, r = Ok page /\ evs <> []) as [page [-> Hevs]].
  { vm_compute in H. injection H as <- _ <-. eexists. split; [reflexivity | discriminate]. }
  assert (60000 - 0 <= ttl emptyPageCache)%Z as Hfresh by (vm_compute; discriminate).
  destruct (readPage_served_from_cache missingPages missingPages emptyPageCache c'
              0 0 60000 60000 scansPage page evs H Hevs eq_refl Hfresh) as [c'' H2].
  exists page, c', c''. split; [reflexivity | exact H2].
Defined.

(** Property X23.  The requests of [readPage].  A call makes no request,
    or one request for the trimmed URL, or that request and then one for
    the root reference page.  A request is made only for a URL that the
    parser accepts with the protocol [http:] or [https:] and a host that
    is an allowed domain or a subdomain of one. *)
Theorem readPage_requests (env : Env) (c : LRUCache ReadPageOutput)
    (nowGet nowSet : Z) (inputUrl : jsstring) :
  let evs := snd (readPage env c nowGet nowSet inputUrl) in
  (evs = [] \/ evs = [Fetch (trim inputUrl)]
   \/ evs = [Fetch (trim inputUrl); Fetch fallbackUrl])
  /\ (evs <> [] ->
      exists parsed,
        parseURL env (trim inputUrl) = Some parsed
        /\ (protocol parsed = str "https:" \/ protocol parsed = str "http:")
        /\ hostAllowed (toLowerCase (hostname parsed))).
Proof.
  intros evs. unfold evs.
  destruct (readPage_courses env c nowGet nowSet inputUrl)
    as [[msg [_ H]]|[Hv [[p [_ H]]|[Hmiss [fetched [Hf [[p H]|[e [_ H]]]]]]]]];
    rewrite H; cbn [snd].
  - split; [left; reflexivity | intros F; contradiction].
  - split; [left; reflexivity | intros F; contradiction].
  - split; [destruct Hf as [-> | ->]; tauto|]. intros _.
    destruct (validateUrl_passes _ _ Hv) as [parsed [H1 [H2 H3]]].
    exists parsed. split; [exact H1|]. split; [exact H2|]. apply isAllowed_spec. exact H3.
  - split; [destruct Hf as [-> | ->]; tauto|]. intros _.
    destruct (validateUrl_passes _ _ Hv) as [parsed [H1 [H2 H3]]].
    exists parsed. split; [exact H1|]. split; [exact H2|]. apply isAllowed_spec. exact H3.
Qed.

(** Property X24.  When [readPage] throws, the error is of one of the
    classes [ValidationError], [NetworkError], [ScrapingError] and
    [ConversionError], and the call has stored nothing: every entry of
    the page cache after the call was in it before. *)
Theorem readPage_failure_stores_nothing (env : Env) (c c' : LRUCache ReadPageOutput)
    (nowGet nowSet : Z) (inputUrl : jsstring) (e : Error) (evs : list Event) :
  readPage env c nowGet nowSet inputUrl = (Throw e, c', evs) ->
  (kind e = ValidationError \/ kind e = NetworkError
   \/ kind e = ScrapingError \/ kind e = ConversionError)
  /\ (c' = c \/ c' = snd (Cache.get c (trim inputUrl) nowGet))
  /\ (forall k entry, cache c' !! k = Some entry -> cache c !! k = Some entry).
Proof.
  intros Hread.
  destruct (readPage_courses env c nowGet nowSet inputUrl)
    as [[msg [_ H]]|[Hv [[p [_ H]]|[Hmiss [fetched [Hf [[p H]|[e' [Hk H]]]]]]]]];
    rewrite H in Hread; try discriminate Hread.
  - injection Hread as <- <- <-. split; [left; reflexivity|].
    split; [left; reflexivity | intros k entry Hke; exact Hke].
  - injection Hread as <- <- <-. split; [exact Hk|].
    split; [right; reflexivity|]. apply get_subset. exact Hmiss.
Qed.

(** The host [eviltenable.com] is refused. *)
Lemma readPage_failure_stores_nothing_witness :
  exists e c' evs,
    readPage missingPages emptyPageCache 0 0 evilPage = (Throw e, c', evs)
    /\ (kind e = ValidationError \/ kind e = NetworkError
        \/ kind e = ScrapingError \/ kind e = ConversionError)
    /\ (c' = emptyPageCache
        \/ c' = snd (Cache.get emptyPageCache (trim evilPage) 0)).
Proof.
  destruct (readPage missingPages emptyPageCache 0 0 evilPage) as [[r c'] evs] eqn:H.
  assert (exists e, r = Throw e) as [e ->].
  { vm_compute in H. injection H as <- _ _. eexists. reflexivity. }
  destruct (readPage_failure_stores_nothing _ _ _ _ _ _ _ _ H) as (H1 & H2 & _).
  exists e, c', evs. split; [reflexivity|]. split; [exact H1 | exact H2].
Defined.

(** A request of [readPageWithOptions] and the first request of
    [readPage] have the same outcome. *)
Lemma readPageWithOptions_same (env : Env) (c : LRUCache ReadPageOutput)
    (nowGet nowSet : Z) (limit : option Z) (inputUrl : jsstring) :
  fst (Cache.get c (trim inputUrl) nowGet) = None ->
  (forall h, downloadHTML env 0 (trim inputUrl) = Ok h ->
     statusCode h <> 404%Z
     /\ match limit with
        | None => True
        | Some l => l = 0%Z \/ (Z.of_nat (length (html h)) <= l)%Z
        end) ->
  fst (readPageWithOptions env limit inputUrl)
  = fst (fst (readPage env c nowGet nowSet inputUrl))
  /\ snd (readPageWithOptions env limit inputUrl)
     = snd (readPage env c nowGet nowSet inputUrl).
Proof.
  intros Hmiss Hok. unfold readPageWithOptions, readPage.
  destruct (validateUrl (parseURL env) inputUrl) as [e|]; [split; reflexivity|].
  unfold Cache.createCacheKey. rewrite Hmiss.
  destruct (downloadHTML env 0 (trim inputUrl)) as [h|e]; [|split; reflexivity].
  destruct (Hok h eq_refl) as [H404 Hlimit].
  destruct (Z.eqb_spec (statusCode h) 404) as [?|_]; [contradiction|].
  destruct (400 <=? statusCode h)%Z; [split; reflexivity|].
  assert (match limit with
          | None => false
          | Some l => negb (l =? 0)%Z && (l <? Z.of_nat (length (html h)))%Z
          end = false) as ->.
  { destruct limit as [l|]; [|reflexivity]. destruct Hlimit as [-> |Hl]; [reflexivity|].
    destruct (Z.ltb_spec l (Z.of_nat (length (html h)))); [lia|].
    apply andb_false_r. }
  destruct (convertPage env h (responseUrl h) (str "Untitled Document") []);
    split; reflexivity.
Qed.

(** Property X25.  [readPageWithOptions] against [readPage] on a URL
    that is not in the page cache.  When the answer has a status other
    than 404 and a length within [maxContentLength] (no limit when the
    option is absent or 0), both return the same page or throw the same
    error after the same request.  On a status of 404
    [readPageWithOptions] throws a [NetworkError], where [readPage]
    returns a page; on a content above the limit it throws a
    [ScrapingError]. *)
Theorem readPageWithOptions_agrees (env : Env) (c : LRUCache ReadPageOutput)
    (nowGet nowSet : Z) (limit : option Z) (inputUrl : jsstring) :
  fst (Cache.get c (trim inputUrl) nowGet) = None ->
  validateUrl (parseURL env) inputUrl = None ->
  ((forall h, downloadHTML env 0 (trim inputUrl) = Ok h ->
      statusCode h <> 404%Z
      /\ match limit with
         | None => True
         | Some l => l = 0%Z \/ (Z.of_nat (length (html h)) <= l)%Z
         end) ->
   fst (readPageWithOptions env limit inputUrl)
   = fst (fst (readPage env c nowGet nowSet inputUrl))
   /\ snd (readPageWithOptions env limit inputUrl)
      = snd (readPage env c nowGet nowSet inputUrl))
  /\ (forall h, downloadHTML env 0 (trim inputUrl) = Ok h ->
       statusCode h = 404%Z ->
       (exists msg, readPageWithOptions env limit inputUrl
                    = (Throw (mkError NetworkError msg), [Fetch (trim inputUrl)]))
       /\ exists page, fst (fst (readPage env c nowGet nowSet inputUrl)) = Ok page)
  /\ (forall h l, downloadHTML env 0 (trim inputUrl) = Ok h ->
       (statusCode h < 400)%Z -> limit = Some l -> l <> 0%Z ->
       (l < Z.of_nat (length (html h)))%Z ->
       exists msg, readPageWithOptions env limit inputUrl
                   = (Throw (mkError ScrapingError msg), [Fetch (trim inputUrl)])).
Proof.
  intros Hmiss Hv. split; [apply readPageWithOptions_same; exact Hmiss|]. split.
  - intros h Hd H404. split.
    + unfold readPageWithOptions. rewrite Hv, Hd, H404. cbn. eexists. reflexivity.
    + destruct (validateUrl_passes _ _ Hv) as [parsed [Hp _]].
      unfold readPage. rewrite Hv. unfold Cache.createCacheKey.
      rewrite Hmiss, Hd, H404. cbn [Z.eqb Pos.eqb]. unfold handle404Fallback.
      rewrite Hp. destruct (underReference parsed); eexists; reflexivity.
  - intros h l Hd Hs -> Hl0 Hlong. unfold readPageWithOptions. rewrite Hv, Hd.
    destruct (Z.leb_spec 400 (statusCode h)); [lia|].
    destruct (Z.eqb_spec l 0); [contradiction|].
    destruct (Z.ltb_spec l (Z.of_nat (length (html h)))); [|lia].
    cbn. eexists. reflexivity.
Qed.

(** On the example site the page [/recipes/missing] answers 404. *)
Lemma readPageWithOptions_agrees_witness :
  (exists msg, readPageWithOptions missingPages None recipePage
               = (Throw (mkError NetworkError msg), [Fetch (trim recipePage)]))
  /\ exists page, fst (fst (readPage missingPages emptyPageCache 0 0 recipePage)) = Ok page.
Proof.
  assert (fst (Cache.get emptyPageCache (trim recipePage) 0) = None) as Hmiss
    by (vm_compute; reflexivity).
  assert (validateUrl (parseURL missingPages) recipePage = None) as Hv
    by (vm_compute; reflexivity).
  destruct (readPageWithOptions_agrees missingPages emptyPageCache 0 0 None recipePage
              Hmiss Hv) as (_ & H & _).
  apply (H (mkHTML (str "not found") recipePage 404)); [vm_compute|]; reflexivity.
Defined.

End ReadProperties.

(** ** Placeholders: what they never touch *)

Module ScraperProperties.
Import JS JSFacts Scraper ScraperSpec ScraperExamples PlaceholderFacts RestoreFacts.
Import ScraperFacts.

Lemma concat_nil (l : list (list jsstring)) :
  concat l = [] -> Forall (fun x => x = []) l.
Proof.
  induction l as [|x l IH]; [constructor|]. cbn. intros H.
  apply app_eq_nil in H as [-> H]. constructor; [reflexivity | exact (IH H)].
Qed.

(** A subtree without selected element is left as it is by the loop of
    [preserveCodeBlocks]. *)
Lemma replaceIn_unselected (ch : Cheerio) (n : Node) :
  forall k, selected ch n = [] -> replaceIn ch k n = n.
Proof.
  induction n as [s|tag attribs children IH] using Node_induction; intros k Hsel;
    [reflexivity|].
  rewrite replaceIn_element. cbn [selected] in Hsel.
  destruct (isCodeElement tag attribs); [discriminate Hsel|].
  cbn [app] in Hsel. f_equal. apply concat_nil in Hsel.
  revert k. induction children as [|c cs IHcs]; intros k; [reflexivity|].
  apply Forall_cons in IH as [Hc Hcs]. cbn [map] in Hsel.
  apply Forall_cons in Hsel as [Hsc Hscs].
  cbn [replaceAll]. rewrite (Hc k Hsc), Hsc. cbn [length]. rewrite Nat.add_0_r.
  f_equal. apply IHcs; assumption.
Qed.

Lemma replaceAll_unselected (ch : Cheerio) (doc : list Node) (k : nat) :
  selectedIn ch doc = [] -> replaceAll ch k doc = doc.
Proof.
  unfold selectedIn. intros H. apply concat_nil in H.
  revert k. induction doc as [|n doc IH]; intros k; [reflexivity|].
  cbn [map] in H. apply Forall_cons in H as [Hn Hdoc].
  cbn [replaceAll]. rewrite (replaceIn_unselected ch n k Hn), Hn. cbn [length].
  rewrite Nat.add_0_r. f_equal. apply IH. exact Hdoc.
Qed.

(** Property X26.  A document in which the selector of
    [preserveCodeBlocks] matches nothing: the placeholder map is empty,
    the markup returned is that of the parsed document, and
    [cleanHTMLPreservingCodeBlocks] returns what [cleanHTML] makes of
    that markup. *)
Theorem no_code_elements (ch : Cheerio) (html : jsstring) :
  selectedIn ch (load ch html) = [] ->
  preserveCodeBlocks ch html = (serialize ch (load ch html), [])
  /\ cleanHTMLPreservingCodeBlocks ch html = cleanHTML ch (serialize ch (load ch html)).
Proof.
  intros H.
  assert (preserveCodeBlocks ch html = (serialize ch (load ch html), [])) as Hp.
  { unfold preserveCodeBlocks. rewrite (replaceAll_unselected _ _ 0 H), H. reflexivity. }
  split; [exact Hp|]. unfold cleanHTMLPreservingCodeBlocks. rewrite Hp. reflexivity.
Qed.

(** The fragment [<p>hi</p>] holds no code. *)
Lemma no_code_elements_witness :
  preserveCodeBlocks plainCheerio paragraph
  = (serialize plainCheerio (load plainCheerio paragraph), []).
Proof.
  apply (no_code_elements plainCheerio paragraph). vm_compute. reflexivity.
Defined.

(** *** The keys of the placeholder map *)

Lemma placeholder_inj (i j : nat) : placeholder i = placeholder j -> i = j.
Proof.
  rewrite !placeholder_shape. intros H. apply app_inv_head in H.
  apply app_inv_tail in H. apply natToString_inj. exact H.
Qed.

Lemma placeholder_apart (i j : nat) :
  includes (placeholder i) (placeholder j) = true -> i = j.
Proof.
  intros H. destruct (decide (i = j)) as [Heq|Hne]; [exact Heq|]. exfalso.
  apply includes_spec in H as [a [b H]].
  assert (noMatch (placeholder i) (placeholder j) ([] ++ [])) as Hno.
  { apply noMatch_placeholder; [congruence | reflexivity | left; reflexivity]. }
  assert (length a < length (placeholder j)) as Hlen.
  { rewrite H, !length_app. pose proof (placeholder_shape i) as Hs.
    assert (0 < length (placeholder i)) by (rewrite Hs, !length_app; cbn; lia). lia. }
  specialize (Hno (length a) Hlen). rewrite H in Hno.
  rewrite drop_app_length in Hno. cbn [app] in Hno. rewrite app_nil_r in Hno.
  rewrite startsWith_app in Hno. discriminate Hno.
Qed.

Lemma codeBlocksOf_lookup (originals : list jsstring) (i : nat) :
  codeBlocksOf originals !! i = (fun o => (placeholder i, o)) <$> originals !! i.
Proof. unfold codeBlocksOf. rewrite list_lookup_imap. reflexivity. Qed.

Lemma codeBlocksOf_keys_from (originals : list jsstring) (k : nat) :
  (imap (fun i o => (placeholder (k + i), o)) originals).*1
  = placeholder <$> seq k (length originals).
Proof.
  revert k. induction originals as [|o l IH]; intros k; [reflexivity|].
  rewrite imap_cons. cbn [fmap list_fmap fst length seq]. rewrite Nat.add_0_r. f_equal.
  rewrite <- (IH (S k)). f_equal. apply imap_ext. intros i x _.
  unfold compose. rewrite Nat.add_succ_r. reflexivity.
Qed.

(** Property X27.  The placeholder map of [preserveCodeBlocks] has one
    entry for each element that the selector matches, in document order;
    the key of the entry of index [i] is the placeholder of index [i] and
    its value the markup of the element.  The keys are pairwise
    different, and no placeholder occurs inside another one. *)
Theorem placeholders_distinct (ch : Cheerio) (html : jsstring) :
  let blocks := snd (preserveCodeBlocks ch html) in
  let elements := selectedIn ch (load ch html) in
  length blocks = length elements
  /\ (forall i, blocks !! i = (fun o => (placeholder i, o)) <$> elements !! i)
  /\ NoDup (blocks.*1)
  /\ (forall i j, includes (placeholder i) (placeholder j) = true -> i = j).
Proof.
  intros blocks elements. unfold blocks, preserveCodeBlocks. cbn [snd]. fold elements.
  split; [unfold codeBlocksOf; apply length_imap|].
  split; [apply codeBlocksOf_lookup|].
  split; [|apply placeholder_apart].
  unfold codeBlocksOf. pose proof (codeBlocksOf_keys_from elements 0) as Hkeys.
  cbn [Nat.add] in Hkeys. rewrite Hkeys.
  apply NoDup_fmap_2; [|apply NoDup_seq].
  intros i j. apply placeholder_inj.
Qed.

(** *** A text without the mark of a placeholder *)

Lemma splitAtFirst_absent (p s : jsstring) :
  includes p s = false -> splitAtFirst p s = None.
Proof.
  induction s as [|c s IH]; cbn [includes splitAtFirst]; intros H;
    apply orb_false_iff in H as [H1 H2]; rewrite H1; [reflexivity|].
  rewrite (IH H2). reflexivity.
Qed.

Lemma includes_placeholder (i : nat) (s : jsstring) :
  includes placeholderStart s = false -> includes (placeholder i) s = false.
Proof.
  intros H. destruct (includes (placeholder i) s) eqn:Hi; [|reflexivity].
  apply includes_spec in Hi as [a [b Hs]]. rewrite placeholder_shape in Hs.
  assert (includes placeholderStart s = true) as Hin; [|congruence].
  apply includes_spec. exists a, (natToString i ++ str "__" ++ b).
  rewrite Hs, <- !app_assoc. reflexivity.
Qed.

Lemma restore_untouched (html : jsstring) (blocks : list (jsstring * jsstring)) :
  Forall (fun b => includes b.1 html = false) blocks ->
  restoreCodeBlocks html blocks = html.
Proof.
  unfold restoreCodeBlocks. induction 1 as [|b blocks Hb _ IH]; [reflexivity|].
  cbn [fold_left]. unfold replaceFirst at 2. rewrite (splitAtFirst_absent _ _ Hb).
  exact IH.
Qed.

(** Property X28.  [restoreCodeBlocks] changes nothing in a text that
    does not hold [__CODE_BLOCK_], whatever the recorded markup is.  So
    when the output of [cleanHTML] holds no such text, the cleaner having
    removed the places of all the code blocks,
    [cleanHTMLPreservingCodeBlocks] returns that output and no code block
    comes back. *)
Theorem restore_needs_placeholder (ch : Cheerio) (html : jsstring)
    (originals : list jsstring) (text : jsstring) :
  includes placeholderStart text = false ->
  restoreCodeBlocks text (codeBlocksOf originals) = text
  /\ (cleanHTML ch (fst (preserveCodeBlocks ch html)) = text ->
      cleanHTMLPreservingCodeBlocks ch html = text).
Proof.
  intros H.
  assert (forall l, restoreCodeBlocks text (codeBlocksOf l) = text) as Hr.
  { intros l. apply restore_untouched. apply Forall_forall. intros [key o] Hin.
    apply list_elem_of_lookup in Hin as [i Hi]. rewrite codeBlocksOf_lookup in Hi.
    destruct (l !! i); [|discriminate Hi]. injection Hi as <- _. cbn [fst].
    apply includes_placeholder. exact H. }
  split; [apply Hr|]. intros Hc. unfold cleanHTMLPreservingCodeBlocks, preserveCodeBlocks.
  cbn [fst snd]. unfold preserveCodeBlocks in Hc. cbn [fst] in Hc. rewrite Hc. apply Hr.
Qed.

(** A text without placeholder and a recorded markup with dollars. *)
Lemma restore_needs_placeholder_witness :
  restoreCodeBlocks (str "<p>hi</p>") (codeBlocksOf [str "<pre>echo $$</pre>"])
  = str "<p>hi</p>".
Proof.
  apply (restore_needs_placeholder plainCheerio [] [str "<pre>echo $$</pre>"]
           (str "<p>hi</p>")).
  vm_compute. reflexivity.
Defined.

End ScraperProperties.
